(** * rFOrLSR.Tools: the ERR engine, the two estimators built on it and
    the conversion to IIR coefficients

    A shallow embedding of [ComputeERR], [ExpansionOrderEstimator],
    [MaxLagsEstimator] and [rFOrLSR2IIR] of [rFOrLSR/Tools/__init__.py], and
    the properties their specification states about them.

    Arithmetic.  The source computes on IEEE floating-point numbers.  The
    embedding computes on exact rationals extended with one non-finite value:
    rounding, overflow and underflow are not modelled, every finite result is
    the exact one.  A division by zero yields [NaN]; every operation
    propagates [NaN] and every comparison with [NaN] is false, as in IEEE
    arithmetic.  The first iteration of [ComputeERR] squares a Python float,
    which raises OverflowError when the square is out of range; the
    embedding has no such path.

    The theorems are therefore about the vectors and grids the functions
    return, and they say what holds of them operation by operation: which
    expression an entry is the value of, the shape, the sign, the range after
    clipping, the order of the iterations, what the scans select.  None of
    them equates two expressions that only exact arithmetic makes equal;
    where the rounding itself is the point, the two expressions are
    evaluated on binary64 numbers ([first_entry64], [entry64]).

    Shapes.  A vector is a list, a matrix is the list of its columns (the
    source only ever reads a matrix column by column).  Operations on two
    vectors are defined on their common prefix; the theorems assume the
    shapes the source requires (every column as long as [y]), for which torch
    would not raise. *)

From Stdlib Require Import QArith Qcanon ZArith List Bool Lia Lra Psatz Permutation.
From Stdlib Require String.
Import ListNotations.

Close Scope Q_scope.
Close Scope Qc_scope.
Open Scope nat_scope.

(* ================================================================== *)
(** * Numbers: exact rationals with NaN *)
(* ================================================================== *)

Inductive num : Type :=
| Fin (q : Qc)
| NaN.

Declare Scope num_scope.
Delimit Scope num_scope with num.
Bind Scope num_scope with num.

Definition nlift2 (f : Qc -> Qc -> Qc) (a b : num) : num :=
  match a, b with
  | Fin p, Fin q => Fin (f p q)
  | _, _ => NaN
  end.

Definition nadd : num -> num -> num := nlift2 Qcplus.
Definition nsub : num -> num -> num := nlift2 Qcminus.
Definition nmul : num -> num -> num := nlift2 Qcmult.

(** [a / b]: non-finite when the divisor is zero. *)
Definition ndiv (a b : num) : num :=
  match a, b with
  | Fin p, Fin q => if Qc_eq_bool q 0 then NaN else Fin (p / q)%Qc
  | _, _ => NaN
  end.

(** [a ** 2] *)
Definition nsq (a : num) : num := nmul a a.

Definition ncmp (test : comparison -> bool) (a b : num) : bool :=
  match a, b with
  | Fin p, Fin q => test (p ?= q)%Qc
  | _, _ => false
  end.

(** [a >= b], [a > b], [a < b], [a == b]: all false on NaN. *)
Definition nge : num -> num -> bool :=
  ncmp (fun c => match c with Lt => false | _ => true end).
Definition ngt : num -> num -> bool :=
  ncmp (fun c => match c with Gt => true | _ => false end).
Definition nlt : num -> num -> bool :=
  ncmp (fun c => match c with Lt => true | _ => false end).
Definition neqb : num -> num -> bool :=
  ncmp (fun c => match c with Eq => true | _ => false end).

(** Python's builtin [min( a, b )]: [b] when [b < a], else [a].
    So [min( 1.0, nan )] is [1.0]. *)
Definition pymin (a b : num) : num := if nlt b a then b else a.

Notation "0" := (Fin 0%Qc) : num_scope.
Notation "1" := (Fin 1%Qc) : num_scope.
Infix "+" := nadd : num_scope.
Infix "-" := nsub : num_scope.
Infix "*" := nmul : num_scope.
Infix "/" := ndiv : num_scope.

(** The exact value of a number, for display: [None] for NaN. *)
Definition value (a : num) : option Q :=
  match a with Fin q => Some (this q) | NaN => None end.

(** [np.sum] *)
Definition nsum (l : list num) : num := fold_right nadd 0%num l.

(** A number from an integer literal or a length. *)
Definition of_Z (z : Z) : num := Fin (Q2Qc (inject_Z z)).
Definition of_nat (n : nat) : num := of_Z (Z.of_nat n).

(* ================================================================== *)
(** * Vectors and matrices *)
(* ================================================================== *)

Definition vec : Type := list num.

(** A [( p, q )]-shaped tensor, as the list of its [q] columns. *)
Definition matrix : Type := list vec.

Fixpoint map2 (f : num -> num -> num) (u v : vec) : vec :=
  match u, v with
  | a :: u', b :: v' => f a b :: map2 f u' v'
  | _, _ => []
  end.

Definition vadd : vec -> vec -> vec := map2 nadd.
Definition vsub : vec -> vec -> vec := map2 nsub.

(** [v * c] and [v / c] for a scalar [c]. *)
Definition vscale (v : vec) (c : num) : vec := map (fun a => a * c)%num v.
Definition vdiv (v : vec) (c : num) : vec := map (fun a => a / c)%num v.

(** [u @ v] for two 1D tensors. *)
Fixpoint Dot (u v : vec) : num :=
  match u, v with
  | a :: u', b :: v' => (a * b + Dot u' v')%num
  | _, _ => 0%num
  end.

(** Modelled from the spec: [HF.Norm2] (module [HelperFuncs] is not part of
    the sources at hand).  The specification gives it as the raw squared
    Euclidean norm, with no fudge factor added. *)
Fixpoint Norm2 (v : vec) : num :=
  match v with
  | a :: v' => (a * a + Norm2 v')%num
  | [] => 0%num
  end.

Definition zeros (p : nat) : vec := repeat 0%num p.

(** [M.T @ d]: one dot product per column of [M]. *)
Definition matTvec (M : matrix) (d : vec) : vec :=
  map (fun c => Dot c d) M.

(** [M @ c] for a matrix with [p] rows: entry [i] is the sum over the
    columns [j] of [M[i, j] * c[j]]. *)
Fixpoint matvec (p : nat) (M : matrix) (c : vec) : vec :=
  match M, c with
  | col :: M', cj :: c' => vadd (vscale col cj) (matvec p M' c')
  | _, _ => zeros p
  end.

(** [l[i] = v], for an index in range (the only ones the source uses). *)
Fixpoint upd {A : Type} (l : list A) (i : nat) (v : A) : list A :=
  match l, i with
  | [], _ => []
  | _ :: l', O => v :: l'
  | a :: l', S i' => a :: upd l' i' v
  end.

(** [v.mean()] and [v - v.mean()] *)
Definition mean (v : vec) : num := (nsum v / of_nat (length v))%num.
Definition center (v : vec) : vec := map (fun a => a - mean v)%num v.

(** [M - M.mean( axis = 0, keepdims = True )]: every column centred. *)
Definition centerCols (M : matrix) : matrix := map center M.

(* ================================================================== *)
(** * Results and exceptions *)
(* ================================================================== *)

Inductive exn : Type := IndexError | AssertionError | NameError.

Inductive result (A : Type) : Type :=
| Ok (a : A)
| Raise (e : exn).

Arguments Ok {A} a.
Arguments Raise {A} e.

Definition bind {A B : Type} (r : result A) (k : A -> result B) : result B :=
  match r with
  | Ok a => k a
  | Raise e => Raise e
  end.

Notation "x <- r ;; k" := (bind r (fun x => k))
  (at level 61, r at next level, right associativity).

(* ================================================================== *)
(** * ComputeERR *)
(* ================================================================== *)

(** The variables the loop of [ComputeERR] assigns. *)
Record loop_state : Type := mkState {
  ERR : list num;
  Psi : matrix;
  Psi_n : matrix
}.

Section ComputeERR.

Variable y : vec.
Variable Ds : matrix.

(** [s2y = ( y @ y ).item()] *)
Definition s2y : num := Dot y y.

(** [Ds[:, col]] *)
Definition column (col : nat) : vec := nth col Ds [].

(** The body of the loop past the early exit, lines 271 to 277. *)
Definition loop_body (col : nat) (st : loop_state) : loop_state :=
  let Omega :=
    vsub (column col)
         (matvec (length y) (Psi_n st) (matTvec (Psi st) (column col))) in
  let n_Omega := Norm2 Omega in
  {| ERR := upd (ERR st) col
              (nsq (Dot Omega y / n_Omega) * n_Omega / s2y)%num;
     Psi := Psi st ++ [Omega];
     Psi_n := Psi_n st ++ [vdiv Omega n_Omega] |}.

(** [for col in range( 1, Ds.shape[1] )], with its two returns. *)
Fixpoint loop (cols : list nat) (st : loop_state) : list num :=
  match cols with
  | [] => ERR st
  | col :: rest =>
      if nge (nsum (firstn col (ERR st))) 1%num then ERR st
      else loop rest (loop_body col st)
  end.

(** The first iteration, lines 263 to 266.  [Ds[:, 0, None]] raises
    [IndexError] on a matrix without columns. *)
Definition first_iteration : result loop_state :=
  match Ds with
  | [] => Raise IndexError
  | d0 :: _ =>
      let ERR0 := repeat 0%num (length Ds) in
      let Psi0 := d0 in
      let n_Omega := Norm2 Psi0 in
      let Psi_n0 := vdiv Psi0 n_Omega in
      Ok {| ERR := upd ERR0 0 (nsq (Dot Psi_n0 y) * n_Omega / s2y)%num;
            Psi := [Psi0];
            Psi_n := [Psi_n0] |}
  end.

Definition ComputeERR : result (list num) :=
  st <- first_iteration ;;
  Ok (loop (seq 1 (length Ds - 1)) st).

End ComputeERR.

(* ================================================================== *)
(** * The two estimators *)
(* ================================================================== *)

(** [range( a, b )] *)
Definition range (a b : Z) : list Z :=
  map (fun i => (a + Z.of_nat i)%Z) (seq 0 (Z.to_nat (b - a))).

(** A [for] loop whose body may raise. *)
Fixpoint forM {I S : Type} (l : list I) (body : I -> S -> result S) (s : S)
  : result S :=
  match l with
  | [] => Ok s
  | i :: rest => s' <- body i s ;; forM rest body s'
  end.

(** A 2D array as the list of its rows. *)
Definition grid : Type := list (list num).

Definition full (rows cols : nat) (v : num) : grid := repeat (repeat v cols) rows.

(** [Grid[i, j]] and [Grid[i, j] = v] *)
Definition gget (G : grid) (i j : nat) : num := nth j (nth i G []) NaN.
Definition gset (G : grid) (i j : nat) (v : num) : grid :=
  upd G i (upd (nth i G []) j v).

(** [max( n - 1, 0 )] *)
Definition prev (n : nat) : nat := Z.to_nat (Z.max (Z.of_nat n - 1) 0).

(** [np.max]: NaN as soon as one entry is NaN. *)
Definition nmax (a b : num) : num :=
  match a, b with
  | Fin p, Fin r => if nlt a b then b else a
  | _, _ => NaN
  end.
Definition npmax (l : list num) : num :=
  match l with
  | [] => NaN
  | a :: l' => fold_left nmax l' a
  end.

(** [np.argmax] of a boolean array: the index of the first [True], 0 when
    there is none. *)
Fixpoint first_true (l : list bool) : option nat :=
  match l with
  | [] => None
  | b :: l' => if b then Some O else option_map S (first_true l')
  end.
Definition argmax (l : list bool) : nat :=
  match first_true l with Some i => i | None => O end.

Record Recommendations : Type := mkRec {
  Min_XY : nat * nat;
  Min_X : nat * nat;
  Min_Y : nat * nat
}.

(** What a run of [MaxLagsEstimator] produces: the returned pair, whether the
    warning was printed, and the lag pairs [Lagger] was called with, in
    order. *)
Record MaxLags_run : Type := mkRun {
  Recs : Recommendations;
  Grid : grid;
  warned : bool;
  Lagger_calls : list (nat * nat)
}.

Section Estimators.

(** The dictionary constructors of module [CTors], external to this file. *)
Variable Lagger : vec * vec -> nat * nat -> vec * matrix * list String.string.
Variable Expander :
  matrix -> list String.string -> Z -> matrix * list String.string.

Variables x y : vec.

(** ** ExpansionOrderEstimator *)

(** The explained variance of the model of order [k], line 321. *)
Definition ModelErr (y_cut : vec) (RegMat : matrix)
  (RegNames : list String.string) (k : Z) : result num :=
  let RegMatTMP := fst (Expander RegMat RegNames k) in
  E <- ComputeERR y_cut (centerCols RegMatTMP) ;;
  Ok (pymin 1%num (nsum E)).

(** The explained variance of the model of order [k], [NaN] when there is
    none because [ComputeERR] raises. *)
Definition explained_variance (y_cut : vec) (RegMat : matrix)
  (RegNames : list String.string) (k : Z) : num :=
  match ModelErr y_cut RegMat RegNames k with
  | Ok v => v
  | Raise _ => NaN
  end.

(** The loop of lines 316 to 324; [ModelOrder] is the loop variable, unbound
    before the first iteration. *)
Fixpoint order_loop (y_cut : vec) (RegMat : matrix)
  (RegNames : list String.string) (VarianceAcceptThreshold : num)
  (orders : list Z) (ModelOrder : option Z)
  (ModelExplainedVariance : list num) : result (option Z * list num) :=
  match orders with
  | [] => Ok (ModelOrder, ModelExplainedVariance)
  | k :: rest =>
      e <- ModelErr y_cut RegMat RegNames k ;;
      let MEV := ModelExplainedVariance ++ [e] in
      if nge (last MEV NaN) VarianceAcceptThreshold then Ok (Some k, MEV)
      else order_loop y_cut RegMat RegNames VarianceAcceptThreshold
             rest (Some k) MEV
  end.

Definition ExpansionOrderEstimator (MaxLags : nat * nat) (MaxOrder : Z)
  (VarianceAcceptThreshold : num) : result (Z * list num) :=
  if negb (length x =? length y) then Raise AssertionError
  else if (MaxOrder <? 1)%Z then Raise AssertionError
  else
    let '(y_cut, RegMat, RegNames) := Lagger (x, y) MaxLags in
    let y_cut := center y_cut in
    r <- order_loop y_cut RegMat RegNames VarianceAcceptThreshold
           (range 1 (MaxOrder + 1)) None [0%num] ;;
    match fst r with
    | None => Raise NameError
    | Some ModelOrder => Ok (ModelOrder, snd r)
    end.

(** ** MaxLagsEstimator *)

Variable ModelOrder : Z.

(** The [else] branch of the grid fill, lines 397 to 401: [ERRArray] for
    [nb] input lags and [na] output lags, and the value of the cell. *)
Definition cell_ERR (nb na : nat) : result (list num) :=
  let '(y_cut, RegMat, RegNames) := Lagger (x, y) (nb, na) in
  let '(RegMat, RegNames) := Expander RegMat RegNames ModelOrder in
  ComputeERR (center y_cut) (centerCols RegMat).

Definition cell_value (nb na : nat) : result num :=
  ERRArray <- cell_ERR nb na ;;
  Ok (pymin 1%num (nsum ERRArray)).

(** The test of line 393. *)
Definition dominated (G : grid) (na nb : nat) : bool :=
  neqb (gget G (prev na) nb) 1%num && neqb (gget G na (prev nb)) 1%num.

(** One iteration of the inner loop, lines 393 to 401. *)
Definition fill_cell (na nb : nat) (st : grid * list (nat * nat))
  : result (grid * list (nat * nat)) :=
  let '(G, calls) := st in
  if dominated G na nb then Ok (gset G na nb 1%num, calls)
  else
    v <- cell_value nb na ;;
    Ok (gset G na nb v, calls ++ [(nb, na)]).

(** The same iteration, on the cell [c = (na, nb)]. *)
Definition fill_step (c : nat * nat) (st : grid * list (nat * nat))
  : result (grid * list (nat * nat)) :=
  fill_cell (fst c) (snd c) st.

(** Lines 385 to 403. *)
Definition fill_grid (MaxLags : nat * nat) : result (grid * list (nat * nat)) :=
  forM (seq 0 (snd MaxLags + 1))
       (fun na => forM (seq 0 (fst MaxLags + 1)) (fun nb => fill_cell na nb))
       (full (snd MaxLags + 1) (fst MaxLags + 1) NaN, []).

(** Lines 412 to 419; [BestIdx] starts at [np.inf], here [None]. *)
Definition scan_XY (G : grid) (thr : num) (MaxLags : nat * nat)
  (start : nat * nat) : nat * nat :=
  snd (fold_left (fun acc na =>
         fold_left (fun acc nb =>
           if ngt (gget G na nb) thr then
             if match fst acc with None => true | Some b => na + nb <? b end
             then (Some (na + nb), (nb, na))
             else acc
           else acc)
         (seq 0 (fst MaxLags + 1)) acc)
       (seq 0 (snd MaxLags + 1)) (@None nat, start)).

(** Lines 421 to 423. *)
Fixpoint scan_Y (G : grid) (thr : num) (nas : list nat) (start : nat * nat)
  : nat * nat :=
  match nas with
  | [] => start
  | na :: rest =>
      let BestIdx := argmax (map (fun v => ngt v thr) (nth na G [])) in
      if negb (BestIdx =? 0) then (BestIdx, na) else scan_Y G thr rest start
  end.

(** Lines 425 to 427. *)
Fixpoint scan_X (G : grid) (thr : num) (nbs : list nat) (start : nat * nat)
  : nat * nat :=
  match nbs with
  | [] => start
  | nb :: rest =>
      let BestIdx :=
        argmax (map (fun row => ngt (nth nb row NaN) thr) G) in
      if negb (BestIdx =? 0) then (nb, BestIdx) else scan_X G thr rest start
  end.

Definition MaxLagsEstimator (MaxLags : nat * nat)
  (VarianceAcceptThreshold : num) (Plot : bool)
  (SaveFig : option String.string) : result MaxLags_run :=
  if negb (length x =? length y) then Raise AssertionError
  else if (ModelOrder <? 1)%Z then Raise AssertionError
  else if match SaveFig with Some _ => negb Plot | None => false end
  then Raise AssertionError
  else
    st <- fill_grid MaxLags ;;
    let G := fst st in
    let corner := (fst MaxLags, snd MaxLags) in
    Ok {| Recs :=
            {| Min_XY := scan_XY G VarianceAcceptThreshold MaxLags corner;
               Min_X := scan_X G VarianceAcceptThreshold
                          (seq 0 (fst MaxLags + 1)) corner;
               Min_Y := scan_Y G VarianceAcceptThreshold
                          (seq 0 (snd MaxLags + 1)) corner |};
          Grid := G;
          warned := nlt (npmax (concat G)) VarianceAcceptThreshold;
          Lagger_calls := snd st |}.

End Estimators.

(* ================================================================== *)
(** * Concrete inputs *)
(* ================================================================== *)

Definition rat (n : Z) (d : positive) : Qc := Q2Qc (n # d).
Definition ints (l : list Z) : vec := map of_Z l.

Definition show (r : result (list num)) : option (list (option Q)) :=
  match r with Ok E => Some (map value E) | Raise _ => None end.

(* ================================================================== *)
(** * The ERR engine as the specification words it *)
(* ================================================================== *)

(** The specification of [ComputeERR], section 4.2, step by step: the
    projection of a raw column on an accumulated basis column, through the
    normalised column [w / SquaredNorm( w )] (step b); [Omega], the raw
    column minus its projections on every accumulated column (step b); the
    basis built one column at a time (step e); the ERR formula (steps c
    and d); the saturation exit (step a). *)

Definition normalised (w : vec) : vec := vdiv w (Norm2 w).

Definition projection (w d : vec) : vec := vscale (normalised w) (Dot w d).

Definition orthogonalise (B : list vec) (d : vec) : vec :=
  fold_left (fun acc w => vsub acc (projection w d)) B d.

(** The orthogonalised columns of [cols], given the basis [B] accumulated
    before them. *)
Fixpoint GramSchmidt (B : list vec) (cols : list vec) : list vec :=
  match cols with
  | [] => []
  | d :: rest =>
      let Omega := orthogonalise B d in
      Omega :: GramSchmidt (B ++ [Omega]) rest
  end.

(** [(Omega·y / n_Omega)² * n_Omega / s2y] *)
Definition ERR_formula (y Omega : vec) : num :=
  (nsq (Dot Omega y / Norm2 Omega) * Norm2 Omega / Dot y y)%num.

(** The saturation exit: [done] holds the entries computed so far, [F] the
    values the formula gives for the columns still to come. *)
Fixpoint saturate_from (done F : list num) : list num :=
  match F with
  | [] => done
  | f :: F' =>
      if nge (nsum done) 1%num then done ++ zeros (length F)
      else saturate_from (done ++ [f]) F'
  end.

Definition saturate (F : list num) : list num :=
  match F with
  | [] => []
  | f :: F' => saturate_from [f] F'
  end.

Definition spec_ComputeERR (y : vec) (Ds : matrix) : list num :=
  saturate (map (ERR_formula y) (GramSchmidt [] Ds)).

(** The shapes [ComputeERR] is called on: [Ds] has as many rows as [y]. *)
Definition shapes (y : vec) (Ds : matrix) : Prop :=
  Forall (fun c => length c = length y) Ds.

(** The early-exit test of line 269 succeeded at one of the columns
    [1 .. col] of the returned vector [E]. *)
Definition saturated_before (E : list num) (col : nat) : bool :=
  existsb (fun c => nge (nsum (firstn c E)) 1%num) (seq 1 col).

(* ================================================================== *)
(** * MaxLagsEstimator: the iteration order and the conditions of a run *)
(* ================================================================== *)

(** The cells [(na, nb)] in the order the two nested loops visit them. *)
Definition cells (MaxLags : nat * nat) : list (nat * nat) :=
  flat_map (fun na => map (pair na) (seq 0 (fst MaxLags + 1)))
           (seq 0 (snd MaxLags + 1)).

(** The grid before the first iteration. *)
Definition empty_grid (MaxLags : nat * nat) : grid * list (nat * nat) :=
  (full (snd MaxLags + 1) (fst MaxLags + 1) NaN, []).

(** The dictionary of every lag pair of the grid has at least one column:
    [ComputeERR] returns on each of them. *)
Definition dictionaries_not_empty
  (Lagger : vec * vec -> nat * nat -> vec * matrix * list String.string)
  (Expander : matrix -> list String.string -> Z -> matrix * list String.string)
  (x y : vec) (ModelOrder : Z) (MaxLags : nat * nat) : Prop :=
  forall na nb, na <= snd MaxLags -> nb <= fst MaxLags ->
  exists E, cell_ERR Lagger Expander x y ModelOrder nb na = Ok E.

(** The arguments pass the defensive checks of lines 373 to 378. *)
Definition checks_pass (x y : vec) (ModelOrder : Z) (Plot : bool)
  (SaveFig : option String.string) : Prop :=
  length x = length y /\ (1 <= ModelOrder)%Z /\ (SaveFig = None \/ Plot = true).

(** A grid with [rows] rows of [cols] entries. *)
Definition shaped (rows cols : nat) (G : grid) : Prop :=
  length G = rows /\ Forall (fun row => length row = cols) G.

(** An entry that is finite and not negative. *)
Definition finite_nonneg (e : num) : Prop :=
  exists v, e = Fin v /\ (0 <= v)%Qc.

(* ================================================================== *)
(** * Stand-ins for the dictionary constructors *)
(* ================================================================== *)

(** [v[q - j : q - j + len]], the samples of [v] delayed by [j]. *)
Definition window (v : vec) (q j len : nat) : vec := firstn len (skipn (q - j) v).

(** Modelled from the spec: [CTors.Lagger] (module [CTors] is not part of
    the sources at hand), for the concrete runs only; the theorems hold for
    every constructor.  It cuts the first [max( nb, na )] samples and
    returns the output over the remaining window and the columns [x[k]],
    ..., [x[k-nb]], [y[k-1]], ..., [y[k-na]] (names left empty). *)
Definition Lagger_model (xy : vec * vec) (lags : nat * nat)
  : vec * matrix * list String.string :=
  let q := Nat.max (fst lags) (snd lags) in
  let len := length (snd xy) - q in
  (window (snd xy) q 0 len,
   map (fun j => window (fst xy) q j len) (seq 0 (fst lags + 1))
   ++ map (fun j => window (snd xy) q j len) (seq 1 (snd lags)),
   repeat String.EmptyString (fst lags + 1 + snd lags)).

(** Modelled from the spec: [CTors.Expander] (module [CTors] is not part of
    the sources at hand), for the concrete runs only: the expansion of
    order 1, which leaves the dictionary as it is. *)
Definition Expander_model (M : matrix) (names : list String.string) (order : Z)
  : matrix * list String.string := (M, names).

(** A run, for display. *)
Definition show_run (r : result MaxLags_run) :=
  match r with
  | Ok run => Some (Recs run, map (map value) (Grid run), warned run, Lagger_calls run)
  | Raise _ => None
  end.

(* ================================================================== *)
(** * Further properties: definitions *)
(* ================================================================== *)

From Stdlib Require Import Sorted.

(** An entry that is NaN or not negative. *)
Definition nonneg_or_nan (e : num) : Prop := e = NaN \/ finite_nonneg e.

(** An entry that is not negative: [e < 0] is false, as it is for a number
    that is at least 0 and for NaN. *)
Definition not_negative (e : num) : Prop := nlt e 0%num = false.

(** A finite number between 0 and 1. *)
Definition in_unit_interval (e : num) : Prop :=
  exists v, e = Fin v /\ (0 <= v <= 1)%Qc.

(** The test of lines 416, 422 and 426 on the cell [(na, nb)]:
    [Grid[ na, nb ] > VarianceAcceptThreshold]. *)
Definition exceeds (G : grid) (thr : num) (na nb : nat) : Prop :=
  ngt (gget G na nb) thr = true.

(** One iteration of lines 416 to 419, on the cell [(na, nb)]. *)
Definition scan_step (G : grid) (thr : num) (na nb : nat)
  (acc : option nat * (nat * nat)) : option nat * (nat * nat) :=
  if ngt (gget G na nb) thr then
    if match fst acc with None => true | Some b => na + nb <? b end
    then (Some (na + nb), (nb, na))
    else acc
  else acc.

(** The cell [c] is visited before the cell [d] by the two nested loops,
    rows outside and columns inside. *)
Definition visited_before (c d : nat * nat) : Prop :=
  fst c < fst d \/ (fst c = fst d /\ snd c < snd d).

(** A row, or a column, the scans of lines 421 to 427 pass over: its
    lag-0 cell already exceeds the threshold ([np.argmax] is 0), or none of
    its cells does ([np.argmax] is 0 as well). *)
Definition row_skipped (G : grid) (thr : num) (MaxLags : nat * nat) (na : nat)
  : Prop :=
  exceeds G thr na 0 \/ forall nb, nb <= fst MaxLags -> ~ exceeds G thr na nb.
Definition column_skipped (G : grid) (thr : num) (MaxLags : nat * nat) (nb : nat)
  : Prop :=
  exceeds G thr 0 nb \/ forall na, na <= snd MaxLags -> ~ exceeds G thr na nb.

(** The dictionary handed to [ComputeERR] for the lags [lags] and the
    expansion order [order], before centring. *)
Definition dictionary
  (Lagger : vec * vec -> nat * nat -> vec * matrix * list String.string)
  (Expander : matrix -> list String.string -> Z -> matrix * list String.string)
  (x y : vec) (order : Z) (lags : nat * nat) : matrix :=
  fst (Expander (snd (fst (Lagger (x, y) lags))) (snd (Lagger (x, y) lags))
         order).

(* ================================================================== *)
(** * ComputeERR: the orthogonalised columns as the loop computes them *)
(* ================================================================== *)

(** [Omega] of line 271 for the raw column [d], [Psi] holding the
    orthogonalised columns accumulated so far and [Psi_n] their
    normalisations [w / n_w]: the raw column minus
    [Psi_n @ ( Psi.T @ d )], the sum of its projections on them. *)
Definition Omega_of (p : nat) (Psi : matrix) (d : vec) : vec :=
  vsub d (matvec p (map normalised Psi) (matTvec Psi d)).

(** The columns [Omega] of the iterations over [cols], each one appended
    to [Psi] for the next (line 276). *)
Fixpoint Omegas_from (p : nat) (Psi : matrix) (cols : list vec) : list vec :=
  match cols with
  | [] => []
  | d :: rest =>
      let Omega := Omega_of p Psi d in
      Omega :: Omegas_from p (Psi ++ [Omega]) rest
  end.

(** The first iteration takes the first column as it is (line 263). *)
Definition Omegas (y : vec) (Ds : matrix) : list vec :=
  match Ds with
  | [] => []
  | d0 :: rest => d0 :: Omegas_from (length y) [d0] rest
  end.

(** [ERRArray] of line 319 for the order [k]. *)
Definition order_ERR
  (Expander : matrix -> list String.string -> Z -> matrix * list String.string)
  (y_cut : vec) (RegMat : matrix) (RegNames : list String.string) (k : Z)
  : result (list num) :=
  ComputeERR y_cut (centerCols (fst (Expander RegMat RegNames k))).

(* ================================================================== *)
(** * The two expressions of an entry, in IEEE doubles *)
(* ================================================================== *)

From Stdlib Require PrimFloat.

Section Doubles.

Import PrimFloat.
Local Open Scope float_scope.

(** [u @ v] on binary64 numbers, the products added from left to right. *)
Definition Dot64 (u v : list float) : float :=
  fold_left (fun acc ab => acc + fst ab * snd ab) (combine u v) 0.

(** Lines 264 to 266 for the first column [d0]:
    [n_Omega = Norm2( Psi )], [Psi_n = Psi / n_Omega] and
    [ERR[0] = ( Psi_n.T @ y )**2 * n_Omega / s2y], the square being the
    product of the number with itself. *)
Definition first_entry64 (y d0 : list float) : float :=
  let n_Omega := Dot64 d0 d0 in
  let Psi_n := map (fun a => a / n_Omega) d0 in
  let W := Dot64 Psi_n y in
  W * W * n_Omega / Dot64 y y.

(** Line 273 for an orthogonalised column [Omega]:
    [( ( Omega @ y ) / n_Omega )**2 * n_Omega / s2y]. *)
Definition entry64 (y Omega : list float) : float :=
  let n_Omega := Dot64 Omega Omega in
  let W := Dot64 Omega y / n_Omega in
  W * W * n_Omega / Dot64 y y.

(** The vectors [[-3, -2, -1]], [[1]] and [[5]]. *)
Definition minus_321 : list float := [-3; -2; -1].
Definition single_1 : list float := [1].
Definition single_5 : list float := [5].

End Doubles.

(* ================================================================== *)
(** * rFOrLSR2IIR *)
(* ================================================================== *)

From Stdlib Require Ascii DecimalString DecimalNat DecimalFacts.

(** What [rFOrLSR2IIR] raises: [IndexError] from [L[i]] and
    [RegNames[ L[i] ]], [ValueError] from [RegressorParser] and from [max]
    of an empty list. *)
Inductive IIR_exn : Type := IIR_IndexError | IIR_ValueError.

Inductive outcome (A : Type) : Type :=
| Return (a : A)
| Throw (e : IIR_exn).

Arguments Return {A} a.
Arguments Throw {A} e.

Definition and_then {A B : Type} (r : outcome A) (k : A -> outcome B)
  : outcome B :=
  match r with
  | Return a => k a
  | Throw e => Throw e
  end.

Notation "x <~ r ;; k" := (and_then r (fun x => k))
  (at level 61, r at next level, right associativity).

(** The first group of the pattern, ['x'] or ['y']. *)
Inductive variable : Type := var_x | var_y.

Section RegressorNames.

Import Ascii String List.

(** [[xy]] on one character. *)
Definition variable_of (c : ascii) : option variable :=
  if Ascii.eqb c "x"%char then Some var_x
  else if Ascii.eqb c "y"%char then Some var_y
  else None.

Definition letter (v : variable) : ascii :=
  match v with var_x => "x"%char | var_y => "y"%char end.

(** What is left of [s] after the literal text [p], if [s] starts with it. *)
Fixpoint strip_prefix (p s : string) : option string :=
  match p, s with
  | EmptyString, _ => Some s
  | String a p', String c s' =>
      if Ascii.eqb a c then strip_prefix p' s' else None
  | String _ _, EmptyString => None
  end.

(** [\d+], greedy: the digits at the head of [s] as a decimal numeral
    ([Nil] when [s] does not start with a digit) and what follows them.
    Names are strings of characters below 256, where [\d] is [0-9]. *)
Fixpoint span_digits (s : string) : Decimal.uint * string :=
  match s with
  | EmptyString => (Decimal.Nil, s)
  | String c rest =>
      let (u, tl) := span_digits rest in
      match DecimalString.uint_of_char c (Some u) with
      | Some u' => (u', tl)
      | None => (Decimal.Nil, s)
      end
  end.

(** Lines 36 to 50.  [pattern.match] anchors the pattern at the start of
    the term only: what follows the closing bracket is not looked at.
    [int] of the digits is their decimal value; the interpreter's limit on
    the number of digits is not modelled. *)
Definition RegressorParser (term : string) : outcome (variable * nat) :=
  if String.eqb term "x[k]"%string then Return (var_x, 0)
  else
    match term with
    | String c rest =>
        match variable_of c, strip_prefix "[k-"%string rest with
        | Some v, Some digits =>
            match span_digits digits with
            | (Decimal.Nil, _) => Throw IIR_ValueError
            | (u, String b _) =>
                if Ascii.eqb b "]"%char then Return (v, Nat.of_uint u)
                else Throw IIR_ValueError
            | (_, EmptyString) => Throw IIR_ValueError
            end
        | _, _ => Throw IIR_ValueError
        end
    | EmptyString => Throw IIR_ValueError
    end.

(** The name [v[k]] of a variable without delay. *)
Definition undelayed_name (v : variable) : string :=
  String (letter v) "[k]"%string.

(** The name [v[k-digits]]. *)
Definition lagged_name (v : variable) (digits : string) : string :=
  String (letter v) ("[k-" ++ digits ++ "]")%string.

(** [str( j )], the decimal numeral of [j]. *)
Definition decimal (j : nat) : string :=
  DecimalString.NilEmpty.string_of_uint (Nat.to_uint j).

End RegressorNames.

(** [l[i]] for a Python list or array: a negative index counts from the
    end, an index out of range raises IndexError. *)
Definition getitem {A : Type} (l : list A) (i : Z) : outcome A :=
  let n := Z.of_nat (length l) in
  let j := if (i <? 0)%Z then (i + n)%Z else i in
  if ((0 <=? j) && (j <? n))%Z then
    match nth_error l (Z.to_nat j) with
    | Some a => Return a
    | None => Throw IIR_IndexError
    end
  else Throw IIR_IndexError.

(** [-c] *)
Definition nopp (c : num) : num :=
  match c with Fin q => Fin (- q)%Qc | NaN => NaN end.

(** Lines 53 to 56, from the index [i] on: [theta] holds the coefficients
    [theta[i]], [theta[i+1]], ... still to be visited, so that the loop
    over [range( len( theta ) )] is the recursion on this list. *)
Fixpoint CoeffList_from (L : list Z) (RegNames : list String.string)
  (i : nat) (theta : list num) : outcome (list (num * variable * nat)) :=
  match theta with
  | [] => Return []
  | theta_i :: rest =>
      Li <~ getitem L (Z.of_nat i) ;;
      term <~ getitem RegNames Li ;;
      vd <~ RegressorParser term ;;
      tl <~ CoeffList_from L RegNames (S i) rest ;;
      Return ((theta_i, fst vd, snd vd) :: tl)
  end.

Definition CoeffList (theta : list num) (L : list Z)
  (RegNames : list String.string) : outcome (list (num * variable * nat)) :=
  CoeffList_from L RegNames 0 theta.

(** The builtin [max] of a list of integers. *)
Definition pymax (l : list nat) : outcome nat :=
  match l with
  | [] => Throw IIR_ValueError
  | d :: rest => Return (fold_left Nat.max rest d)
  end.

(** Lines 66 and 67, one iteration on the pair [(b, a)]. *)
Definition store (ba : vec * vec) (e : num * variable * nat) : vec * vec :=
  match snd (fst e) with
  | var_x => (upd (fst ba) (snd e) (fst (fst e)), snd ba)
  | var_y => (fst ba, upd (snd ba) (snd e) (nopp (fst (fst e))))
  end.

(** Lines 22 to 69; the result is [( b, a )]. *)
Definition rFOrLSR2IIR (theta : list num) (L : list Z)
  (RegNames : list String.string) : outcome (vec * vec) :=
  CL <~ CoeffList theta L RegNames ;;
  MaxLag <~ pymax (map snd CL) ;;
  let a := upd (zeros (MaxLag + 1)) 0 1%num in
  let b := zeros (MaxLag + 1) in
  Return (fold_left store CL (b, a)).

(** The coefficient of the last entry of the list for the variable [v]
    and the delay [d], if there is one. *)
Fixpoint last_coeff (v : variable) (d : nat)
  (CL : list (num * variable * nat)) : option num :=
  match CL with
  | [] => None
  | e :: rest =>
      match last_coeff v d rest with
      | Some c => Some c
      | None =>
          match v, snd (fst e) with
          | var_x, var_x | var_y, var_y =>
              if snd e =? d then Some (fst (fst e)) else None
          | _, _ => None
          end
      end
  end.

(** The entry [e] is what iteration [i] of lines 54 to 56 appends for the
    coefficient [theta_i]: [L[i]] and [RegNames[ L[i] ]] exist and the name
    is read as the variable and the delay of [e]. *)
Definition entry_of (L : list Z) (RegNames : list String.string) (i : nat)
  (theta_i : num) (e : num * variable * nat) : Prop :=
  exists Li term,
    getitem L (Z.of_nat i) = Return Li /\
    getitem RegNames Li = Return term /\
    RegressorParser term = Return (snd (fst e), snd e) /\
    fst (fst e) = theta_i.

(* ================================================================== *)
(** * A first run *)
(* ================================================================== *)

Example ComputeERR_two_columns :
  show (ComputeERR (ints [1; 0]%Z) [ints [1; 1]%Z; ints [1; -1]%Z])
  = Some [Some (1 # 2)%Q; Some (1 # 2)%Q].
Proof. vm_compute. reflexivity. Qed.

(* ================================================================== *)
(** * Arithmetic of [num] *)
(* ================================================================== *)

Lemma Qc_eq_bool_true (a b : Qc) : Qc_eq_bool a b = true <-> a = b.
Proof.
  unfold Qc_eq_bool. destruct (Qc_eq_dec a b); split; intros; congruence.
Qed.

Lemma Qc_eq_bool_false (a b : Qc) : Qc_eq_bool a b = false <-> a <> b.
Proof.
  unfold Qc_eq_bool. destruct (Qc_eq_dec a b); split; intros; congruence.
Qed.

Lemma Qcmult_nonzero (a b : Qc) : a <> 0%Qc -> b <> 0%Qc -> (a * b)%Qc <> 0%Qc.
Proof.
  intros Ha Hb H. destruct (Qcmult_integral _ _ H); contradiction.
Qed.

(** Decides the zero tests of the divisions in the goal, then hands the
    finite case to [field]. *)
Ltac zero_tests :=
  repeat match goal with
  | |- context [Qc_eq_bool ?a ?b] =>
      let E := fresh "E" in
      destruct (Qc_eq_bool a b) eqn:E;
      [apply Qc_eq_bool_true in E | apply Qc_eq_bool_false in E]
  end.

Ltac num_simpl :=
  unfold nsq, nadd, nsub, nmul, ndiv, nlift2 in *; simpl in *.

Ltac by_cases :=
  repeat match goal with a : num |- _ => destruct a end;
  num_simpl; try reflexivity; try discriminate.

Lemma nsub_0_r (a : num) : (a - 0)%num = a.
Proof. by_cases. f_equal. ring. Qed.

Lemma nsub_nadd (a b c : num) : (a - (b + c))%num = (a - b - c)%num.
Proof. by_cases. f_equal. ring. Qed.

Lemma nadd_NaN_r (a : num) : (a + NaN)%num = NaN.
Proof. by_cases. Qed.

Lemma ndiv_NaN_r (a : num) : (a / NaN)%num = NaN.
Proof. by_cases. Qed.

Lemma ndiv_0_r (a : num) : (a / 0)%num = NaN.
Proof. by_cases. Qed.

(* ================================================================== *)
(** * Vectors: lengths and elementwise identities *)
(* ================================================================== *)

Lemma map2_length (f : num -> num -> num) (u v : vec) :
  length u = length v -> length (map2 f u v) = length u.
Proof.
  revert v. induction u as [|a u IH]; intros [|b v] H; simpl in *;
    try discriminate; auto.
Qed.

Lemma vsub_length (u v : vec) :
  length u = length v -> length (vsub u v) = length u.
Proof. apply map2_length. Qed.

Lemma vscale_length (v : vec) (c : num) : length (vscale v c) = length v.
Proof. apply length_map. Qed.

Lemma vdiv_length (v : vec) (c : num) : length (vdiv v c) = length v.
Proof. apply length_map. Qed.

Lemma zeros_length (p : nat) : length (zeros p) = p.
Proof. apply repeat_length. Qed.

Lemma projection_length (w d : vec) : length (projection w d) = length w.
Proof. unfold projection, normalised. now rewrite vscale_length, vdiv_length. Qed.

Lemma fold_projection_length (p : nat) (B : list vec) (d acc : vec) :
  Forall (fun c => length c = p) B -> length acc = p ->
  length (fold_left (fun a w => vsub a (projection w d)) B acc) = p.
Proof.
  intros HB. revert acc.
  induction HB as [|w B Hw HB IH]; intros acc Hacc; simpl; auto.
  apply IH. rewrite vsub_length; auto.
  now rewrite projection_length, Hw.
Qed.

Lemma orthogonalise_length (p : nat) (B : list vec) (d : vec) :
  Forall (fun c => length c = p) B -> length d = p ->
  length (orthogonalise B d) = p.
Proof. intros. now apply fold_projection_length. Qed.

Lemma vsub_zeros (u : vec) : vsub u (zeros (length u)) = u.
Proof.
  induction u as [|a u IH]; simpl; auto.
  unfold vsub in *. simpl. rewrite nsub_0_r. f_equal. exact IH.
Qed.

Lemma vsub_vadd (u a b : vec) : vsub u (vadd a b) = vsub (vsub u a) b.
Proof.
  unfold vsub, vadd. revert a b.
  induction u as [|x u IH]; intros [|s a] [|t b]; simpl; auto.
  rewrite nsub_nadd. f_equal. apply IH.
Qed.

(** The matrix form of the source, [Ds[:, col] - Psi_n @ ( Psi.T @ Ds[:, col] )],
    is the column minus its projections. *)
Lemma Omega_is_orthogonalise (B : list vec) (d : vec) :
  Forall (fun c => length c = length d) B ->
  vsub d (matvec (length d) (map normalised B) (matTvec B d))
  = orthogonalise B d.
Proof.
  unfold orthogonalise. intros HB.
  assert (G : forall acc, length acc = length d ->
    vsub acc (matvec (length d) (map normalised B) (matTvec B d))
    = fold_left (fun a w => vsub a (projection w d)) B acc).
  { induction HB as [|w B Hw HB IH]; intros acc Hacc; simpl.
    - rewrite <- Hacc. apply vsub_zeros.
    - rewrite vsub_vadd. fold (projection w d). apply IH.
      rewrite vsub_length; auto. now rewrite projection_length, Hw. }
  now apply G.
Qed.

(* ================================================================== *)
(** * ComputeERR refines its specification *)
(* ================================================================== *)

Lemma Dot_vdiv (n : Qc) (d y : vec) :
  n <> 0%Qc -> length d = length y ->
  Dot (vdiv d (Fin n)) y = (Dot d y / Fin n)%num.
Proof.
  intros Hn. revert y.
  induction d as [|a d IH]; intros [|b y] H; simpl in *; try discriminate.
  - num_simpl. zero_tests; [contradiction|]. f_equal. now field.
  - rewrite IH by lia. destruct (Dot d y), a, b; num_simpl; zero_tests;
      try contradiction; try reflexivity.
    f_equal. now field.
Qed.

(** The first iteration, written with the normalised column, computes the
    general formula at the raw column. *)
Lemma first_iteration_formula (y d : vec) :
  length d = length y ->
  (nsq (Dot (vdiv d (Norm2 d)) y) * Norm2 d / Dot y y)%num = ERR_formula y d.
Proof.
  intros H. unfold ERR_formula.
  destruct (Norm2 d) as [n|] eqn:En.
  - destruct (Qc_eq_dec n 0) as [->|Hn].
    + rewrite ndiv_0_r.
      destruct d as [|a d], y as [|b y]; simpl in *; try discriminate.
      * reflexivity.
      * rewrite ndiv_0_r. reflexivity.
    + now rewrite Dot_vdiv.
  - rewrite ndiv_NaN_r.
    destruct d as [|a d], y as [|b y]; simpl in *; try discriminate.
    rewrite ndiv_NaN_r. reflexivity.
Qed.

Lemma GramSchmidt_length (cols B : list vec) :
  length (GramSchmidt B cols) = length cols.
Proof.
  revert B. induction cols as [|d cols IH]; intros B; simpl; auto.
Qed.

Lemma upd_app_length (done : list num) (a v : num) (l : list num) :
  upd (done ++ a :: l) (length done) v = (done ++ [v]) ++ l.
Proof.
  induction done as [|b done IH]; simpl; auto. now rewrite IH.
Qed.

Lemma firstn_app_length {A : Type} (l1 l2 : list A) :
  firstn (length l1) (l1 ++ l2) = l1.
Proof.
  induction l1 as [|a l1 IH]; simpl; [now destruct l2 | now rewrite IH].
Qed.

Lemma loop_refines (y : vec) (Ds : matrix) :
  shapes y Ds ->
  forall (rest pre : list vec) (done : list num) (B : list vec) (st : loop_state),
  Ds = pre ++ rest ->
  Forall (fun c => length c = length y) B ->
  length done = length pre ->
  ERR st = done ++ zeros (length rest) ->
  Psi st = B ->
  Psi_n st = map normalised B ->
  loop y Ds (seq (length pre) (length rest)) st
  = saturate_from done (map (ERR_formula y) (GramSchmidt B rest)).
Proof.
  intros Hs rest.
  induction rest as [|d rest IH]; intros pre done B st HDs HB Hlen HE HP HPn.
  - simpl. rewrite HE. simpl. apply app_nil_r.
  - cbn [length seq loop GramSchmidt map saturate_from].
    assert (Hd : length d = length y).
    { unfold shapes in Hs. rewrite HDs in Hs.
      apply Forall_app in Hs. destruct Hs as [_ Hs]. now inversion Hs. }
    rewrite HE, <- Hlen, firstn_app_length.
    destruct (nge (nsum done) 1%num).
    + now rewrite length_map, GramSchmidt_length.
    + assert (Hcol : column Ds (length done) = d).
      { unfold column. rewrite HDs, Hlen. apply nth_middle. }
      assert (HO : vsub d (matvec (length y) (Psi_n st) (matTvec (Psi st) d))
                   = orthogonalise B d).
      { rewrite HP, HPn, <- Hd. apply Omega_is_orthogonalise.
        now rewrite Hd. }
      replace (S (length done)) with (length (pre ++ [d]))
        by (rewrite length_app, Hlen; simpl; lia).
      apply IH.
      * rewrite HDs, <- app_assoc. reflexivity.
      * apply Forall_app. split; [exact HB|]. constructor; [|constructor].
        apply orthogonalise_length; assumption.
      * rewrite !length_app, Hlen. reflexivity.
      * unfold loop_body. cbn [ERR]. rewrite Hcol, HO, HE.
        cbn [zeros repeat length]. rewrite upd_app_length. reflexivity.
      * unfold loop_body. cbn [Psi]. now rewrite Hcol, HO, HP.
      * unfold loop_body. cbn [Psi_n]. rewrite Hcol, HO, HPn, map_app.
        reflexivity.
Qed.

(** On a matrix with at least one column, [ComputeERR] returns what the
    specification describes. *)
Lemma ComputeERR_refines (y : vec) (Ds : matrix) :
  shapes y Ds -> Ds <> [] ->
  ComputeERR y Ds = Ok (spec_ComputeERR y Ds).
Proof.
  intros Hs Hne. destruct Ds as [|d0 rest]; [contradiction|].
  unfold ComputeERR, first_iteration, spec_ComputeERR. cbn [bind].
  f_equal.
  replace (length (d0 :: rest) - 1) with (length rest) by (simpl; lia).
  cbn [length repeat upd].
  assert (Hd : length d0 = length y) by now inversion Hs.
  cbn [GramSchmidt map saturate app]. unfold orthogonalise at 1. cbn [fold_left].
  rewrite <- (first_iteration_formula y d0 Hd).
  apply (loop_refines y (d0 :: rest) Hs rest [d0]); auto.
Qed.

(* ================================================================== *)
(** * The saturation exit *)
(* ================================================================== *)

Lemma saturate_from_length (F done : list num) :
  length (saturate_from done F) = length done + length F.
Proof.
  revert done. induction F as [|f F IH]; intros done; simpl; [lia|].
  destruct (nge (nsum done) 1%num).
  - rewrite length_app, zeros_length. reflexivity.
  - rewrite IH, length_app. simpl. lia.
Qed.

Lemma saturate_from_prefix (F done : list num) :
  firstn (length done) (saturate_from done F) = done.
Proof.
  revert done. induction F as [|f F IH]; intros done; simpl.
  - apply firstn_all.
  - destruct (nge (nsum done) 1%num); [apply firstn_app_length|].
    specialize (IH (done ++ [f])).
    apply (f_equal (firstn (length done))) in IH.
    rewrite firstn_firstn, length_app, firstn_app_length in IH.
    now rewrite Nat.min_l in IH by lia.
Qed.

Lemma nth_zeros (i p : nat) (d : num) : i < p -> nth i (zeros p) d = 0%num.
Proof. intros H. unfold zeros. now rewrite nth_repeat_lt. Qed.

(** Once the test succeeds at [col], every entry from [col] on is zero. *)
Lemma saturate_from_zero (F done : list num) (col i : nat) :
  length done <= col <= i ->
  i < length done + length F ->
  nge (nsum (firstn col (saturate_from done F))) 1%num = true ->
  nth i (saturate_from done F) NaN = 0%num.
Proof.
  revert done. induction F as [|f F IH]; intros done Hc Hi Hsat;
    cbn [saturate_from length] in *; [lia|].
  destruct (nge (nsum done) 1%num) eqn:Ht.
  - rewrite app_nth2 by lia. apply nth_zeros. simpl. lia.
  - destruct (Nat.eq_dec col (length done)) as [->|Hne].
    + pose proof (saturate_from_prefix F (done ++ [f])) as Hp.
      apply (f_equal (firstn (length done))) in Hp.
      rewrite firstn_firstn, length_app, firstn_app_length in Hp.
      rewrite Nat.min_l in Hp by lia. rewrite Hp in Hsat. congruence.
    + apply IH; rewrite ?length_app; simpl; try lia. exact Hsat.
Qed.

(** Before the test succeeds, the entries are the ones of [F]. *)
Lemma saturate_from_entry (F done : list num) (col : nat) :
  length done <= col < length done + length F ->
  (forall c, length done <= c <= col ->
     nge (nsum (firstn c (saturate_from done F))) 1%num = false) ->
  nth col (saturate_from done F) NaN = nth (col - length done) F NaN.
Proof.
  revert done. induction F as [|f F IH]; intros done Hc Hno;
    cbn [saturate_from length] in *; [lia|].
  pose proof (saturate_from_prefix F (done ++ [f])) as Hp.
  destruct (nge (nsum done) 1%num) eqn:Ht.
  - specialize (Hno (length done)). rewrite firstn_app_length in Hno.
    rewrite Hno in Ht by lia. discriminate.
  - destruct (Nat.eq_dec col (length done)) as [->|Hne].
    + rewrite Nat.sub_diag. cbn [nth].
      apply (f_equal (fun l => nth (length done) l NaN)) in Hp.
      rewrite nth_firstn in Hp.
      rewrite length_app in Hp. cbn [length] in Hp.
      replace (length done <? length done + 1) with true in Hp
        by (symmetry; apply Nat.ltb_lt; lia).
      rewrite Hp. now rewrite nth_middle.
    + rewrite IH.
      * rewrite length_app. cbn [length].
        replace (col - length done) with (S (col - (length done + 1))) by lia.
        reflexivity.
      * rewrite length_app. cbn [length]. lia.
      * intros c Hcc. apply Hno. rewrite length_app in Hcc.
        cbn [length] in Hcc. lia.
Qed.

Lemma saturated_before_false (E : list num) (col c : nat) :
  saturated_before E col = false -> 1 <= c <= col ->
  nge (nsum (firstn c E)) 1%num = false.
Proof.
  unfold saturated_before. intros H Hc.
  destruct (nge (nsum (firstn c E)) 1%num) eqn:Ht; [|reflexivity].
  assert (existsb (fun c => nge (nsum (firstn c E)) 1%num) (seq 1 col) = true).
  { apply existsb_exists. exists c. split; [apply in_seq; lia | exact Ht]. }
  congruence.
Qed.

Lemma spec_entry (y : vec) (Ds : matrix) (col : nat) :
  col < length Ds ->
  saturated_before (spec_ComputeERR y Ds) col = false ->
  nth col (spec_ComputeERR y Ds) NaN
  = ERR_formula y (nth col (GramSchmidt [] Ds) []).
Proof.
  intros Hc Hno. unfold spec_ComputeERR in *.
  pose proof (GramSchmidt_length Ds []) as HL.
  destruct (GramSchmidt [] Ds) as [|w G] eqn:EG; simpl in HL; [lia|].
  cbn [map saturate] in *.
  destruct col as [|col].
  - pose proof (saturate_from_prefix (map (ERR_formula y) G) [ERR_formula y w]) as Hp.
    cbn [length] in Hp.
    destruct (saturate_from [ERR_formula y w] (map (ERR_formula y) G));
      simpl in Hp; [discriminate|]. simpl. congruence.
  - rewrite saturate_from_entry.
    + replace (S col - length [ERR_formula y w]) with col by (simpl; lia).
      cbn [nth]. rewrite <- (map_nth (ERR_formula y)).
      apply nth_indep. rewrite length_map. lia.
    + cbn [length]. rewrite length_map. lia.
    + intros c Hcc. cbn [length] in Hcc.
      now apply saturated_before_false with (col := S col).
Qed.

Lemma spec_length (y : vec) (Ds : matrix) :
  length (spec_ComputeERR y Ds) = length Ds.
Proof.
  unfold spec_ComputeERR.
  pose proof (GramSchmidt_length Ds []) as HL.
  destruct (GramSchmidt [] Ds) as [|w G]; simpl in *; [lia|].
  rewrite saturate_from_length, length_map. simpl. lia.
Qed.

Lemma spec_zero_after_saturation (y : vec) (Ds : matrix) (col i : nat) :
  col <= i < length Ds ->
  nge (nsum (firstn col (spec_ComputeERR y Ds))) 1%num = true ->
  nth i (spec_ComputeERR y Ds) NaN = 0%num.
Proof.
  unfold spec_ComputeERR.
  pose proof (GramSchmidt_length Ds []) as HL.
  destruct (GramSchmidt [] Ds) as [|w G]; simpl in HL; [lia|].
  cbn [map saturate]. intros Hi Hsat.
  destruct col as [|col]; [discriminate Hsat|].
  apply saturate_from_zero with (col := S col); auto.
  - simpl. lia.
  - rewrite length_map. simpl. lia.
Qed.

Lemma Omegas_from_GramSchmidt (y : vec) (cols : list vec) :
  forall B, Forall (fun c => length c = length y) B ->
  Forall (fun c => length c = length y) cols ->
  Omegas_from (length y) B cols = GramSchmidt B cols.
Proof.
  induction cols as [|d cols IH]; intros B HB Hc; [reflexivity|].
  apply Forall_cons_iff in Hc. destruct Hc as [Hd Hc].
  cbn [Omegas_from GramSchmidt]. unfold Omega_of. rewrite <- Hd.
  rewrite Omega_is_orthogonalise by (now rewrite Hd).
  f_equal. rewrite Hd. apply IH; [|exact Hc].
  apply Forall_app. split; [exact HB|]. constructor; [|constructor].
  now apply orthogonalise_length.
Qed.

Lemma Omegas_GramSchmidt (y : vec) (Ds : matrix) :
  shapes y Ds -> Omegas y Ds = GramSchmidt [] Ds.
Proof.
  intros Hs. destruct Ds as [|d0 rest]; [reflexivity|].
  apply Forall_cons_iff in Hs. destruct Hs as [Hd Hs].
  cbn [Omegas GramSchmidt app]. f_equal.
  apply Omegas_from_GramSchmidt; [|exact Hs]. constructor; [exact Hd|constructor].
Qed.

Lemma Omegas_from_nth (p : nat) (cols : list vec) :
  forall Psi k, k < length cols ->
  nth k (Omegas_from p Psi cols) []
  = Omega_of p (Psi ++ firstn k (Omegas_from p Psi cols)) (nth k cols []).
Proof.
  induction cols as [|d cols IH]; intros Psi k Hk; simpl in *; [lia|].
  destruct k as [|k]; simpl.
  - now rewrite app_nil_r.
  - rewrite IH by lia. rewrite <- app_assoc. reflexivity.
Qed.

(** C1, as amended.  In a vector [ComputeERR] returns, the entry of a column
    [col >= 1] processed before saturation is
    [(Omega·y / n_Omega)² * n_Omega / s2y], where [Omega] is the raw column
    minus [Psi_n @ ( Psi.T @ column )], the sum of its projections on the
    normalised columns accumulated before it, [n_Omega] its squared norm and
    [s2y = y·y]; for the first column [Omega] is the raw column and the
    entry is the expression of the special-cased first iteration,
    [((Omega / n_Omega)·y)² * n_Omega / s2y]. *)
Theorem ComputeERR_entry_formula (y : vec) (Ds : matrix) (E : list num)
  (col : nat) :
  shapes y Ds -> ComputeERR y Ds = Ok E -> col < length Ds ->
  saturated_before E col = false ->
  let Psi := firstn col (Omegas y Ds) in
  let Omega := nth col (Omegas y Ds) [] in
  let n_Omega := Norm2 Omega in
  match col with
  | O =>
      Omega = column Ds 0 /\
      nth 0 E NaN = (nsq (Dot (vdiv Omega n_Omega) y) * n_Omega / s2y y)%num
  | S _ =>
      Omega = vsub (column Ds col)
                (matvec (length y) (map normalised Psi)
                   (matTvec Psi (column Ds col))) /\
      nth col E NaN = (nsq (Dot Omega y / n_Omega) * n_Omega / s2y y)%num
  end.
Proof.
  intros Hs HE Hc Hno. cbv zeta.
  assert (Hne : Ds <> []) by (destruct Ds; [simpl in Hc; lia | discriminate]).
  rewrite (ComputeERR_refines y Ds Hs Hne) in HE. injection HE as <-.
  pose proof (spec_entry y Ds col Hc Hno) as Hentry.
  rewrite <- (Omegas_GramSchmidt y Ds Hs) in Hentry.
  destruct Ds as [|d0 rest]; [contradiction|].
  apply Forall_cons_iff in Hs. destruct Hs as [Hd Hs].
  destruct col as [|col].
  - cbn [Omegas nth column] in *. split; [reflexivity|].
    rewrite Hentry. symmetry. now apply first_iteration_formula.
  - split; [|exact Hentry].
    cbn [Omegas nth column firstn]. cbn [length] in Hc.
    rewrite Omegas_from_nth by lia. reflexivity.
Qed.

Lemma ComputeERR_entry_formula_witness :
  exists E, ComputeERR (ints [1; 0]%Z) [ints [1; 1]%Z; ints [1; -1]%Z] = Ok E /\
    saturated_before E 1 = false /\
    map value (nth 1 (Omegas (ints [1; 0]%Z)
                        [ints [1; 1]%Z; ints [1; -1]%Z]) [])
    = [Some 1%Q; Some (-1)%Q] /\
    nth 1 E NaN
    = (nsq (Dot (nth 1 (Omegas (ints [1; 0]%Z)
                          [ints [1; 1]%Z; ints [1; -1]%Z]) [])
                (ints [1; 0]%Z)
            / Norm2 (nth 1 (Omegas (ints [1; 0]%Z)
                              [ints [1; 1]%Z; ints [1; -1]%Z]) []))
       * Norm2 (nth 1 (Omegas (ints [1; 0]%Z)
                         [ints [1; 1]%Z; ints [1; -1]%Z]) [])
       / s2y (ints [1; 0]%Z))%num.
Proof.
  destruct (ComputeERR (ints [1; 0]%Z) [ints [1; 1]%Z; ints [1; -1]%Z])
    as [E|e] eqn:HE; [|vm_compute in HE; discriminate HE].
  exists E. split; [reflexivity|].
  assert (HS : saturated_before E 1 = false).
  { vm_compute in HE. injection HE as <-. vm_compute. reflexivity. }
  split; [exact HS|]. split; [vm_compute; reflexivity|].
  destruct (ComputeERR_entry_formula
              (ints [1; 0]%Z) [ints [1; 1]%Z; ints [1; -1]%Z] E 1)
    as [_ HF].
  - repeat constructor.
  - exact HE.
  - simpl. lia.
  - exact HS.
  - exact HF.
Defined.

(** C1 as stated fails in floating point: on [y = [-3, -2, -1]] and that
    same vector as first column, the special-cased first iteration gives a
    binary64 number below 1 where the general formula gives exactly 1. *)
Lemma ComputeERR_entry_formula_counterexample :
  PrimFloat.ltb (first_entry64 minus_321 minus_321) PrimFloat.one = true /\
  PrimFloat.eqb (entry64 minus_321 minus_321) PrimFloat.one = true /\
  PrimFloat.eqb (first_entry64 minus_321 minus_321)
                (entry64 minus_321 minus_321) = false.
Proof. vm_compute. repeat split. Qed.

(** C2, as amended.  A vector [ComputeERR] returns has one entry per column;
    the loop returns the array as it is as soon as the sum of the entries
    before the current column is at least 1; and when the sum of the entries
    of the columns [0 .. col-1] is at least 1, every entry from [col] on
    is 0. *)
Theorem ComputeERR_length_saturation (y : vec) (Ds : matrix) (E : list num) :
  shapes y Ds -> ComputeERR y Ds = Ok E ->
  length E = length Ds /\
  (forall col rest st, nge (nsum (firstn col (ERR st))) 1%num = true ->
     loop y Ds (col :: rest) st = ERR st) /\
  (forall col, col < length Ds ->
     nge (nsum (firstn col E)) 1%num = true ->
     forall i, col <= i < length Ds -> nth i E NaN = 0%num).
Proof.
  intros Hs HE.
  assert (Hne : Ds <> []) by (intros ->; discriminate HE).
  rewrite (ComputeERR_refines y Ds Hs Hne) in HE. injection HE as <-.
  split; [apply spec_length|]. split.
  - intros col rest st H. simpl. now rewrite H.
  - intros col Hc Hsat i Hi. now apply spec_zero_after_saturation with (col := col).
Qed.

Lemma ComputeERR_length_saturation_witness :
  exists E, ComputeERR (ints [1; 0]%Z) [ints [1; 0]%Z; ints [0; 1]%Z] = Ok E /\
    length E = 2 /\
    nge (nsum (firstn 1 E)) 1%num = true /\
    nth 1 E NaN = 0%num.
Proof.
  destruct (ComputeERR (ints [1; 0]%Z) [ints [1; 0]%Z; ints [0; 1]%Z])
    as [E|e] eqn:HE; [|vm_compute in HE; discriminate HE].
  destruct (ComputeERR_length_saturation
              (ints [1; 0]%Z) [ints [1; 0]%Z; ints [0; 1]%Z] E)
    as (HL & _ & HZ).
  - repeat constructor.
  - exact HE.
  - exists E. split; [reflexivity|]. split; [exact HL|].
    assert (HS : nge (nsum (firstn 1 E)) 1%num = true).
    { vm_compute in HE. injection HE as <-. vm_compute. reflexivity. }
    split; [exact HS|]. apply (HZ 1); simpl; auto.
Defined.

(** C2 as stated fails on a matrix without columns: the first iteration
    indexes column 0 and raises, no vector of length 0 is returned. *)
Lemma ComputeERR_no_column_counterexample :
  ~ exists E, ComputeERR (ints [1; 2]%Z) [] = Ok E /\ length E = 0.
Proof. intros [E [H _]]. discriminate H. Qed.

(* ================================================================== *)
(** * Order and signs of exact rationals *)
(* ================================================================== *)

Ltac qc_to_q :=
  unfold Qcle, Qclt, Qcdiv, Qcminus, Qcinv, Qcopp, Qcmult, Qcplus in *;
  cbn [this Q2Qc] in *;
  repeat (rewrite !Qred_correct in * ).

Lemma Qc_square_nonneg (a : Qc) : (0 <= a * a)%Qc.
Proof. qc_to_q. nra. Qed.

Lemma nge_Fin_true (a b : Qc) : nge (Fin a) (Fin b) = true -> (b <= a)%Qc.
Proof.
  unfold nge, ncmp. intros H. apply Qcle_alt. unfold Qccompare in *.
  rewrite <- Qcompare_antisym. destruct (a ?= b)%Q; simpl; congruence.
Qed.

(* ================================================================== *)
(** * The sum of the entries *)
(* ================================================================== *)

(** C3 as stated fails when a column depends linearly on the ones before
    it (the orthogonalised column is zero, its entry is 0/0) and when [y] is
    zero ([s2y] is zero): the sum of the returned vector is not a number. *)
Lemma ComputeERR_sum_counterexample :
  (exists E, ComputeERR (ints [1; 0]%Z) [ints [1; 1]%Z; ints [1; 1]%Z] = Ok E /\
     map value E = [Some (1 # 2)%Q; None] /\
     ~ exists s, nsum E = Fin s /\ (0 <= s <= 1)%Qc) /\
  (exists E, ComputeERR (ints [0; 0]%Z) [ints [1; 1]%Z] = Ok E /\
     map value E = [None] /\
     ~ exists s, nsum E = Fin s /\ (0 <= s <= 1)%Qc).
Proof.
  split.
  - eexists. split; [reflexivity|]. split; [vm_compute; reflexivity|].
    intros [s [H _]]. vm_compute in H. discriminate H.
  - eexists. split; [reflexivity|]. split; [vm_compute; reflexivity|].
    intros [s [H _]]. vm_compute in H. discriminate H.
Qed.

(* ================================================================== *)
(** * ExpansionOrderEstimator *)
(* ================================================================== *)

Lemma range_cons (a b : Z) : (a < b)%Z -> range a b = a :: range (a + 1) b.
Proof.
  intros H. unfold range.
  replace (Z.to_nat (b - a)) with (S (Z.to_nat (b - (a + 1)))) by lia.
  cbn [seq map]. f_equal; [lia|].
  rewrite <- seq_shift, map_map. apply map_ext. intros i. lia.
Qed.

Lemma range_nil (a b : Z) : (b <= a)%Z -> range a b = [].
Proof.
  intros H. unfold range. replace (Z.to_nat (b - a)) with 0 by lia. reflexivity.
Qed.

Section OrderSearch.

Variable Expander :
  matrix -> list String.string -> Z -> matrix * list String.string.
Variable y_cut : vec.
Variable RegMat : matrix.
Variable RegNames : list String.string.
Variable thr : num.

Local Abbreviation explained_variance :=
  (explained_variance Expander y_cut RegMat RegNames).

Lemma order_loop_smallest (n : nat) :
  forall (a : Z) (prev : option Z) (MEV : list num),
  (forall k, (a <= k < a + Z.of_nat (S n))%Z ->
     fst (Expander RegMat RegNames k) <> []) ->
  exists order,
    (a <= order < a + Z.of_nat (S n))%Z /\
    order_loop Expander y_cut RegMat RegNames thr
      (range a (a + Z.of_nat (S n))) prev MEV
    = Ok (Some order, MEV ++ map explained_variance (range a (order + 1))) /\
    (forall j, (a <= j < order)%Z -> nge (explained_variance j) thr = false) /\
    (nge (explained_variance order) thr = true
     \/ order = (a + Z.of_nat (S n) - 1)%Z).
Proof.
  induction n as [|n IH]; intros a prev MEV Hcols.
  all: rewrite range_cons by lia; cbn [order_loop].
  all: assert (HE : ModelErr Expander y_cut RegMat RegNames a
                    = Ok (explained_variance a))
    by (unfold explained_variance, ModelErr;
        specialize (Hcols a ltac:(lia));
        destruct (fst (Expander RegMat RegNames a)); [contradiction|];
        reflexivity).
  all: rewrite HE; cbn [bind]; rewrite last_last.
  all: destruct (nge (explained_variance a) thr) eqn:Ht.
  all: try (exists a; rewrite (range_cons a (a + 1)) by lia;
            rewrite (range_nil (a + 1) (a + 1)) by lia;
            repeat split; auto; lia).
  - rewrite range_nil by lia. cbn [order_loop].
    exists a. rewrite (range_cons a (a + 1)) by lia.
    rewrite (range_nil (a + 1) (a + 1)) by lia.
    repeat split; auto; try lia.
  - replace (a + Z.of_nat (S (S n)))%Z with (a + 1 + Z.of_nat (S n))%Z by lia.
    destruct (IH (a + 1)%Z (Some a) (MEV ++ [explained_variance a]))
      as (order & Ho & HL & Hno & Hlast).
    { intros k Hk. apply Hcols. lia. }
    exists order. split; [lia|]. split; [|split].
    + rewrite HL. rewrite (range_cons a (order + 1)) by lia.
      cbn [map]. now rewrite <- app_assoc.
    + intros j Hj. destruct (Z.eq_dec j a) as [->|Hne]; [exact Ht|].
      apply Hno. lia.
    + destruct Hlast as [Hl|Hl]; [now left | right; lia].
Qed.

End OrderSearch.

Lemma range_nth (a b : Z) (i : nat) (d : Z) :
  i < Z.to_nat (b - a) -> nth i (range a b) d = (a + Z.of_nat i)%Z.
Proof.
  intros Hi. unfold range.
  rewrite nth_indep with (d' := (fun i => (a + Z.of_nat i)%Z) 0)
    by now rewrite length_map, length_seq.
  rewrite (map_nth (fun i => (a + Z.of_nat i)%Z)). now rewrite seq_nth.
Qed.

(** C6. On a valid input, one on which [ComputeERR] returns at every order,
    [ExpansionOrderEstimator] returns the smallest order in [1 .. MaxOrder]
    whose explained variance [min( 1, sum of the ERR vector )] reaches the
    threshold, or [MaxOrder] when none does, together with the sequence that
    starts with 0 and holds [min( 1, sum of the ERR vector )] for every
    order evaluated, in order. *)
Theorem ExpansionOrderEstimator_smallest_order
  (Lagger : vec * vec -> nat * nat -> vec * matrix * list String.string)
  (Expander : matrix -> list String.string -> Z -> matrix * list String.string)
  (x y : vec) (MaxLags : nat * nat) (MaxOrder : Z) (thr : num) :
  length x = length y ->
  (1 <= MaxOrder)%Z ->
  let y_cut := center (fst (fst (Lagger (x, y) MaxLags))) in
  let RegMat := snd (fst (Lagger (x, y) MaxLags)) in
  let RegNames := snd (Lagger (x, y) MaxLags) in
  let ERRArray := order_ERR Expander y_cut RegMat RegNames in
  (forall k, (1 <= k <= MaxOrder)%Z -> exists E, ERRArray k = Ok E) ->
  exists order MEV,
    ExpansionOrderEstimator Lagger Expander x y MaxLags MaxOrder thr
    = Ok (order, MEV) /\
    (1 <= order <= MaxOrder)%Z /\
    length MEV = Z.to_nat order + 1 /\
    nth 0 MEV NaN = 0%num /\
    (forall k, (1 <= k <= order)%Z ->
       exists E, ERRArray k = Ok E /\
                 nth (Z.to_nat k) MEV NaN = pymin 1%num (nsum E)) /\
    (forall j, (1 <= j < order)%Z ->
       exists E, ERRArray j = Ok E /\
                 nge (pymin 1%num (nsum E)) thr = false) /\
    ((exists E, ERRArray order = Ok E /\
                nge (pymin 1%num (nsum E)) thr = true)
     \/ order = MaxOrder).
Proof.
  intros Hlen HM y_cut RegMat RegNames ERRArray Hret.
  assert (Hvar : forall k, (1 <= k <= MaxOrder)%Z ->
            exists E, ERRArray k = Ok E /\
              explained_variance Expander y_cut RegMat RegNames k
              = pymin 1%num (nsum E)).
  { intros k Hk. destruct (Hret k Hk) as [E HE]. exists E. split; [exact HE|].
    unfold explained_variance, ModelErr. unfold ERRArray, order_ERR in HE.
    now rewrite HE. }
  assert (Hcols : forall k, (1 <= k <= MaxOrder)%Z ->
            fst (Expander RegMat RegNames k) <> []).
  { intros k Hk Hnil. destruct (Hret k Hk) as [E HE].
    unfold ERRArray, order_ERR in HE. rewrite Hnil in HE. discriminate HE. }
  unfold ExpansionOrderEstimator.
  rewrite Hlen, Nat.eqb_refl. cbn [negb].
  replace (MaxOrder <? 1)%Z with false by (symmetry; apply Z.ltb_ge; lia).
  destruct (order_loop_smallest Expander y_cut RegMat RegNames thr
              (Z.to_nat (MaxOrder - 1)) 1%Z None [0%num])
    as (order & Ho & HL & Hno & Hlast).
  { intros k Hk. apply Hcols. lia. }
  replace (1 + Z.of_nat (S (Z.to_nat (MaxOrder - 1))))%Z
    with (MaxOrder + 1)%Z in * by lia.
  subst y_cut RegMat RegNames.
  destruct (Lagger (x, y) MaxLags) as [[y0 R] N]. cbn [fst snd] in *.
  rewrite HL. cbn [bind fst snd app].
  eexists. eexists. split; [reflexivity|]. split; [lia|].
  split; [cbn [length]; rewrite length_map; unfold range;
          rewrite length_map, length_seq; lia|].
  split; [reflexivity|]. split; [|split].
  - intros k Hk. destruct (Hvar k ltac:(lia)) as (E & HE & HV).
    exists E. split; [exact HE|]. rewrite <- HV.
    replace (Z.to_nat k) with (S (Z.to_nat (k - 1))) by lia. cbn [nth].
    rewrite nth_indep with (d' := explained_variance Expander (center y0) R N 0)
      by (rewrite length_map; unfold range; rewrite length_map, length_seq; lia).
    rewrite (map_nth (explained_variance Expander (center y0) R N)).
    rewrite range_nth by lia. f_equal. lia.
  - intros j Hj. destruct (Hvar j ltac:(lia)) as (E & HE & HV).
    exists E. split; [exact HE|]. rewrite <- HV. now apply Hno.
  - destruct Hlast as [Ht|Ht]; [left | right; lia].
    destruct (Hvar order ltac:(lia)) as (E & HE & HV).
    exists E. split; [exact HE|]. now rewrite <- HV.
Qed.

(* ================================================================== *)
(** * MaxLagsEstimator: the grid fill *)
(* ================================================================== *)

Lemma forM_app {I S : Type} (l1 l2 : list I) (body : I -> S -> result S) (s : S) :
  forM (l1 ++ l2) body s = (s' <- forM l1 body s ;; forM l2 body s').
Proof.
  revert s. induction l1 as [|i l1 IH]; intros s; simpl; auto.
  destruct (body i s); simpl; auto.
Qed.

Lemma forM_row {S : Type} (i : nat) (l2 : list nat)
  (f : nat -> nat -> S -> result S) (s : S) :
  forM l2 (fun j => f i j) s
  = forM (map (pair i) l2) (fun c => f (fst c) (snd c)) s.
Proof.
  revert s. induction l2 as [|j l2 IH]; intros s; simpl; auto.
  destruct (f i j s); simpl; [apply IH | reflexivity].
Qed.

Lemma forM_nested {S : Type} (l1 l2 : list nat)
  (f : nat -> nat -> S -> result S) (s : S) :
  forM l1 (fun i => forM l2 (fun j => f i j)) s
  = forM (flat_map (fun i => map (pair i) l2) l1)
         (fun c => f (fst c) (snd c)) s.
Proof.
  revert s. induction l1 as [|i l1 IH]; intros s; simpl; auto.
  rewrite forM_app, forM_row.
  destruct (forM (map (pair i) l2) _ s); simpl; [apply IH | reflexivity].
Qed.

Lemma upd_length {A : Type} (l : list A) (i : nat) (v : A) :
  length (upd l i v) = length l.
Proof.
  revert i. induction l as [|a l IH]; intros [|i]; simpl; auto.
Qed.

Lemma nth_upd_same {A : Type} (l : list A) (i : nat) (v d : A) :
  i < length l -> nth i (upd l i v) d = v.
Proof.
  revert i. induction l as [|a l IH]; intros [|i] H; simpl in *; try lia; auto.
  apply IH. lia.
Qed.

Lemma nth_upd_other {A : Type} (l : list A) (i j : nat) (v d : A) :
  i <> j -> nth j (upd l i v) d = nth j l d.
Proof.
  revert i j. induction l as [|a l IH]; intros [|i] [|j] H; simpl; auto; try lia.
Qed.

Lemma gset_shaped (rows cols : nat) (G : grid) (i j : nat) (v : num) :
  shaped rows cols G -> shaped rows cols (gset G i j v).
Proof.
  intros [HL HR]. unfold gset. split; [now rewrite upd_length|].
  rewrite Forall_forall in *. intros row Hin.
  apply In_nth with (d := []) in Hin. destruct Hin as (k & Hk & <-).
  rewrite upd_length in Hk.
  destruct (Nat.eq_dec i k) as [->|Hne].
  - rewrite nth_upd_same by assumption. rewrite upd_length.
    apply HR. now apply nth_In.
  - rewrite nth_upd_other by assumption. apply HR. now apply nth_In.
Qed.

Lemma gget_gset_same (rows cols : nat) (G : grid) (i j : nat) (v : num) :
  shaped rows cols G -> i < rows -> j < cols -> gget (gset G i j v) i j = v.
Proof.
  intros [HL HR] Hi Hj. unfold gget, gset.
  rewrite nth_upd_same by lia. apply nth_upd_same.
  rewrite Forall_forall in HR. rewrite (HR (nth i G [])); [assumption|].
  apply nth_In. lia.
Qed.

Lemma gget_gset_other (G : grid) (i j i' j' : nat) (v : num) :
  (i, j) <> (i', j') -> gget (gset G i j v) i' j' = gget G i' j'.
Proof.
  intros H. unfold gget, gset.
  destruct (Nat.eq_dec i i') as [->|Hi].
  - destruct (Nat.lt_ge_cases i' (length G)) as [Hlt|Hge].
    + rewrite nth_upd_same by assumption.
      apply nth_upd_other. congruence.
    + rewrite (nth_overflow (upd G i' _)) by (now rewrite upd_length).
      now rewrite (nth_overflow G) by assumption.
  - now rewrite nth_upd_other by assumption.
Qed.

Lemma full_shaped (rows cols : nat) (v : num) : shaped rows cols (full rows cols v).
Proof.
  unfold full. split; [apply repeat_length|].
  apply Forall_forall. intros row Hin. apply repeat_spec in Hin. subst.
  apply repeat_length.
Qed.

Lemma gget_full (rows cols i j : nat) (v : num) :
  i < rows -> j < cols -> gget (full rows cols v) i j = v.
Proof.
  intros Hi Hj. unfold gget, full. now rewrite !nth_repeat_lt.
Qed.

Lemma NoDup_pair_row (i : nat) (l : list nat) : NoDup l -> NoDup (map (pair i) l).
Proof.
  induction 1 as [|j l Hj Hl IH]; simpl; constructor; auto.
  intros Hin. apply in_map_iff in Hin. destruct Hin as (j' & E & Hin).
  injection E as ->. contradiction.
Qed.

Lemma NoDup_cells (MaxLags : nat * nat) : NoDup (cells MaxLags).
Proof.
  unfold cells. generalize (seq_NoDup (snd MaxLags + 1) 0).
  generalize (seq 0 (snd MaxLags + 1)) as rows.
  induction rows as [|i rows IH]; intros Hnd; simpl; [constructor|].
  apply NoDup_cons_iff in Hnd. destruct Hnd as [Hi Hnd].
  apply NoDup_app; [apply NoDup_pair_row, seq_NoDup | now apply IH |].
  intros [a b] H1 H2. apply in_map_iff in H1. destruct H1 as (j & E & _).
  injection E as <- <-. apply in_flat_map in H2. destruct H2 as (i' & Hi' & H2).
  apply in_map_iff in H2. destruct H2 as (j' & E & _).
  injection E as -> _. contradiction.
Qed.

Lemma in_cells (MaxLags : nat * nat) (na nb : nat) :
  In (na, nb) (cells MaxLags) <-> na <= snd MaxLags /\ nb <= fst MaxLags.
Proof.
  unfold cells. rewrite in_flat_map. split.
  - intros (i & Hi & H). apply in_map_iff in H. destruct H as (j & E & Hj).
    injection E as -> ->. apply in_seq in Hi. apply in_seq in Hj. lia.
  - intros [H1 H2]. exists na. split; [apply in_seq; lia|].
    apply in_map. apply in_seq. lia.
Qed.

Section GridFill.

Variable Lagger : vec * vec -> nat * nat -> vec * matrix * list String.string.
Variable Expander :
  matrix -> list String.string -> Z -> matrix * list String.string.
Variables x y : vec.
Variable ModelOrder : Z.

Local Abbreviation fill_step := (fill_step Lagger Expander x y ModelOrder).

Lemma fill_grid_flat (MaxLags : nat * nat) :
  fill_grid Lagger Expander x y ModelOrder MaxLags
  = forM (cells MaxLags) fill_step
      (full (snd MaxLags + 1) (fst MaxLags + 1) NaN, []).
Proof. unfold fill_grid, cells. now rewrite forM_nested. Qed.

(** What one iteration does. *)
Lemma fill_step_cases (na nb : nat) (G G' : grid) (calls calls' : list (nat * nat)) :
  fill_step (na, nb) (G, calls) = Ok (G', calls') ->
  (dominated G na nb = true /\ G' = gset G na nb 1%num /\ calls' = calls)
  \/ (dominated G na nb = false /\
      exists v, cell_value Lagger Expander x y ModelOrder nb na = Ok v /\
                G' = gset G na nb v /\ calls' = calls ++ [(nb, na)]).
Proof.
  unfold fill_step, fill_cell. cbn [fst snd].
  destruct (dominated G na nb).
  - intros H. injection H as <- <-. now left.
  - destruct (cell_value Lagger Expander x y ModelOrder nb na) as [v|e];
      cbn [bind]; [|discriminate].
    intros H. injection H as <- <-. right. split; [reflexivity|].
    exists v. auto.
Qed.

(** What a run of iterations leaves unchanged. *)
Lemma fill_steps_frame (rows cols : nat) (cs : list (nat * nat)) :
  forall st st', forM cs fill_step st = Ok st' ->
  shaped rows cols (fst st) ->
  shaped rows cols (fst st') /\
  (forall i j, ~ In (i, j) cs -> gget (fst st') i j = gget (fst st) i j) /\
  (forall c, In c (snd st) -> In c (snd st')) /\
  (forall j i, In (j, i) (snd st') -> In (j, i) (snd st) \/ In (i, j) cs).
Proof.
  induction cs as [|[na nb] cs IH]; intros [G calls] st' H Hsh.
  - injection H as <-. split; [exact Hsh|]. repeat split; auto.
  - cbn [forM] in H.
    destruct (fill_step (na, nb) (G, calls)) as [[G1 calls1]|e] eqn:E1;
      cbn [bind] in H; [|discriminate].
    destruct (IH _ _ H) as (Hs & Hg & Hc1 & Hc2).
    { cbn [fst]. destruct (fill_step_cases _ _ _ _ _ _ E1)
        as [(_ & -> & _)|(_ & v & _ & -> & _)]; now apply gset_shaped. }
    cbn [fst snd] in *. split; [exact Hs|]. split; [|split].
    + intros i j Hnin. rewrite Hg by (intros Hin; apply Hnin; now right).
      destruct (fill_step_cases _ _ _ _ _ _ E1)
        as [(_ & -> & _)|(_ & v & _ & -> & _)];
        apply gget_gset_other; intros E; apply Hnin; left; congruence.
    + intros c Hc. apply Hc1.
      destruct (fill_step_cases _ _ _ _ _ _ E1)
        as [(_ & _ & ->)|(_ & v & _ & _ & ->)]; auto.
      apply in_or_app. now left.
    + intros j i Hin. destruct (Hc2 j i Hin) as [H1|H1]; [|right; now right].
      destruct (fill_step_cases _ _ _ _ _ _ E1)
        as [(_ & _ & ->)|(_ & v & _ & _ & ->)]; auto.
      apply in_app_or in H1. destruct H1 as [H1|[H1|[]]]; auto.
      injection H1 as <- <-. right. now left.
Qed.

(** A run of iterations that succeeds as a whole succeeds on every prefix. *)
Lemma forM_prefix (pre post : list (nat * nat)) (st st' : grid * list (nat * nat)) :
  forM (pre ++ post) fill_step st = Ok st' ->
  exists mid, forM pre fill_step st = Ok mid /\ forM post fill_step mid = Ok st'.
Proof.
  rewrite forM_app. destruct (forM pre fill_step st) as [mid|e]; cbn [bind].
  - intros H. now exists mid.
  - discriminate.
Qed.

End GridFill.

Section GridRun.

Variable Lagger : vec * vec -> nat * nat -> vec * matrix * list String.string.
Variable Expander :
  matrix -> list String.string -> Z -> matrix * list String.string.
Variables x y : vec.
Variable ModelOrder : Z.
Variable MaxLags : nat * nat.

Local Abbreviation empty_grid := (empty_grid MaxLags).
Local Abbreviation dictionaries_not_empty :=
  (dictionaries_not_empty Lagger Expander x y ModelOrder MaxLags).
Local Abbreviation checks_pass := (checks_pass x y ModelOrder).

Lemma fill_steps_total (cs : list (nat * nat)) :
  (forall c, In c cs ->
     exists E, cell_ERR Lagger Expander x y ModelOrder (snd c) (fst c) = Ok E) ->
  forall st, exists st',
    forM cs (fill_step Lagger Expander x y ModelOrder) st = Ok st'.
Proof.
  induction cs as [|[na nb] cs IH]; intros H st; cbn [forM].
  - now exists st.
  - destruct (H (na, nb) (or_introl eq_refl)) as [E HE]. cbn [fst snd] in HE.
    assert (exists st1, fill_step Lagger Expander x y ModelOrder (na, nb) st = Ok st1)
      as [st1 H1].
    { unfold fill_step, fill_cell, cell_value. destruct st as [G calls].
      cbn [fst snd]. destruct (dominated G na nb); [eauto|].
      rewrite HE. cbn [bind]. eauto. }
    rewrite H1. cbn [bind]. apply IH. intros c Hc. apply H. now right.
Qed.

Lemma fill_grid_total :
  dictionaries_not_empty ->
  exists st, fill_grid Lagger Expander x y ModelOrder MaxLags = Ok st.
Proof.
  intros H. rewrite fill_grid_flat. apply fill_steps_total.
  intros [na nb] Hc. apply in_cells in Hc. apply H; tauto.
Qed.

Lemma fill_grid_shaped (G : grid) (calls : list (nat * nat)) :
  fill_grid Lagger Expander x y ModelOrder MaxLags = Ok (G, calls) ->
  shaped (snd MaxLags + 1) (fst MaxLags + 1) G.
Proof.
  rewrite fill_grid_flat. intros H.
  destruct (fill_steps_frame Lagger Expander x y ModelOrder
              (snd MaxLags + 1) (fst MaxLags + 1) _ _ _ H) as [Hs _]; auto.
  apply full_shaped.
Qed.

(** The fate of one cell: what the grid held just before its iteration
    decides between the shortcut and the computation, and nothing touches
    the cell afterwards. *)
Lemma fill_grid_cell (G : grid) (calls : list (nat * nat))
  (pre post : list (nat * nat)) (na nb : nat) :
  fill_grid Lagger Expander x y ModelOrder MaxLags = Ok (G, calls) ->
  cells MaxLags = pre ++ (na, nb) :: post ->
  exists Gb callsb,
    forM pre (fill_step Lagger Expander x y ModelOrder) empty_grid
    = Ok (Gb, callsb) /\
    gget Gb na nb = NaN /\
    ((dominated Gb na nb = true /\ gget G na nb = 1%num /\ ~ In (nb, na) calls)
     \/ (dominated Gb na nb = false /\ In (nb, na) calls /\
         exists E, cell_ERR Lagger Expander x y ModelOrder nb na = Ok E /\
                   gget G na nb = pymin 1%num (nsum E))).
Proof.
  intros HF Hc. rewrite fill_grid_flat, Hc in HF.
  pose proof (NoDup_cells MaxLags) as Hnd. rewrite Hc in Hnd.
  assert (Hin : In (na, nb) (cells MaxLags))
    by (rewrite Hc; apply in_or_app; right; now left).
  apply in_cells in Hin. destruct Hin as [Hna Hnb].
  pose proof (NoDup_remove_2 _ _ _ Hnd) as Hnotin.
  assert (Hpre : ~ In (na, nb) pre)
    by (intros Hi; apply Hnotin, in_or_app; now left).
  assert (Hpost : ~ In (na, nb) post)
    by (intros Hi; apply Hnotin, in_or_app; now right).
  destruct (forM_prefix _ _ _ _ _ _ _ _ _ HF) as ([Gb cb] & H1 & H2).
  cbn [forM] in H2.
  destruct (fill_step Lagger Expander x y ModelOrder (na, nb) (Gb, cb))
    as [[G1 c1]|e] eqn:E1; cbn [bind] in H2; [|discriminate].
  destruct (fill_steps_frame Lagger Expander x y ModelOrder
              (snd MaxLags + 1) (fst MaxLags + 1) _ _ _ H1 (full_shaped _ _ _))
    as (Hs1 & Hg1 & _ & Hc1).
  cbn [fst snd] in *.
  assert (Hs2 : shaped (snd MaxLags + 1) (fst MaxLags + 1) G1).
  { destruct (fill_step_cases _ _ _ _ _ _ _ _ _ _ _ E1)
      as [(_ & -> & _)|(_ & v & _ & -> & _)]; now apply gset_shaped. }
  destruct (fill_steps_frame Lagger Expander x y ModelOrder
              (snd MaxLags + 1) (fst MaxLags + 1) _ _ _ H2 Hs2)
    as (_ & Hg2 & Hc2 & Hc3).
  cbn [fst snd] in *.
  exists Gb, cb. split; [exact H1|]. split.
  { rewrite Hg1 by assumption. apply gget_full; lia. }
  rewrite (Hg2 na nb Hpost).
  destruct (fill_step_cases _ _ _ _ _ _ _ _ _ _ _ E1)
    as [(Hd & -> & ->)|(Hd & v & Hv & -> & ->)].
  - left. split; [exact Hd|]. split.
    + apply (gget_gset_same (snd MaxLags + 1) (fst MaxLags + 1)); auto; lia.
    + intros Hi. destruct (Hc3 _ _ Hi) as [Hi1|Hi1]; [|contradiction].
      destruct (Hc1 _ _ Hi1) as [[]|Hi2]. contradiction.
  - right. split; [exact Hd|]. split.
    + apply Hc2. apply in_or_app. right. now left.
    + unfold cell_value in Hv.
      destruct (cell_ERR Lagger Expander x y ModelOrder nb na) as [E|e];
        cbn [bind] in Hv; [|discriminate].
      injection Hv as <-. exists E. split; [reflexivity|].
      apply (gget_gset_same (snd MaxLags + 1) (fst MaxLags + 1)); auto; lia.
Qed.

(** In the first row and in the first column the index clamped at 0 is the
    one of the cell itself, which is still unassigned when its iteration
    starts: these cells are always computed. *)
Lemma boundary_cells_are_computed (G : grid) (calls : list (nat * nat))
  (na nb : nat) :
  fill_grid Lagger Expander x y ModelOrder MaxLags = Ok (G, calls) ->
  na <= snd MaxLags -> nb <= fst MaxLags ->
  na = 0 \/ nb = 0 ->
  In (nb, na) calls /\
  exists E, cell_ERR Lagger Expander x y ModelOrder nb na = Ok E /\
            gget G na nb = pymin 1%num (nsum E).
Proof.
  intros HF Hna Hnb H0.
  assert (Hin : In (na, nb) (cells MaxLags)) by (apply in_cells; auto).
  apply in_split in Hin. destruct Hin as (pre & post & Hc).
  destruct (fill_grid_cell G calls pre post na nb HF Hc)
    as (Gb & cb & _ & Hnan & [(Hd & _)|(_ & H1 & H2)]); [|auto].
  exfalso. unfold dominated in Hd. apply andb_prop in Hd.
  destruct Hd as [Hd1 Hd2].
  destruct H0 as [-> | ->].
  - change (prev 0) with 0 in Hd1. rewrite Hnan in Hd1. discriminate.
  - change (prev 0) with 0 in Hd2. rewrite Hnan in Hd2. discriminate.
Qed.

(** When the checks pass, the run is the grid fill followed by the scans. *)
Lemma MaxLagsEstimator_run (thr : num) (Plot : bool)
  (SaveFig : option String.string) :
  checks_pass Plot SaveFig ->
  dictionaries_not_empty ->
  exists run,
    MaxLagsEstimator Lagger Expander x y ModelOrder MaxLags thr Plot SaveFig
    = Ok run /\
    fill_grid Lagger Expander x y ModelOrder MaxLags
    = Ok (Grid run, Lagger_calls run).
Proof.
  intros (Hlen & HM & HS) HD. unfold MaxLagsEstimator.
  rewrite Hlen, Nat.eqb_refl. cbn [negb].
  replace (ModelOrder <? 1)%Z with false by (symmetry; apply Z.ltb_ge; lia).
  replace (match SaveFig with Some _ => negb Plot | None => false end) with false
    by (destruct HS as [-> | ->]; [reflexivity | now destruct SaveFig]).
  destruct (fill_grid_total HD) as [[G calls] HF]. rewrite HF. cbn [bind].
  eexists. split; [reflexivity|]. reflexivity.
Qed.

End GridRun.

(* ================================================================== *)
(** * MaxLagsEstimator: shape, dominance shortcut, range of the cells *)
(* ================================================================== *)

(** C7, as amended.  The grid [MaxLagsEstimator] returns has
    [MaxLags[1] + 1] rows, indexed by the output lag [na], of
    [MaxLags[0] + 1] entries each, indexed by the input lag [nb]: the cell
    [Grid[na, nb]] is the one of the lag pair [(nb, na)]. *)
Theorem MaxLagsEstimator_grid_shape
  (Lagger : vec * vec -> nat * nat -> vec * matrix * list String.string)
  (Expander : matrix -> list String.string -> Z -> matrix * list String.string)
  (x y : vec) (ModelOrder : Z) (MaxLags : nat * nat) (thr : num)
  (Plot : bool) (SaveFig : option String.string) :
  checks_pass x y ModelOrder Plot SaveFig ->
  dictionaries_not_empty Lagger Expander x y ModelOrder MaxLags ->
  exists run,
    MaxLagsEstimator Lagger Expander x y ModelOrder MaxLags thr Plot SaveFig
    = Ok run /\
    length (Grid run) = snd MaxLags + 1 /\
    Forall (fun row => length row = fst MaxLags + 1) (Grid run) /\
    (forall na nb, na <= snd MaxLags -> nb <= fst MaxLags ->
       gget (Grid run) na nb = 1%num \/
       cell_value Lagger Expander x y ModelOrder nb na
       = Ok (gget (Grid run) na nb)).
Proof.
  intros HC HD.
  destruct (MaxLagsEstimator_run Lagger Expander x y ModelOrder MaxLags
              thr Plot SaveFig HC HD) as (run & HR & HF).
  exists run. split; [exact HR|].
  destruct (fill_grid_shaped _ _ _ _ _ _ _ _ HF) as [HL HRows].
  split; [exact HL|]. split; [exact HRows|].
  intros na nb Hna Hnb.
  assert (Hin : In (na, nb) (cells MaxLags)) by (apply in_cells; auto).
  apply in_split in Hin. destruct Hin as (pre & post & Hc).
  destruct (fill_grid_cell _ _ _ _ _ _ _ _ _ _ _ _ HF Hc)
    as (Gb & cb & _ & _ & [(_ & H1 & _)|(_ & _ & E & HE & HG)]).
  - now left.
  - right. unfold cell_value. rewrite HE. cbn [bind]. now rewrite HG.
Qed.

(** C8. During the grid fill, output lag outer and input lag inner, the
    cell [(na, nb)] is set to 1.0 with no call to the dictionary
    constructors exactly when the grid, as it is at that moment, holds
    exactly 1.0 at [(max( na-1, 0 ), nb)] and at [(na, max( nb-1, 0 ))]; in
    every other case the cell is [min( 1, sum of the ERR vector )] for the
    regressors lagged at [(nb, na)], expanded to [ModelOrder] and centred. *)
Theorem MaxLagsEstimator_dominance_shortcut
  (Lagger : vec * vec -> nat * nat -> vec * matrix * list String.string)
  (Expander : matrix -> list String.string -> Z -> matrix * list String.string)
  (x y : vec) (ModelOrder : Z) (MaxLags : nat * nat) (thr : num)
  (Plot : bool) (SaveFig : option String.string) :
  checks_pass x y ModelOrder Plot SaveFig ->
  dictionaries_not_empty Lagger Expander x y ModelOrder MaxLags ->
  exists run,
    MaxLagsEstimator Lagger Expander x y ModelOrder MaxLags thr Plot SaveFig
    = Ok run /\
    forall pre post na nb,
    cells MaxLags = pre ++ (na, nb) :: post ->
    exists Gb callsb,
      forM pre (fill_step Lagger Expander x y ModelOrder) (empty_grid MaxLags)
      = Ok (Gb, callsb) /\
      let shortcut :=
        neqb (gget Gb (prev na) nb) 1%num && neqb (gget Gb na (prev nb)) 1%num in
      let y_cut := fst (fst (Lagger (x, y) (nb, na))) in
      let RegMat := snd (fst (Lagger (x, y) (nb, na))) in
      let RegNames := snd (Lagger (x, y) (nb, na)) in
      let Expanded := fst (Expander RegMat RegNames ModelOrder) in
      (shortcut = true ->
         gget (Grid run) na nb = 1%num /\ ~ In (nb, na) (Lagger_calls run)) /\
      (shortcut = false ->
         In (nb, na) (Lagger_calls run) /\
         exists ERRArray,
           ComputeERR (center y_cut) (centerCols Expanded) = Ok ERRArray /\
           gget (Grid run) na nb = pymin 1%num (nsum ERRArray)).
Proof.
  intros HC HD.
  destruct (MaxLagsEstimator_run Lagger Expander x y ModelOrder MaxLags
              thr Plot SaveFig HC HD) as (run & HR & HF).
  exists run. split; [exact HR|].
  intros pre post na nb Hc.
  destruct (fill_grid_cell _ _ _ _ _ _ _ _ _ _ _ _ HF Hc)
    as (Gb & cb & Hpre & _ & Hcase).
  exists Gb, cb. split; [exact Hpre|]. cbv zeta.
  fold (dominated Gb na nb).
  destruct Hcase as [(Hd & H1 & H2)|(Hd & H1 & E & HE & HG)]; rewrite Hd.
  - split; [auto | discriminate].
  - split; [discriminate|]. intros _. split; [exact H1|].
    exists E. split; [|exact HG].
    unfold cell_ERR in HE.
    destruct (Lagger (x, y) (nb, na)) as [[y0 R] N]. cbn [fst snd].
    destruct (Expander R N ModelOrder) as [R' N']. exact HE.
Qed.

Lemma nsum_finite_nonneg (E : list num) :
  Forall finite_nonneg E -> finite_nonneg (nsum E).
Proof.
  induction 1 as [|e E (v & -> & Hv) HE (s & Hs & Hs0)].
  - exists 0%Qc. split; [reflexivity | apply Qcle_refl].
  - cbn [nsum fold_right] in *. unfold nsum in Hs. rewrite Hs.
    exists (v + s)%Qc. split; [reflexivity|].
    replace 0%Qc with (0 + 0)%Qc by ring. now apply Qcplus_le_compat.
Qed.

Lemma pymin_unit_interval (s : num) :
  finite_nonneg s ->
  exists v, pymin 1%num s = Fin v /\ (0 <= v <= 1)%Qc.
Proof.
  intros (v & -> & Hv). unfold pymin, nlt, ncmp.
  destruct (v ?= 1)%Qc eqn:Ec.
  - exists 1%Qc. repeat split; [discriminate | apply Qcle_refl].
  - exists v. repeat split; auto. apply Qclt_le_weak. now apply Qclt_alt.
  - exists 1%Qc. repeat split; [discriminate | apply Qcle_refl].
Qed.

(** C10. On return from [MaxLagsEstimator] no cell of the grid is left
    unassigned: each is 1.0, set by the dominance shortcut, or
    [min( 1, sum of the ERR vector )], and none is NaN; so, when
    [ComputeERR] returns finite entries that are not negative, every cell
    lies in [0, 1]. *)
Theorem MaxLagsEstimator_cells_in_unit_interval
  (Lagger : vec * vec -> nat * nat -> vec * matrix * list String.string)
  (Expander : matrix -> list String.string -> Z -> matrix * list String.string)
  (x y : vec) (ModelOrder : Z) (MaxLags : nat * nat) (thr : num)
  (Plot : bool) (SaveFig : option String.string) :
  checks_pass x y ModelOrder Plot SaveFig ->
  dictionaries_not_empty Lagger Expander x y ModelOrder MaxLags ->
  exists run,
    MaxLagsEstimator Lagger Expander x y ModelOrder MaxLags thr Plot SaveFig
    = Ok run /\
    forall na nb, na <= snd MaxLags -> nb <= fst MaxLags ->
      (gget (Grid run) na nb = 1%num \/
       exists E, cell_ERR Lagger Expander x y ModelOrder nb na = Ok E /\
                 gget (Grid run) na nb = pymin 1%num (nsum E)) /\
      gget (Grid run) na nb <> NaN /\
      ((forall E, cell_ERR Lagger Expander x y ModelOrder nb na = Ok E ->
                  Forall finite_nonneg E) ->
       exists v, gget (Grid run) na nb = Fin v /\ (0 <= v <= 1)%Qc).
Proof.
  intros HC HD.
  destruct (MaxLagsEstimator_run Lagger Expander x y ModelOrder MaxLags
              thr Plot SaveFig HC HD) as (run & HR & HF).
  exists run. split; [exact HR|].
  intros na nb Hna Hnb.
  assert (Hin : In (na, nb) (cells MaxLags)) by (apply in_cells; auto).
  apply in_split in Hin. destruct Hin as (pre & post & Hc).
  destruct (fill_grid_cell _ _ _ _ _ _ _ _ _ _ _ _ HF Hc)
    as (Gb & cb & _ & _ & [(_ & H1 & _)|(_ & _ & E & HE & HG)]).
  - split; [now left|]. rewrite H1. split; [discriminate|].
    intros _. exists 1%Qc. repeat split; [discriminate | apply Qcle_refl].
  - split; [right; now exists E|]. rewrite HG. split.
    + unfold pymin. destruct (nlt (nsum E) 1%num) eqn:Hlt; [|discriminate].
      destruct (nsum E); [discriminate | discriminate Hlt].
    + intros Hpre. apply pymin_unit_interval, nsum_finite_nonneg.
      now apply Hpre.
Qed.
(* ================================================================== *)
(** * MaxLagsEstimator: the recommendations and the warning *)
(* ================================================================== *)

Lemma first_true_all_false (l : list bool) :
  Forall (fun b => b = false) l -> first_true l = None.
Proof.
  induction 1 as [|b l Hb Hl IH]; simpl; [reflexivity|]. now rewrite Hb, IH.
Qed.

Lemma scan_Y_default (G : grid) (thr : num) (nas : list nat) (start : nat * nat) :
  (forall na nb, ngt (gget G na nb) thr = false) ->
  scan_Y G thr nas start = start.
Proof.
  intros H. induction nas as [|na nas IH]; simpl; [reflexivity|].
  unfold argmax. rewrite first_true_all_false; [exact IH|].
  apply Forall_map. apply Forall_forall. intros v Hv.
  apply In_nth with (d := NaN) in Hv. destruct Hv as (nb & _ & <-).
  apply (H na nb).
Qed.

Lemma scan_X_default (G : grid) (thr : num) (nbs : list nat) (start : nat * nat) :
  (forall na nb, ngt (gget G na nb) thr = false) ->
  scan_X G thr nbs start = start.
Proof.
  intros H. induction nbs as [|nb nbs IH]; simpl; [reflexivity|].
  unfold argmax. rewrite first_true_all_false; [exact IH|].
  apply Forall_map. apply Forall_forall. intros row Hrow.
  apply In_nth with (d := []) in Hrow. destruct Hrow as (na & _ & <-).
  apply (H na nb).
Qed.

Lemma scan_XY_default (G : grid) (thr : num) (MaxLags start : nat * nat) :
  (forall na nb, ngt (gget G na nb) thr = false) ->
  scan_XY G thr MaxLags start = start.
Proof.
  intros H. unfold scan_XY.
  assert (Inner : forall na l (acc : option nat * (nat * nat)),
    fold_left (fun acc nb =>
      if ngt (gget G na nb) thr then
        if match fst acc with None => true | Some b => na + nb <? b end
        then (Some (na + nb), (nb, na)) else acc
      else acc) l acc = acc).
  { intros na l. induction l as [|nb l IH]; intros acc; simpl; auto.
    now rewrite H. }
  assert (Outer : forall rows (acc : option nat * (nat * nat)),
    fold_left (fun acc na =>
      fold_left (fun acc nb =>
        if ngt (gget G na nb) thr then
          if match fst acc with None => true | Some b => na + nb <? b end
          then (Some (na + nb), (nb, na)) else acc
        else acc) (seq 0 (fst MaxLags + 1)) acc) rows acc = acc).
  { induction rows as [|na rows IH]; intros acc; simpl; auto.
    now rewrite Inner. }
  now rewrite Outer.
Qed.

(** When no cell of the grid exceeds the threshold, the three
    recommendations are the maximum-lag corner. *)
Lemma recommendations_default_to_corner
  (Lagger : vec * vec -> nat * nat -> vec * matrix * list String.string)
  (Expander : matrix -> list String.string -> Z -> matrix * list String.string)
  (x y : vec) (ModelOrder : Z) (MaxLags : nat * nat) (thr : num)
  (Plot : bool) (SaveFig : option String.string) (run : MaxLags_run) :
  MaxLagsEstimator Lagger Expander x y ModelOrder MaxLags thr Plot SaveFig
  = Ok run ->
  (forall na nb, ngt (gget (Grid run) na nb) thr = false) ->
  Recs run = {| Min_XY := (fst MaxLags, snd MaxLags);
                Min_X := (fst MaxLags, snd MaxLags);
                Min_Y := (fst MaxLags, snd MaxLags) |}.
Proof.
  unfold MaxLagsEstimator.
  destruct (negb (length x =? length y)); [discriminate|].
  destruct (ModelOrder <? 1)%Z; [discriminate|].
  destruct (match SaveFig with Some _ => negb Plot | None => false end);
    [discriminate|].
  destruct (fill_grid Lagger Expander x y ModelOrder MaxLags) as [[G calls]|e];
    cbn [bind]; [|discriminate].
  intros HR. injection HR as <-. cbn [Grid Recs fst]. intros H.
  now rewrite scan_XY_default, scan_X_default, scan_Y_default.
Qed.

Lemma nmax_Fin (a b : num) (m : Qc) :
  nmax a b = Fin m ->
  exists p r, a = Fin p /\ b = Fin r /\ (p <= m)%Qc /\ (r <= m)%Qc.
Proof.
  destruct a as [p|], b as [r|]; simpl; try discriminate.
  unfold ncmp. destruct (p ?= r)%Qc eqn:Ec; intros H; injection H as <-;
    exists p, r; repeat split; try apply Qcle_refl.
  - apply Qcnot_lt_le. intros Hlt.
    pose proof (proj1 (Qclt_alt p r) Hlt) as Hc.
    unfold Qccompare in *. congruence.
  - apply Qclt_le_weak. now apply Qclt_alt.
  - apply Qcnot_lt_le. intros Hlt.
    pose proof (proj1 (Qclt_alt p r) Hlt) as Hc.
    unfold Qccompare in *. congruence.
Qed.

Lemma fold_nmax_Fin (l : list num) (a : num) (m : Qc) :
  fold_left nmax l a = Fin m ->
  Forall (fun v => exists r, v = Fin r /\ (r <= m)%Qc) (a :: l).
Proof.
  revert a. induction l as [|b l IH]; intros a H; simpl in H.
  - constructor; [|constructor]. exists m. split; [exact H | apply Qcle_refl].
  - specialize (IH _ H). apply Forall_cons_iff in IH.
    destruct IH as [(p' & Hp' & Hle) Hl].
    destruct (nmax_Fin _ _ _ Hp') as (p & r & -> & -> & Hp & Hr).
    constructor; [|constructor; [|exact Hl]].
    + exists p. split; [reflexivity | now apply Qcle_trans with p'].
    + exists r. split; [reflexivity | now apply Qcle_trans with p'].
Qed.

Lemma gget_in_concat (G : grid) (i j : nat) :
  gget G i j = NaN \/ In (gget G i j) (concat G).
Proof.
  unfold gget. destruct (nth_in_or_default i G []) as [Hi|Hi].
  - destruct (nth_in_or_default j (nth i G []) NaN) as [Hj|Hj]; [|now left].
    right. apply in_concat. exists (nth i G []). split; assumption.
  - rewrite Hi. left. now destruct j.
Qed.

(** On every run whose grid maximum is the threshold itself, no cell
    exceeds the threshold and the recommendations are the corner, but the
    warning is not printed: the scans test [>], the warning tests [<]. *)
Lemma no_warning_when_maximum_is_threshold
  (Lagger : vec * vec -> nat * nat -> vec * matrix * list String.string)
  (Expander : matrix -> list String.string -> Z -> matrix * list String.string)
  (x y : vec) (ModelOrder : Z) (MaxLags : nat * nat) (thr : Qc)
  (Plot : bool) (SaveFig : option String.string) (run : MaxLags_run) :
  MaxLagsEstimator Lagger Expander x y ModelOrder MaxLags (Fin thr) Plot SaveFig
  = Ok run ->
  npmax (concat (Grid run)) = Fin thr ->
  (forall na nb, ngt (gget (Grid run) na nb) (Fin thr) = false) /\
  Recs run = {| Min_XY := (fst MaxLags, snd MaxLags);
                Min_X := (fst MaxLags, snd MaxLags);
                Min_Y := (fst MaxLags, snd MaxLags) |} /\
  warned run = false.
Proof.
  intros HR Hmax.
  assert (Hcells : forall na nb, ngt (gget (Grid run) na nb) (Fin thr) = false).
  { intros na nb. destruct (gget_in_concat (Grid run) na nb) as [->|Hin];
      [reflexivity|].
    unfold npmax in Hmax. destruct (concat (Grid run)) as [|a l]; [discriminate|].
    pose proof (fold_nmax_Fin l a thr Hmax) as HF.
    rewrite Forall_forall in HF. destruct (HF _ Hin) as (r & -> & Hr).
    unfold ngt, ncmp. pose proof (proj1 (Qcle_alt r thr) Hr) as Hc.
    unfold Qccompare in *. destruct (r ?= thr)%Q; congruence. }
  split; [exact Hcells|]. split.
  - exact (recommendations_default_to_corner _ _ _ _ _ _ _ _ _ _ HR Hcells).
  - unfold MaxLagsEstimator in HR.
    destruct (negb (length x =? length y)); [discriminate|].
    destruct (ModelOrder <? 1)%Z; [discriminate|].
    destruct (match SaveFig with Some _ => negb Plot | None => false end);
      [discriminate|].
    destruct (fill_grid Lagger Expander x y ModelOrder MaxLags) as [[G calls]|e];
      cbn [bind] in HR; [|discriminate].
    injection HR as <-. cbn [Grid warned fst] in *. rewrite Hmax.
    unfold nlt, ncmp, Qccompare.
    now rewrite (proj1 (Qeq_alt thr thr) (Qeq_refl thr)).
Qed.

(** C9, the defect.  With [x = y = [1, 3]], no lag and a threshold of 1.0
    the only cell of the grid is exactly 1.0: no cell exceeds the threshold
    and the recommendations are the corner, yet no warning is printed, since
    the test of line 430 is [np.max( Grid ) < VarianceAcceptThreshold]. *)
Theorem MaxLagsEstimator_no_warning_at_threshold :
  exists run,
    MaxLagsEstimator Lagger_model Expander_model
      (ints [1; 3]%Z) (ints [1; 3]%Z) 1 (0, 0) 1%num false None = Ok run /\
    map (map value) (Grid run) = [[Some 1%Q]] /\
    forallb (fun v => negb (ngt v 1%num)) (concat (Grid run)) = true /\
    Recs run = {| Min_XY := (0, 0); Min_X := (0, 0); Min_Y := (0, 0) |} /\
    warned run = false.
Proof. eexists. split; [reflexivity|]. vm_compute. repeat split. Qed.

(* ================================================================== *)
(** * The theorems at concrete inputs *)
(* ================================================================== *)

(** A run on six samples with up to two input lags and one output lag:
    only the cells with two input lags exceed the threshold. *)
Example MaxLagsEstimator_six_samples :
  show_run (MaxLagsEstimator Lagger_model Expander_model
              (ints [1; -2; 3; 0; 5; 1]%Z) (ints [0; 1; -1; 3; 2; 4]%Z)
              1 (2, 1) (Fin (rat 98 100)) false None)
  = Some ({| Min_XY := (2, 0); Min_X := (2, 1); Min_Y := (2, 0) |},
          [[Some (27 # 1540)%Q; Some (119753 # 127428)%Q; Some 1%Q];
           [Some (631 # 4551)%Q; Some (19347 # 20572)%Q; Some 1%Q]],
          false,
          [(0, 0); (1, 0); (2, 0); (0, 1); (1, 1); (2, 1)]).
Proof. vm_compute. reflexivity. Qed.

Lemma Lagger_model_not_empty (x y : vec) (ModelOrder : Z) (MaxLags : nat * nat) :
  dictionaries_not_empty Lagger_model Expander_model x y ModelOrder MaxLags.
Proof.
  intros na nb _ _. unfold cell_ERR, Lagger_model, Expander_model.
  cbn [fst snd]. rewrite Nat.add_1_r. cbn [seq map app centerCols].
  eexists. reflexivity.
Qed.

Lemma ExpansionOrderEstimator_smallest_order_witness :
  exists order MEV E,
    ExpansionOrderEstimator Lagger_model Expander_model
      (ints [1; -2; 3; 0; 5; 1]%Z) (ints [0; 1; -1; 3; 2; 4]%Z)
      (1, 0) 3 (Fin (rat 1 2))
    = Ok (order, MEV) /\
    order = 1%Z /\
    order_ERR Expander_model
      (center (fst (fst (Lagger_model
         (ints [1; -2; 3; 0; 5; 1]%Z, ints [0; 1; -1; 3; 2; 4]%Z) (1, 0)))))
      (snd (fst (Lagger_model
         (ints [1; -2; 3; 0; 5; 1]%Z, ints [0; 1; -1; 3; 2; 4]%Z) (1, 0))))
      (snd (Lagger_model
         (ints [1; -2; 3; 0; 5; 1]%Z, ints [0; 1; -1; 3; 2; 4]%Z) (1, 0)))
      1 = Ok E /\
    nth 1 MEV NaN = pymin 1%num (nsum E) /\
    nge (pymin 1%num (nsum E)) (Fin (rat 1 2)) = true.
Proof.
  destruct (ExpansionOrderEstimator_smallest_order Lagger_model Expander_model
              (ints [1; -2; 3; 0; 5; 1]%Z) (ints [0; 1; -1; 3; 2; 4]%Z)
              (1, 0) 3 (Fin (rat 1 2)))
    as (order & MEV & H1 & H2 & _ & _ & H5 & _ & H7).
  - reflexivity.
  - lia.
  - intros k _. eexists. reflexivity.
  - assert (Ho : order = 1%Z).
    { pose proof H1 as H1'. vm_compute in H1'. now injection H1' as <- _. }
    subst order.
    destruct (H5 1%Z) as (E & HE & HV); [lia|].
    exists 1%Z, MEV, E.
    split; [exact H1|]. split; [reflexivity|]. split; [exact HE|].
    split; [exact HV|]. clear H1.
    destruct H7 as [(E' & HE' & Ht)|H7]; [|discriminate H7].
    rewrite HE in HE'. injection HE' as <-. exact Ht.
Defined.

Lemma MaxLagsEstimator_grid_shape_witness :
  exists run,
    MaxLagsEstimator Lagger_model Expander_model
      (ints [1; -2; 3; 0; 5; 1]%Z) (ints [0; 1; -1; 3; 2; 4]%Z)
      1 (2, 1) (Fin (rat 98 100)) false None = Ok run /\
    length (Grid run) = 2 /\
    Forall (fun row => length row = 3) (Grid run).
Proof.
  destruct (MaxLagsEstimator_grid_shape Lagger_model Expander_model
              (ints [1; -2; 3; 0; 5; 1]%Z) (ints [0; 1; -1; 3; 2; 4]%Z)
              1 (2, 1) (Fin (rat 98 100)) false None)
    as (run & H1 & H2 & H3 & _).
  - repeat split; [lia | now left].
  - apply Lagger_model_not_empty.
  - exists run. repeat split; assumption.
Defined.

(** C7 as stated fails: with [MaxLags = (2, 0)] the first axis of the grid
    has [MaxLags[1] + 1 = 1] entry, not [MaxLags[0] + 1 = 3], and its only
    row has 3 entries. *)
Lemma MaxLagsEstimator_grid_shape_counterexample :
  exists run,
    MaxLagsEstimator Lagger_model Expander_model
      (ints [1; -2; 3; 0; 5; 1]%Z) (ints [0; 1; -1; 3; 2; 4]%Z)
      1 (2, 0) (Fin (rat 98 100)) false None = Ok run /\
    length (Grid run) = 1 /\
    map (@length num) (Grid run) = [3] /\
    length (Grid run) <> fst (2, 0) + 1.
Proof.
  eexists. split; [reflexivity|]. vm_compute. repeat split. discriminate.
Qed.

Lemma MaxLagsEstimator_dominance_shortcut_witness :
  exists run,
    MaxLagsEstimator Lagger_model Expander_model
      (ints [1; 2; 3; 4; 5]%Z) (ints [0; 1; 2; 3; 4]%Z)
      1 (1, 1) (Fin (rat 98 100)) false None = Ok run /\
    gget (Grid run) 1 1 = 1%num /\ ~ In (1, 1) (Lagger_calls run).
Proof.
  destruct (MaxLagsEstimator_dominance_shortcut Lagger_model Expander_model
              (ints [1; 2; 3; 4; 5]%Z) (ints [0; 1; 2; 3; 4]%Z)
              1 (1, 1) (Fin (rat 98 100)) false None)
    as (run & H1 & H2).
  - repeat split; [lia | now left].
  - apply Lagger_model_not_empty.
  - exists run. split; [exact H1|].
    destruct (H2 [(0, 0); (0, 1); (1, 0)] [] 1 1 eq_refl)
      as (Gb & cb & Hpre & Hshort & _).
    apply Hshort. vm_compute in Hpre. injection Hpre as <- _.
    vm_compute. reflexivity.
Defined.

Lemma MaxLagsEstimator_cells_in_unit_interval_witness :
  exists run,
    MaxLagsEstimator Lagger_model Expander_model
      (ints [1; 3]%Z) (ints [1; 3]%Z) 1 (0, 0) 1%num false None = Ok run /\
    exists v, gget (Grid run) 0 0 = Fin v /\ (0 <= v <= 1)%Qc.
Proof.
  destruct (MaxLagsEstimator_cells_in_unit_interval Lagger_model Expander_model
              (ints [1; 3]%Z) (ints [1; 3]%Z) 1 (0, 0) 1%num false None)
    as (run & H1 & H2).
  - repeat split; [lia | now left].
  - apply Lagger_model_not_empty.
  - exists run. split; [exact H1|].
    destruct (H2 0 0) as (_ & _ & H3); [simpl; lia | simpl; lia |].
    apply H3. intros E HE.
    vm_compute in HE. injection HE as <-.
    repeat constructor. eexists. split; [reflexivity|].
    unfold Qcle. simpl. unfold Qle. simpl. lia.
Defined.


(* ================================================================== *)
(** * ComputeERR: sign of the entries *)
(* ================================================================== *)

Lemma Dot_self (v : vec) : Dot v v = Norm2 v.
Proof. induction v as [|a v IH]; simpl; [reflexivity | now rewrite IH]. Qed.

Lemma nonneg_or_nan_add (a b : num) :
  nonneg_or_nan a -> nonneg_or_nan b -> nonneg_or_nan (a + b)%num.
Proof.
  intros [->|(p & -> & Hp)] [->|(r & -> & Hr)]; try (now left).
  right. exists (p + r)%Qc. split; [reflexivity|].
  replace 0%Qc with (0 + 0)%Qc by ring. now apply Qcplus_le_compat.
Qed.

Lemma nonneg_or_nan_square (a : num) : nonneg_or_nan (a * a)%num.
Proof.
  destruct a as [p|]; [|now left]. right. exists (p * p)%Qc.
  split; [reflexivity | apply Qc_square_nonneg].
Qed.

Lemma Qcmult_nonneg (p r : Qc) : (0 <= p)%Qc -> (0 <= r)%Qc -> (0 <= p * r)%Qc.
Proof. intros. qc_to_q. nra. Qed.

Lemma Qcdiv_nonneg (p r : Qc) :
  (0 <= p)%Qc -> (0 <= r)%Qc -> r <> 0%Qc -> (0 <= p / r)%Qc.
Proof.
  intros Hp Hr Hne.
  assert (Hr' : (0 < r)%Qc).
  { destruct (Qcle_lt_or_eq _ _ Hr); [assumption | congruence]. }
  apply Qcmult_lt_0_le_reg_r with r; [exact Hr'|].
  replace (0 * r)%Qc with 0%Qc by ring.
  replace (p / r * r)%Qc with p by (field; assumption). exact Hp.
Qed.

Lemma nonneg_or_nan_mul (a b : num) :
  nonneg_or_nan a -> nonneg_or_nan b -> nonneg_or_nan (a * b)%num.
Proof.
  intros [->|(p & -> & Hp)] [->|(r & -> & Hr)]; try (now left).
  right. exists (p * r)%Qc. split; [reflexivity | now apply Qcmult_nonneg].
Qed.

Lemma nonneg_or_nan_div (a b : num) :
  nonneg_or_nan a -> nonneg_or_nan b -> nonneg_or_nan (a / b)%num.
Proof.
  intros [->|(p & -> & Hp)] [->|(r & -> & Hr)]; try (now left).
  unfold ndiv. destruct (Qc_eq_bool r 0) eqn:E; [now left|].
  apply Qc_eq_bool_false in E. right. exists (p / r)%Qc.
  split; [reflexivity | now apply Qcdiv_nonneg].
Qed.

Lemma Norm2_nonneg_or_nan (v : vec) : nonneg_or_nan (Norm2 v).
Proof.
  induction v as [|a v IH]; simpl.
  - right. exists 0%Qc. split; [reflexivity | apply Qcle_refl].
  - apply nonneg_or_nan_add; [apply nonneg_or_nan_square | exact IH].
Qed.

(** The value both the first iteration and the loop body write. *)
Lemma entry_nonneg_or_nan (a n : num) (y : vec) :
  nonneg_or_nan n -> nonneg_or_nan (nsq a * n / Dot y y)%num.
Proof.
  intros Hn. apply nonneg_or_nan_div.
  - apply nonneg_or_nan_mul; [apply nonneg_or_nan_square | exact Hn].
  - rewrite Dot_self. apply Norm2_nonneg_or_nan.
Qed.

Lemma upd_Forall {A : Type} (P : A -> Prop) (l : list A) (i : nat) (v : A) :
  Forall P l -> P v -> Forall P (upd l i v).
Proof.
  intros Hl Hv. revert i. induction Hl as [|a l Ha Hl IH]; intros [|i]; simpl;
    constructor; auto.
Qed.

Lemma loop_nonneg_or_nan (y : vec) (Ds : matrix) (cols : list nat) :
  forall st, Forall nonneg_or_nan (ERR st) ->
  Forall nonneg_or_nan (loop y Ds cols st).
Proof.
  induction cols as [|col cols IH]; intros st H; simpl; [exact H|].
  destruct (nge (nsum (firstn col (ERR st))) 1%num); [exact H|].
  apply IH. unfold loop_body. cbn [ERR]. apply upd_Forall; [exact H|].
  unfold s2y. apply entry_nonneg_or_nan, Norm2_nonneg_or_nan.
Qed.

Lemma ComputeERR_nonneg_or_nan (y : vec) (Ds : matrix) (E : list num) :
  ComputeERR y Ds = Ok E -> Forall nonneg_or_nan E.
Proof.
  unfold ComputeERR, first_iteration. destruct Ds as [|d0 rest]; [discriminate|].
  cbn [bind]. intros H. injection H as <-. apply loop_nonneg_or_nan.
  cbn [ERR length repeat upd]. constructor.
  - unfold s2y. apply entry_nonneg_or_nan, Norm2_nonneg_or_nan.
  - apply Forall_forall. intros e He. apply repeat_spec in He. subst.
    right. exists 0%Qc. split; [reflexivity | apply Qcle_refl].
Qed.

Lemma nonneg_or_nan_not_negative (e : num) :
  nonneg_or_nan e -> not_negative e.
Proof.
  unfold not_negative. intros [->|(v & -> & Hv)]; [reflexivity|].
  unfold nlt, ncmp. destruct (v ?= 0)%Qc eqn:Ec; try reflexivity.
  exfalso. apply (Qcle_not_lt _ _ Hv). now apply Qclt_alt.
Qed.

(** X1. No entry of a vector [ComputeERR] returns is negative: every entry
    is a square times a sum of squares over a sum of squares, so [e < 0] is
    false for it (it may be NaN). *)
Theorem ComputeERR_entries_not_negative (y : vec) (Ds : matrix)
  (E : list num) :
  shapes y Ds -> ComputeERR y Ds = Ok E -> Forall not_negative E.
Proof.
  intros _ H. apply ComputeERR_nonneg_or_nan in H.
  revert H. apply Forall_impl. exact nonneg_or_nan_not_negative.
Qed.

Lemma ComputeERR_entries_not_negative_witness :
  exists E,
    ComputeERR (ints [1; 0]%Z) [ints [1; 1]%Z; ints [1; 1]%Z] = Ok E /\
    Forall not_negative E /\ In NaN E.
Proof.
  destruct (ComputeERR (ints [1; 0]%Z) [ints [1; 1]%Z; ints [1; 1]%Z])
    as [E|e] eqn:H; [|vm_compute in H; discriminate H].
  exists E. split; [reflexivity|]. split.
  - apply (ComputeERR_entries_not_negative
             (ints [1; 0]%Z) [ints [1; 1]%Z; ints [1; 1]%Z] E); [|exact H].
    repeat constructor.
  - vm_compute in H. injection H as <-. right. now left.
Defined.

Lemma nsum_NaN (l : list num) : In NaN l -> nsum l = NaN.
Proof.
  induction l as [|a l IH]; intros H; [contradiction|].
  cbn [nsum fold_right]. destruct H as [->|H]; [reflexivity|].
  unfold nsum in IH. rewrite (IH H). apply nadd_NaN_r.
Qed.

(* ================================================================== *)
(** * ComputeERR: columns appended at the end change nothing before them *)
(* ================================================================== *)

Lemma GramSchmidt_firstn (k : nat) (cols B : list vec) :
  GramSchmidt B (firstn k cols) = firstn k (GramSchmidt B cols).
Proof.
  revert k B. induction cols as [|d cols IH]; intros [|k] B; try reflexivity.
  cbn [firstn GramSchmidt]. now rewrite IH.
Qed.

Lemma firstn_zeros (k p : nat) : firstn k (zeros p) = zeros (Nat.min k p).
Proof.
  revert p. induction k as [|k IH]; intros [|p]; try reflexivity.
  cbn [zeros repeat firstn Nat.min]. fold (zeros p). now rewrite IH.
Qed.

Lemma saturate_from_firstn (k : nat) (F done : list num) :
  saturate_from done (firstn k F)
  = firstn (length done + k) (saturate_from done F).
Proof.
  revert k done. induction F as [|f F IH]; intros k done.
  - rewrite firstn_nil. cbn [saturate_from].
    rewrite firstn_all2 by lia. reflexivity.
  - destruct k as [|k].
    + cbn [firstn saturate_from]. rewrite Nat.add_0_r.
      symmetry. apply (saturate_from_prefix (f :: F) done).
    + cbn [firstn saturate_from].
      destruct (nge (nsum done) 1%num).
      * rewrite firstn_app_2, firstn_zeros. cbn [length].
        f_equal. f_equal. rewrite length_firstn. reflexivity.
      * rewrite IH, length_app. cbn [length]. f_equal. lia.
Qed.

(** X4. The entries of the first [k] columns do not depend on the columns
    after them: [ComputeERR] on the first [k] columns returns the first [k]
    entries of [ComputeERR] on the whole matrix. *)
Theorem ComputeERR_prefix (y : vec) (Ds : matrix) (k : nat) :
  shapes y Ds -> 1 <= k <= length Ds ->
  exists E,
    ComputeERR y Ds = Ok E /\
    ComputeERR y (firstn k Ds) = Ok (firstn k E).
Proof.
  intros Hs Hk. exists (spec_ComputeERR y Ds).
  assert (Hne : Ds <> []) by (destruct Ds; [cbn in Hk; lia | discriminate]).
  split; [now apply ComputeERR_refines|].
  rewrite ComputeERR_refines.
  - f_equal. unfold spec_ComputeERR.
    rewrite GramSchmidt_firstn, <- firstn_map.
    pose proof (GramSchmidt_length Ds []) as HL.
    destruct (map (ERR_formula y) (GramSchmidt [] Ds)) as [|f F] eqn:EF.
    + apply (f_equal (@length num)) in EF. rewrite length_map, HL in EF.
      cbn in EF. lia.
    + destruct k as [|k]; [lia|]. cbn [firstn saturate].
      now rewrite saturate_from_firstn.
  - unfold shapes in *. rewrite Forall_forall in *. intros c Hc.
    apply Hs. rewrite <- (firstn_skipn k Ds). apply in_or_app. now left.
  - destruct Ds; [contradiction|]. destruct k; [lia | discriminate].
Qed.

Lemma ComputeERR_prefix_witness :
  exists E,
    ComputeERR (ints [1; 0; 2]%Z)
      [ints [1; 1; 0]%Z; ints [1; -1; 1]%Z; ints [0; 1; 1]%Z] = Ok E /\
    ComputeERR (ints [1; 0; 2]%Z) [ints [1; 1; 0]%Z; ints [1; -1; 1]%Z]
    = Ok (firstn 2 E).
Proof.
  apply (ComputeERR_prefix (ints [1; 0; 2]%Z)
           [ints [1; 1; 0]%Z; ints [1; -1; 1]%Z; ints [0; 1; 1]%Z] 2).
  - repeat constructor.
  - simpl. lia.
Defined.

(* ================================================================== *)
(** * The estimators: explained variances are always in [0, 1] *)
(* ================================================================== *)

Lemma nsum_nonneg_or_nan (E : list num) :
  Forall nonneg_or_nan E -> nonneg_or_nan (nsum E).
Proof.
  induction 1 as [|e E He HE IH].
  - right. exists 0%Qc. split; [reflexivity | apply Qcle_refl].
  - cbn [nsum fold_right]. now apply nonneg_or_nan_add.
Qed.

Lemma pymin_nonneg_or_nan (s : num) :
  nonneg_or_nan s -> in_unit_interval (pymin 1%num s).
Proof.
  intros [->|H].
  - exists 1%Qc. repeat split; [discriminate | apply Qcle_refl].
  - exact (pymin_unit_interval s H).
Qed.

(** [min( 1.0, np.sum( ERRArray ) )] is always a number between 0 and 1. *)
Lemma clipped_sum_in_unit_interval (y : vec) (Ds : matrix) (E : list num) :
  ComputeERR y Ds = Ok E -> in_unit_interval (pymin 1%num (nsum E)).
Proof.
  intros H. apply pymin_nonneg_or_nan, nsum_nonneg_or_nan.
  exact (ComputeERR_nonneg_or_nan y Ds E H).
Qed.

(** C3, as amended.  The sum of the entries of a vector [ComputeERR]
    returns is never negative (it may be NaN), and clipped as its callers
    clip it, [min( 1.0, np.sum( ERRArray ) )], it lies in the interval
    [0, 1]. *)
Theorem ComputeERR_sum_in_unit_interval (y : vec) (Ds : matrix)
  (E : list num) :
  shapes y Ds -> ComputeERR y Ds = Ok E ->
  not_negative (nsum E) /\ in_unit_interval (pymin 1%num (nsum E)).
Proof.
  intros _ H. split.
  - apply nonneg_or_nan_not_negative, nsum_nonneg_or_nan.
    exact (ComputeERR_nonneg_or_nan y Ds E H).
  - exact (clipped_sum_in_unit_interval y Ds E H).
Qed.

Lemma ComputeERR_sum_in_unit_interval_witness :
  exists E,
    ComputeERR (ints [1; 0]%Z) [ints [1; 1]%Z; ints [1; 1]%Z] = Ok E /\
    nsum E = NaN /\
    not_negative (nsum E) /\ in_unit_interval (pymin 1%num (nsum E)).
Proof.
  destruct (ComputeERR (ints [1; 0]%Z) [ints [1; 1]%Z; ints [1; 1]%Z])
    as [E|e] eqn:H; [|vm_compute in H; discriminate H].
  exists E. split; [reflexivity|]. split.
  - vm_compute in H. injection H as <-. reflexivity.
  - apply (ComputeERR_sum_in_unit_interval
             (ints [1; 0]%Z) [ints [1; 1]%Z; ints [1; 1]%Z] E); [|exact H].
    repeat constructor.
Defined.

(** In binary64 the sum can also exceed 1 by rounding, which the clip
    removes: on [y = [1]] and the single column [[5]] the first iteration
    gives a number above 1. *)
Example first_entry_above_one :
  PrimFloat.ltb PrimFloat.one (first_entry64 single_1 single_5) = true.
Proof. vm_compute. reflexivity. Qed.

Lemma MaxLagsEstimator_inv
  (Lagger : vec * vec -> nat * nat -> vec * matrix * list String.string)
  (Expander : matrix -> list String.string -> Z -> matrix * list String.string)
  (x y : vec) (ModelOrder : Z) (MaxLags : nat * nat) (thr : num)
  (Plot : bool) (SaveFig : option String.string) (run : MaxLags_run) :
  MaxLagsEstimator Lagger Expander x y ModelOrder MaxLags thr Plot SaveFig
  = Ok run ->
  checks_pass x y ModelOrder Plot SaveFig /\
  fill_grid Lagger Expander x y ModelOrder MaxLags
  = Ok (Grid run, Lagger_calls run) /\
  Recs run =
    {| Min_XY := scan_XY (Grid run) thr MaxLags (fst MaxLags, snd MaxLags);
       Min_X := scan_X (Grid run) thr (seq 0 (fst MaxLags + 1))
                  (fst MaxLags, snd MaxLags);
       Min_Y := scan_Y (Grid run) thr (seq 0 (snd MaxLags + 1))
                  (fst MaxLags, snd MaxLags) |} /\
  warned run = nlt (npmax (concat (Grid run))) thr.
Proof.
  unfold MaxLagsEstimator, checks_pass.
  destruct (length x =? length y) eqn:El; cbn [negb]; [|discriminate].
  destruct (ModelOrder <? 1)%Z eqn:Em; [discriminate|].
  destruct (match SaveFig with Some _ => negb Plot | None => false end) eqn:Es;
    [discriminate|].
  destruct (fill_grid Lagger Expander x y ModelOrder MaxLags) as [[G calls]|e];
    cbn [bind]; [|discriminate].
  intros H. injection H as <-. cbn [Grid Lagger_calls Recs warned fst snd].
  repeat split.
  - now apply Nat.eqb_eq.
  - apply Z.ltb_ge in Em. lia.
  - destruct SaveFig; [right; now destruct Plot | now left].
Qed.

(** X5. Every cell of the grid [MaxLagsEstimator] returns is a number
    between 0 and 1, whatever the data, and a cell whose ERR vector holds a
    NaN is exactly 1.0: a degenerate dictionary shows as fully explained. *)
Theorem MaxLagsEstimator_grid_always_in_unit_interval
  (Lagger : vec * vec -> nat * nat -> vec * matrix * list String.string)
  (Expander : matrix -> list String.string -> Z -> matrix * list String.string)
  (x y : vec) (ModelOrder : Z) (MaxLags : nat * nat) (thr : num)
  (Plot : bool) (SaveFig : option String.string) (run : MaxLags_run) :
  MaxLagsEstimator Lagger Expander x y ModelOrder MaxLags thr Plot SaveFig
  = Ok run ->
  forall na nb, na <= snd MaxLags -> nb <= fst MaxLags ->
    in_unit_interval (gget (Grid run) na nb) /\
    (forall E, cell_ERR Lagger Expander x y ModelOrder nb na = Ok E ->
               In NaN E -> gget (Grid run) na nb = 1%num).
Proof.
  intros HR na nb Hna Hnb.
  destruct (MaxLagsEstimator_inv _ _ _ _ _ _ _ _ _ _ HR) as (_ & HF & _).
  assert (Hin : In (na, nb) (cells MaxLags)) by (apply in_cells; auto).
  apply in_split in Hin. destruct Hin as (pre & post & Hc).
  destruct (fill_grid_cell _ _ _ _ _ _ _ _ _ _ _ _ HF Hc)
    as (Gb & cb & _ & _ & [(_ & H1 & _)|(_ & _ & E & HE & HG)]).
  - rewrite H1. split; [|reflexivity].
    exists 1%Qc. repeat split; [discriminate | apply Qcle_refl].
  - rewrite HG. split.
    + unfold cell_ERR in HE.
      destruct (Lagger (x, y) (nb, na)) as [[y0 R] N].
      destruct (Expander R N ModelOrder) as [R' N'].
      exact (clipped_sum_in_unit_interval _ _ _ HE).
    + intros E' HE' Hnan. rewrite HE in HE'. injection HE' as <-.
      now rewrite (nsum_NaN E Hnan).
Qed.

Lemma MaxLagsEstimator_grid_always_in_unit_interval_witness :
  exists run,
    MaxLagsEstimator Lagger_model Expander_model
      (ints [1; 1; 1]%Z) (ints [2; 2; 2]%Z) 1 (1, 0) (Fin (rat 98 100))
      false None = Ok run /\
    in_unit_interval (gget (Grid run) 0 1) /\
    gget (Grid run) 0 1 = 1%num.
Proof.
  eexists. split; [reflexivity|].
  destruct (MaxLagsEstimator_grid_always_in_unit_interval
              Lagger_model Expander_model
              (ints [1; 1; 1]%Z) (ints [2; 2; 2]%Z) 1 (1, 0)
              (Fin (rat 98 100)) false None _ eq_refl 0 1) as [H1 H2].
  - simpl. lia.
  - simpl. lia.
  - split; [exact H1|]. eapply H2; [reflexivity|].
    vm_compute. now left.
Defined.

(* ================================================================== *)
(** * ExpansionOrderEstimator: what is returned *)
(* ================================================================== *)

Lemma order_loop_returns
  (Expander : matrix -> list String.string -> Z -> matrix * list String.string)
  (y_cut : vec) (RegMat : matrix) (RegNames : list String.string) (thr : num)
  (n : nat) :
  forall (a : Z) (prev : option Z) (MEV : list num) (o : option Z)
         (MEV' : list num),
  order_loop Expander y_cut RegMat RegNames thr
    (range a (a + Z.of_nat n)) prev MEV = Ok (o, MEV') ->
  (n = 0 /\ o = prev /\ MEV' = MEV) \/
  exists k tail, o = Some k /\ (a <= k < a + Z.of_nat n)%Z /\
                 MEV' = MEV ++ tail /\
                 length tail = Z.to_nat (k - a + 1) /\
                 Forall in_unit_interval tail.
Proof.
  induction n as [|n IH]; intros a prev MEV o MEV' H.
  - rewrite range_nil in H by lia. cbn [order_loop] in H.
    injection H as <- <-. now left.
  - rewrite range_cons in H by lia. cbn [order_loop] in H.
    destruct (ModelErr Expander y_cut RegMat RegNames a) as [e|ex] eqn:Ee;
      cbn [bind] in H; [|discriminate].
    assert (He : in_unit_interval e).
    { unfold ModelErr in Ee.
      destruct (ComputeERR y_cut _) as [E|ex] eqn:EC; cbn [bind] in Ee;
        [|discriminate].
      injection Ee as <-. exact (clipped_sum_in_unit_interval _ _ _ EC). }
    rewrite last_last in H. right.
    destruct (nge e thr).
    + injection H as <- <-. exists a, [e].
      split; [reflexivity|]. split; [lia|]. split; [reflexivity|].
      split; [cbn [length]; lia | now constructor].
    + replace (a + Z.of_nat (S n))%Z with (a + 1 + Z.of_nat n)%Z in H by lia.
      destruct (IH _ _ _ _ _ H)
        as [(-> & -> & ->)|(k & tail & -> & Hk & -> & HL & HF)].
      * exists a, [e].
        split; [reflexivity|]. split; [lia|]. split; [reflexivity|].
        split; [cbn [length]; lia | now constructor].
      * exists k, (e :: tail). split; [reflexivity|]. split; [lia|].
        split; [now rewrite <- app_assoc|].
        split; [cbn [length]; rewrite HL; lia | now constructor].
Qed.

(** X6. Whenever [ExpansionOrderEstimator] returns, the order lies in
    [1 .. MaxOrder], the variance sequence has one entry more than the
    order, it starts with the 0 of the constant model, and every entry is a
    number between 0 and 1, a NaN sum being clipped to 1.0. *)
Theorem ExpansionOrderEstimator_output_shape
  (Lagger : vec * vec -> nat * nat -> vec * matrix * list String.string)
  (Expander : matrix -> list String.string -> Z -> matrix * list String.string)
  (x y : vec) (MaxLags : nat * nat) (MaxOrder : Z) (thr : num)
  (order : Z) (MEV : list num) :
  ExpansionOrderEstimator Lagger Expander x y MaxLags MaxOrder thr
  = Ok (order, MEV) ->
  (1 <= order <= MaxOrder)%Z /\
  length MEV = Z.to_nat order + 1 /\
  nth 0 MEV NaN = 0%num /\
  Forall in_unit_interval MEV.
Proof.
  unfold ExpansionOrderEstimator.
  destruct (negb (length x =? length y)); [discriminate|].
  destruct (MaxOrder <? 1)%Z eqn:Em; [discriminate|].
  apply Z.ltb_ge in Em.
  destruct (Lagger (x, y) MaxLags) as [[y0 R] N].
  destruct (order_loop Expander (center y0) R N thr (range 1 (MaxOrder + 1))
              None [0%num]) as [[o M]|e] eqn:EL; cbn [bind fst snd];
    [|discriminate].
  replace (MaxOrder + 1)%Z with (1 + Z.of_nat (Z.to_nat MaxOrder))%Z in EL by lia.
  destruct (order_loop_returns _ _ _ _ _ _ _ _ _ _ _ EL)
    as [(H0 & -> & ->)|(k & tail & -> & Hk & -> & HL & HF)]; [discriminate|].
  intros H. injection H as <- <-. split; [lia|].
  split; [cbn [length app]; rewrite HL; lia|].
  split; [reflexivity|].
  cbn [app]. constructor; [|exact HF].
  exists 0%Qc. repeat split; [apply Qcle_refl | discriminate].
Qed.

Lemma ExpansionOrderEstimator_output_shape_witness :
  exists order MEV,
    ExpansionOrderEstimator Lagger_model Expander_model
      (ints [1; -2; 3; 0; 5; 1]%Z) (ints [0; 1; -1; 3; 2; 4]%Z) (1, 0) 3
      (Fin (rat 98 100)) = Ok (order, MEV) /\
    (1 <= order <= 3)%Z /\ length MEV = Z.to_nat order + 1 /\
    nth 0 MEV NaN = 0%num /\ Forall in_unit_interval MEV.
Proof.
  destruct (ExpansionOrderEstimator Lagger_model Expander_model
      (ints [1; -2; 3; 0; 5; 1]%Z) (ints [0; 1; -1; 3; 2; 4]%Z) (1, 0) 3
      (Fin (rat 98 100))) as [[order MEV]|e] eqn:E.
  - exists order, MEV. split; [reflexivity|].
    exact (ExpansionOrderEstimator_output_shape Lagger_model Expander_model
             _ _ _ _ _ _ _ E).
  - vm_compute in E. discriminate.
Defined.

(* ================================================================== *)
(** * MaxLagsEstimator: the three recommendations *)
(* ================================================================== *)

Lemma fold_left_row {A : Type} (i : nat) (l : list nat)
  (f : nat -> nat -> A -> A) (a : A) :
  fold_left (fun acc c => f (fst c) (snd c) acc) (map (pair i) l) a
  = fold_left (fun acc j => f i j acc) l a.
Proof. revert a. induction l as [|j l IH]; intros a; simpl; auto. Qed.

Lemma fold_left_nested {A : Type} (l1 l2 : list nat)
  (f : nat -> nat -> A -> A) (a : A) :
  fold_left (fun acc i => fold_left (fun acc j => f i j acc) l2 acc) l1 a
  = fold_left (fun acc c => f (fst c) (snd c) acc)
      (flat_map (fun i => map (pair i) l2) l1) a.
Proof.
  revert a. induction l1 as [|i l1 IH]; intros a; simpl; auto.
  now rewrite fold_left_app, fold_left_row, IH.
Qed.

Lemma scan_XY_flat (G : grid) (thr : num) (MaxLags start : nat * nat) :
  scan_XY G thr MaxLags start
  = snd (fold_left (fun acc c => scan_step G thr (fst c) (snd c) acc)
           (cells MaxLags) (None, start)).
Proof.
  unfold scan_XY, cells. f_equal.
  exact (fold_left_nested _ _ (scan_step G thr) (None, start)).
Qed.

Lemma StronglySorted_app {A : Type} (R : A -> A -> Prop) (l1 l2 : list A) :
  StronglySorted R l1 -> StronglySorted R l2 ->
  (forall a b, In a l1 -> In b l2 -> R a b) ->
  StronglySorted R (l1 ++ l2).
Proof.
  induction 1 as [|a l1 H1 IH Ha]; intros H2 H; simpl; [exact H2|].
  constructor.
  - apply IH; [exact H2|]. intros c d Hc Hd. apply H; [now right | exact Hd].
  - apply Forall_app. split; [exact Ha|].
    apply Forall_forall. intros b Hb. apply H; [now left | exact Hb].
Qed.

Lemma StronglySorted_snoc_inv {A : Type} (R : A -> A -> Prop) (l : list A)
  (d : A) :
  StronglySorted R (l ++ [d]) -> StronglySorted R l /\ Forall (fun c => R c d) l.
Proof.
  induction l as [|a l IH]; simpl; intros H.
  - split; constructor.
  - apply StronglySorted_inv in H. destruct H as [H1 H2].
    destruct (IH H1) as [H3 H4]. apply Forall_app in H2. destruct H2 as [H5 H6].
    split; constructor; auto. now inversion H6.
Qed.

Lemma StronglySorted_split {A : Type} (R : A -> A -> Prop) (l1 l2 : list A)
  (c : A) :
  StronglySorted R (l1 ++ c :: l2) ->
  Forall (fun a => R a c) l1 /\ Forall (R c) l2.
Proof.
  induction l1 as [|a l1 IH]; simpl; intros H;
    apply StronglySorted_inv in H; destruct H as [H1 H2].
  - split; [constructor | exact H2].
  - destruct (IH H1) as [H3 H4]. split; [|exact H4].
    constructor; [|exact H3].
    rewrite Forall_forall in H2. apply H2, in_or_app. right. now left.
Qed.

Lemma seq_sorted (n a : nat) : StronglySorted lt (seq a n).
Proof.
  revert a. induction n as [|n IH]; intros a; simpl; constructor; [apply IH|].
  apply Forall_forall. intros b Hb. apply in_seq in Hb. lia.
Qed.

(** The two nested loops visit the cells row by row, each row from left to
    right. *)
Lemma cells_sorted (MaxLags : nat * nat) :
  StronglySorted visited_before (cells MaxLags).
Proof.
  unfold cells. generalize (seq_sorted (snd MaxLags + 1) 0).
  generalize (seq 0 (snd MaxLags + 1)) as rows.
  induction rows as [|i rows IH]; intros Hs; simpl; [constructor|].
  apply StronglySorted_inv in Hs. destruct Hs as [Hs Hi].
  apply StronglySorted_app.
  - generalize (seq_sorted (fst MaxLags + 1) 0).
    generalize (seq 0 (fst MaxLags + 1)) as cols.
    induction cols as [|j cols IHc]; intros Hc; simpl; constructor.
    + apply IHc. now apply StronglySorted_inv in Hc.
    + apply StronglySorted_inv in Hc. destruct Hc as [_ Hj].
      apply Forall_map. revert Hj. apply Forall_impl. intros b Hb.
      right. simpl. auto.
  - now apply IH.
  - intros [a b] [c d] H1 H2. apply in_map_iff in H1.
    destruct H1 as (j & E & _). injection E as <- <-.
    apply in_flat_map in H2. destruct H2 as (i' & Hi' & H2).
    apply in_map_iff in H2. destruct H2 as (j' & E & _). injection E as <- <-.
    left. simpl. rewrite Forall_forall in Hi. now apply Hi.
Qed.

(** The scan of lines 412 to 419 over cells visited in order: the
    accumulator is untouched when no cell exceeds the threshold, and else
    holds the first visited cell among those of smallest [na + nb]. *)
Lemma scan_fold_spec (G : grid) (thr : num) (start : nat * nat)
  (cs : list (nat * nat)) :
  StronglySorted visited_before cs ->
  let acc := fold_left (fun acc c => scan_step G thr (fst c) (snd c) acc)
               cs (None, start) in
  (acc = (None, start) /\
   forall c, In c cs -> ~ exceeds G thr (fst c) (snd c))
  \/
  (exists c, In c cs /\ acc = (Some (fst c + snd c), (snd c, fst c)) /\
     exceeds G thr (fst c) (snd c) /\
     forall c', In c' cs -> exceeds G thr (fst c') (snd c') ->
       fst c + snd c < fst c' + snd c' \/
       (fst c + snd c = fst c' + snd c' /\ fst c <= fst c')).
Proof.
  cbv zeta. induction cs as [|d p IH] using rev_ind; intros Hs.
  - left. split; [reflexivity|]. intros c [].
  - apply StronglySorted_snoc_inv in Hs. destruct Hs as [Hs Hd].
    rewrite fold_left_app. cbn [fold_left]. specialize (IH Hs).
    remember (fold_left (fun acc c => scan_step G thr (fst c) (snd c) acc)
                p (None, start)) as acc0 eqn:Eacc. clear Eacc.
    unfold scan_step.
    destruct (ngt (gget G (fst d) (snd d)) thr) eqn:Ed.
    + right. destruct IH as [(-> & Hnone)|(c & Hc & -> & Hex & Hmin)];
        cbn [fst].
      * exists d. split; [apply in_or_app; right; now left|].
        split; [reflexivity|]. split; [exact Ed|].
        intros c' Hc' Hex'. apply in_app_or in Hc'.
        destruct Hc' as [Hc'|[<-|[]]]; [now apply Hnone in Hc'|].
        right. split; [reflexivity | apply Nat.le_refl].
      * destruct (fst d + snd d <? fst c + snd c) eqn:El.
        -- apply Nat.ltb_lt in El.
           exists d. split; [apply in_or_app; right; now left|].
           split; [reflexivity|]. split; [exact Ed|].
           intros c' Hc' Hex'. apply in_app_or in Hc'.
           destruct Hc' as [Hc'|[<-|[]]].
           ++ left. destruct (Hmin c' Hc' Hex'); lia.
           ++ right. split; [reflexivity | apply Nat.le_refl].
        -- apply Nat.ltb_ge in El.
           exists c. split; [apply in_or_app; now left|].
           split; [reflexivity|]. split; [exact Hex|].
           intros c' Hc' Hex'. apply in_app_or in Hc'.
           destruct Hc' as [Hc'|[<-|[]]]; [now apply Hmin|].
           rewrite Forall_forall in Hd. specialize (Hd c Hc).
           unfold visited_before in Hd. lia.
    + destruct IH as [(-> & Hnone)|(c & Hc & -> & Hex & Hmin)].
      * left. split; [reflexivity|]. intros c' Hc'. apply in_app_or in Hc'.
        destruct Hc' as [Hc'|[<-|[]]]; [now apply Hnone|].
        unfold exceeds. now rewrite Ed.
      * right. exists c. split; [apply in_or_app; now left|].
        split; [reflexivity|]. split; [exact Hex|].
        intros c' Hc' Hex'. apply in_app_or in Hc'.
        destruct Hc' as [Hc'|[<-|[]]]; [now apply Hmin|].
        unfold exceeds in Hex'. congruence.
Qed.

(** X7. [Min_XY] is fully determined by the grid: when no cell exceeds the
    threshold it is the corner [(MaxLags[0], MaxLags[1])]; else it is a cell
    that exceeds the threshold with the smallest [na + nb] and, among those,
    the smallest [na] (the strict [<] of line 417 keeps the first one
    visited, so ties go to fewer output lags). *)
Theorem MaxLagsEstimator_Min_XY
  (Lagger : vec * vec -> nat * nat -> vec * matrix * list String.string)
  (Expander : matrix -> list String.string -> Z -> matrix * list String.string)
  (x y : vec) (ModelOrder : Z) (MaxLags : nat * nat) (thr : num)
  (Plot : bool) (SaveFig : option String.string) (run : MaxLags_run) :
  MaxLagsEstimator Lagger Expander x y ModelOrder MaxLags thr Plot SaveFig
  = Ok run ->
  (Min_XY (Recs run) = (fst MaxLags, snd MaxLags) /\
   forall na nb, na <= snd MaxLags -> nb <= fst MaxLags ->
     ~ exceeds (Grid run) thr na nb)
  \/
  (fst (Min_XY (Recs run)) <= fst MaxLags /\
   snd (Min_XY (Recs run)) <= snd MaxLags /\
   exceeds (Grid run) thr (snd (Min_XY (Recs run))) (fst (Min_XY (Recs run))) /\
   forall na nb, na <= snd MaxLags -> nb <= fst MaxLags ->
     exceeds (Grid run) thr na nb ->
     fst (Min_XY (Recs run)) + snd (Min_XY (Recs run)) < na + nb \/
     (fst (Min_XY (Recs run)) + snd (Min_XY (Recs run)) = na + nb /\
      snd (Min_XY (Recs run)) <= na)).
Proof.
  intros HR.
  destruct (MaxLagsEstimator_inv _ _ _ _ _ _ _ _ _ _ HR) as (_ & _ & -> & _).
  cbn [Min_XY]. rewrite scan_XY_flat.
  destruct (scan_fold_spec (Grid run) thr (fst MaxLags, snd MaxLags)
              (cells MaxLags) (cells_sorted MaxLags))
    as [(-> & Hnone)|([a b] & Hc & -> & Hex & Hmin)]; cbn [fst snd] in *.
  - left. split; [reflexivity|]. intros na nb Hna Hnb.
    apply (Hnone (na, nb)). apply in_cells. auto.
  - right. apply in_cells in Hc. destruct Hc as [Ha Hb].
    split; [exact Hb|]. split; [exact Ha|]. split; [exact Hex|].
    intros na nb Hna Hnb Hex'.
    destruct (Hmin (na, nb)) as [H|H]; cbn [fst snd] in *; auto; try lia.
    apply in_cells. auto.
Qed.

Lemma MaxLagsEstimator_Min_XY_witness :
  exists run,
    MaxLagsEstimator Lagger_model Expander_model
      (ints [1; -2; 3; 0; 5; 1]%Z) (ints [0; 1; -1; 3; 2; 4]%Z) 1 (2, 2)
      (Fin (rat 1 2)) false None = Ok run /\
    Min_XY (Recs run) = (1, 0) /\
    exceeds (Grid run) (Fin (rat 1 2)) 0 1 /\
    ~ exceeds (Grid run) (Fin (rat 1 2)) 0 0.
Proof.
  destruct (MaxLagsEstimator Lagger_model Expander_model
      (ints [1; -2; 3; 0; 5; 1]%Z) (ints [0; 1; -1; 3; 2; 4]%Z) 1 (2, 2)
      (Fin (rat 1 2)) false None) as [run|e] eqn:E; [|vm_compute in E; discriminate].
  exists run. split; [reflexivity|].
  assert (HXY : Min_XY (Recs run) = (1, 0)).
  { vm_compute in E. injection E as <-. reflexivity. }
  split; [exact HXY|].
  destruct (MaxLagsEstimator_Min_XY Lagger_model Expander_model
              _ _ _ _ _ _ _ run E) as [[H _]|(_ & _ & H & Hmin)].
  - rewrite HXY in H. discriminate.
  - rewrite HXY in H, Hmin. cbn [fst snd] in H, Hmin. split; [exact H|].
    intros H0. destruct (Hmin 0 0) as [Hlt|[Heq _]]; simpl; try lia.
    exact H0.
Defined.

Lemma first_true_spec (l : list bool) :
  match first_true l with
  | Some i => i < length l /\ nth i l false = true /\
              forall j, j < i -> nth j l false = false
  | None => forall j, nth j l false = false
  end.
Proof.
  induction l as [|b l IH]; cbn [first_true].
  - intros [|j]; reflexivity.
  - destruct b.
    + cbn [length nth]. split; [lia|]. split; [reflexivity|]. intros j Hj. lia.
    + destruct (first_true l) as [i|]; cbn [option_map].
      * destruct IH as (H1 & H2 & H3). cbn [length nth].
        split; [lia|]. split; [exact H2|].
        intros [|j] Hj; [reflexivity|]. apply H3. lia.
      * intros [|j]; [reflexivity | apply IH].
Qed.

(** [np.argmax] of a boolean array is 0 when the first entry is True or no
    entry is; else it is the index of the first True. *)
Lemma argmax_cases (l : list bool) :
  (argmax l = 0 /\ (nth 0 l false = true \/ forall j, nth j l false = false))
  \/ (0 < argmax l < length l /\ nth (argmax l) l false = true /\
      forall j, j < argmax l -> nth j l false = false).
Proof.
  unfold argmax. pose proof (first_true_spec l) as H.
  destruct (first_true l) as [[|i]|].
  - left. split; [reflexivity|]. left. tauto.
  - right. destruct H as (H1 & H2 & H3). split; [lia|]. auto.
  - left. auto.
Qed.

Lemma row_test (G : grid) (thr : num) (na j : nat) :
  nth j (map (fun v => ngt v thr) (nth na G [])) false = ngt (gget G na j) thr.
Proof.
  exact (map_nth (fun v => ngt v thr) (nth na G []) NaN j).
Qed.

Lemma column_test (G : grid) (thr : num) (nb i : nat) :
  nth i (map (fun row => ngt (nth nb row NaN) thr) G) false
  = ngt (gget G i nb) thr.
Proof.
  unfold gget. destruct (Nat.lt_ge_cases i (length G)) as [Hi|Hi].
  - rewrite nth_indep with (d' := (fun row => ngt (nth nb row NaN) thr) [])
      by now rewrite length_map.
    exact (map_nth (fun row => ngt (nth nb row NaN) thr) G [] i).
  - rewrite (nth_overflow G [] Hi).
    rewrite nth_overflow by now rewrite length_map.
    now destruct nb.
Qed.

Lemma scan_Y_spec (G : grid) (thr : num) (start : nat * nat) (n : nat) :
  forall a,
  (scan_Y G thr (seq a n) start = start /\
   forall na, a <= na < a + n ->
     argmax (map (fun v => ngt v thr) (nth na G [])) = 0)
  \/
  (exists na, a <= na < a + n /\
     scan_Y G thr (seq a n) start
     = (argmax (map (fun v => ngt v thr) (nth na G [])), na) /\
     argmax (map (fun v => ngt v thr) (nth na G [])) <> 0 /\
     forall na', a <= na' < na ->
       argmax (map (fun v => ngt v thr) (nth na' G [])) = 0).
Proof.
  induction n as [|n IH]; intros a; cbn [seq scan_Y].
  - left. split; [reflexivity|]. intros na Hna. lia.
  - destruct (argmax (map (fun v => ngt v thr) (nth a G [])) =? 0) eqn:E0;
      cbn [negb].
    + apply Nat.eqb_eq in E0.
      destruct (IH (S a)) as [(-> & H)|(na & Hna & -> & H1 & H2)].
      * left. split; [reflexivity|]. intros na Hna.
        destruct (Nat.eq_dec na a) as [->|Hne]; [exact E0 | apply H; lia].
      * right. exists na. split; [lia|]. split; [reflexivity|].
        split; [exact H1|]. intros na' Hna'.
        destruct (Nat.eq_dec na' a) as [->|Hne]; [exact E0 | apply H2; lia].
    + apply Nat.eqb_neq in E0. right. exists a. split; [lia|].
      split; [reflexivity|]. split; [exact E0|]. intros na' Hna'. lia.
Qed.

Lemma scan_X_spec (G : grid) (thr : num) (start : nat * nat) (n : nat) :
  forall a,
  (scan_X G thr (seq a n) start = start /\
   forall nb, a <= nb < a + n ->
     argmax (map (fun row => ngt (nth nb row NaN) thr) G) = 0)
  \/
  (exists nb, a <= nb < a + n /\
     scan_X G thr (seq a n) start
     = (nb, argmax (map (fun row => ngt (nth nb row NaN) thr) G)) /\
     argmax (map (fun row => ngt (nth nb row NaN) thr) G) <> 0 /\
     forall nb', a <= nb' < nb ->
       argmax (map (fun row => ngt (nth nb' row NaN) thr) G) = 0).
Proof.
  induction n as [|n IH]; intros a; cbn [seq scan_X].
  - left. split; [reflexivity|]. intros nb Hnb. lia.
  - destruct (argmax (map (fun row => ngt (nth a row NaN) thr) G) =? 0) eqn:E0;
      cbn [negb].
    + apply Nat.eqb_eq in E0.
      destruct (IH (S a)) as [(-> & H)|(nb & Hnb & -> & H1 & H2)].
      * left. split; [reflexivity|]. intros nb Hnb.
        destruct (Nat.eq_dec nb a) as [->|Hne]; [exact E0 | apply H; lia].
      * right. exists nb. split; [lia|]. split; [reflexivity|].
        split; [exact H1|]. intros nb' Hnb'.
        destruct (Nat.eq_dec nb' a) as [->|Hne]; [exact E0 | apply H2; lia].
    + apply Nat.eqb_neq in E0. right. exists a. split; [lia|].
      split; [reflexivity|]. split; [exact E0|]. intros nb' Hnb'. lia.
Qed.

Lemma row_argmax_zero (G : grid) (thr : num) (MaxLags : nat * nat) (na : nat) :
  argmax (map (fun v => ngt v thr) (nth na G [])) = 0 ->
  row_skipped G thr MaxLags na.
Proof.
  intros H0.
  destruct (argmax_cases (map (fun v => ngt v thr) (nth na G [])))
    as [(_ & [H|H])|(H & _)]; [| |lia].
  - left. unfold exceeds. now rewrite <- row_test.
  - right. intros nb _. unfold exceeds. rewrite <- row_test, H. discriminate.
Qed.

Lemma column_argmax_zero (G : grid) (thr : num) (MaxLags : nat * nat) (nb : nat) :
  argmax (map (fun row => ngt (nth nb row NaN) thr) G) = 0 ->
  column_skipped G thr MaxLags nb.
Proof.
  intros H0.
  destruct (argmax_cases (map (fun row => ngt (nth nb row NaN) thr) G))
    as [(_ & [H|H])|(H & _)]; [| |lia].
  - left. unfold exceeds. now rewrite <- column_test.
  - right. intros na _. unfold exceeds. rewrite <- column_test, H. discriminate.
Qed.

(** X8. [Min_Y] is fully determined by the grid.  The rows are visited from
    [na = 0] and a row is passed over when none of its cells exceeds the
    threshold, and also when its cell at [nb = 0] does ([np.argmax] is 0 in
    both cases).  [Min_Y] is [(nb, na)] for the first row [na] not passed
    over and the first column [nb >= 1] of that row whose cell exceeds the
    threshold; when every row is passed over it stays the corner. *)
Theorem MaxLagsEstimator_Min_Y
  (Lagger : vec * vec -> nat * nat -> vec * matrix * list String.string)
  (Expander : matrix -> list String.string -> Z -> matrix * list String.string)
  (x y : vec) (ModelOrder : Z) (MaxLags : nat * nat) (thr : num)
  (Plot : bool) (SaveFig : option String.string) (run : MaxLags_run) :
  MaxLagsEstimator Lagger Expander x y ModelOrder MaxLags thr Plot SaveFig
  = Ok run ->
  (Min_Y (Recs run) = (fst MaxLags, snd MaxLags) /\
   forall na, na <= snd MaxLags -> row_skipped (Grid run) thr MaxLags na)
  \/
  (snd (Min_Y (Recs run)) <= snd MaxLags /\
   1 <= fst (Min_Y (Recs run)) <= fst MaxLags /\
   exceeds (Grid run) thr (snd (Min_Y (Recs run))) (fst (Min_Y (Recs run))) /\
   (forall nb, nb < fst (Min_Y (Recs run)) ->
      ~ exceeds (Grid run) thr (snd (Min_Y (Recs run))) nb) /\
   forall na, na < snd (Min_Y (Recs run)) ->
     row_skipped (Grid run) thr MaxLags na).
Proof.
  intros HR.
  destruct (MaxLagsEstimator_inv _ _ _ _ _ _ _ _ _ _ HR) as (_ & HF & -> & _).
  apply fill_grid_shaped in HF. destruct HF as [Hrows Hcols].
  cbn [Min_Y].
  destruct (scan_Y_spec (Grid run) thr (fst MaxLags, snd MaxLags)
              (snd MaxLags + 1) 0)
    as [(-> & H)|(na & Hna & -> & H1 & H2)].
  - left. split; [reflexivity|]. intros na Hna.
    apply row_argmax_zero, H. lia.
  - right. cbn [fst snd].
    destruct (argmax_cases (map (fun v => ngt v thr) (nth na (Grid run) [])))
      as [(H0 & _)|(Hb & Ht & Hf)]; [contradiction|].
    rewrite length_map in Hb.
    assert (Hlen : length (nth na (Grid run) []) = fst MaxLags + 1).
    { rewrite Forall_forall in Hcols. apply Hcols, nth_In. lia. }
    split; [lia|]. split; [lia|]. split; [|split].
    + unfold exceeds. now rewrite <- row_test.
    + intros nb Hnb. unfold exceeds. rewrite <- row_test, Hf by exact Hnb.
      discriminate.
    + intros na' Hna'. apply row_argmax_zero, H2. lia.
Qed.

Lemma MaxLagsEstimator_Min_Y_witness :
  exists run,
    MaxLagsEstimator Lagger_model Expander_model
      (ints [1; -2; 3; 0; 5; 1]%Z) (ints [0; 1; -1; 3; 2; 4]%Z) 1 (2, 2)
      (Fin (rat 1 2)) false None = Ok run /\
    Min_Y (Recs run) = (1, 0) /\
    ~ exceeds (Grid run) (Fin (rat 1 2)) 0 0.
Proof.
  destruct (MaxLagsEstimator Lagger_model Expander_model
      (ints [1; -2; 3; 0; 5; 1]%Z) (ints [0; 1; -1; 3; 2; 4]%Z) 1 (2, 2)
      (Fin (rat 1 2)) false None) as [run|e] eqn:E; [|vm_compute in E; discriminate].
  exists run. split; [reflexivity|].
  assert (HY : Min_Y (Recs run) = (1, 0)).
  { vm_compute in E. injection E as <-. reflexivity. }
  split; [exact HY|].
  destruct (MaxLagsEstimator_Min_Y Lagger_model Expander_model
              _ _ _ _ _ _ _ run E) as [[H _]|(_ & _ & _ & H & _)].
  - rewrite HY in H. discriminate.
  - rewrite HY in H. apply H. simpl. lia.
Defined.

(** X9. [Min_X] is fully determined by the grid.  The columns are visited
    from [nb = 0] and a column is passed over when none of its cells exceeds
    the threshold, and also when its cell at [na = 0] does.  [Min_X] is
    [(nb, na)] for the first column [nb] not passed over and the first row
    [na >= 1] of that column whose cell exceeds the threshold; when every
    column is passed over it stays the corner. *)
Theorem MaxLagsEstimator_Min_X
  (Lagger : vec * vec -> nat * nat -> vec * matrix * list String.string)
  (Expander : matrix -> list String.string -> Z -> matrix * list String.string)
  (x y : vec) (ModelOrder : Z) (MaxLags : nat * nat) (thr : num)
  (Plot : bool) (SaveFig : option String.string) (run : MaxLags_run) :
  MaxLagsEstimator Lagger Expander x y ModelOrder MaxLags thr Plot SaveFig
  = Ok run ->
  (Min_X (Recs run) = (fst MaxLags, snd MaxLags) /\
   forall nb, nb <= fst MaxLags -> column_skipped (Grid run) thr MaxLags nb)
  \/
  (fst (Min_X (Recs run)) <= fst MaxLags /\
   1 <= snd (Min_X (Recs run)) <= snd MaxLags /\
   exceeds (Grid run) thr (snd (Min_X (Recs run))) (fst (Min_X (Recs run))) /\
   (forall na, na < snd (Min_X (Recs run)) ->
      ~ exceeds (Grid run) thr na (fst (Min_X (Recs run)))) /\
   forall nb, nb < fst (Min_X (Recs run)) ->
     column_skipped (Grid run) thr MaxLags nb).
Proof.
  intros HR.
  destruct (MaxLagsEstimator_inv _ _ _ _ _ _ _ _ _ _ HR) as (_ & HF & -> & _).
  apply fill_grid_shaped in HF. destruct HF as [Hrows Hcols].
  cbn [Min_X].
  destruct (scan_X_spec (Grid run) thr (fst MaxLags, snd MaxLags)
              (fst MaxLags + 1) 0)
    as [(-> & H)|(nb & Hnb & -> & H1 & H2)].
  - left. split; [reflexivity|]. intros nb Hnb.
    apply column_argmax_zero, H. lia.
  - right. cbn [fst snd].
    destruct (argmax_cases
                (map (fun row => ngt (nth nb row NaN) thr) (Grid run)))
      as [(H0 & _)|(Hb & Ht & Hf)]; [contradiction|].
    rewrite length_map in Hb.
    split; [lia|]. split; [lia|]. split; [|split].
    + unfold exceeds. now rewrite <- column_test.
    + intros na Hna. unfold exceeds. rewrite <- column_test, Hf by exact Hna.
      discriminate.
    + intros nb' Hnb'. apply column_argmax_zero, H2. lia.
Qed.

Lemma MaxLagsEstimator_Min_X_witness :
  exists run,
    MaxLagsEstimator Lagger_model Expander_model
      (ints [1; -2; 3; 0; 5; 1; 2; 7]%Z) (ints [0; 1; -1; 3; 2; 4; 1; 0]%Z)
      1 (2, 2) (Fin (rat 1 2)) false None = Ok run /\
    Min_X (Recs run) = (2, 2) /\
    exceeds (Grid run) (Fin (rat 1 2)) 0 1 /\
    column_skipped (Grid run) (Fin (rat 1 2)) (2, 2) 1.
Proof.
  destruct (MaxLagsEstimator Lagger_model Expander_model
      (ints [1; -2; 3; 0; 5; 1; 2; 7]%Z) (ints [0; 1; -1; 3; 2; 4; 1; 0]%Z)
      1 (2, 2) (Fin (rat 1 2)) false None) as [run|e] eqn:E;
    [|vm_compute in E; discriminate].
  exists run. split; [reflexivity|].
  assert (HX : Min_X (Recs run) = (2, 2) /\
               exceeds (Grid run) (Fin (rat 1 2)) 0 1).
  { vm_compute in E. injection E as <-. split; reflexivity. }
  destruct HX as [HX Hex]. split; [exact HX|]. split; [exact Hex|].
  destruct (MaxLagsEstimator_Min_X Lagger_model Expander_model
              _ _ _ _ _ _ _ run E) as [[_ H]|(_ & _ & _ & _ & H)].
  - apply H. simpl. lia.
  - apply H. rewrite HX. simpl. lia.
Defined.

(* ================================================================== *)
(** * MaxLagsEstimator: the warning *)
(* ================================================================== *)

Lemma fill_grid_in_unit_interval
  (Lagger : vec * vec -> nat * nat -> vec * matrix * list String.string)
  (Expander : matrix -> list String.string -> Z -> matrix * list String.string)
  (x y : vec) (ModelOrder : Z) (MaxLags : nat * nat)
  (G : grid) (calls : list (nat * nat)) :
  fill_grid Lagger Expander x y ModelOrder MaxLags = Ok (G, calls) ->
  forall na nb, na <= snd MaxLags -> nb <= fst MaxLags ->
    in_unit_interval (gget G na nb).
Proof.
  intros HF na nb Hna Hnb.
  assert (Hin : In (na, nb) (cells MaxLags)) by (apply in_cells; auto).
  apply in_split in Hin. destruct Hin as (pre & post & Hc).
  destruct (fill_grid_cell _ _ _ _ _ _ _ _ _ _ _ _ HF Hc)
    as (Gb & cb & _ & _ & [(_ & H1 & _)|(_ & _ & E & HE & HG)]).
  - rewrite H1. exists 1%Qc. repeat split; [discriminate | apply Qcle_refl].
  - rewrite HG. unfold cell_ERR in HE.
    destruct (Lagger (x, y) (nb, na)) as [[y0 R] N].
    destruct (Expander R N ModelOrder) as [R' N'].
    exact (clipped_sum_in_unit_interval _ _ _ HE).
Qed.

Lemma in_concat_gget (rows cols : nat) (G : grid) (v : num) :
  shaped rows cols G -> In v (concat G) ->
  exists i j, i < rows /\ j < cols /\ v = gget G i j.
Proof.
  intros [Hr Hc] Hv. apply in_concat in Hv. destruct Hv as (row & Hrow & Hv).
  apply In_nth with (d := []) in Hrow. destruct Hrow as (i & Hi & <-).
  apply In_nth with (d := NaN) in Hv. destruct Hv as (j & Hj & <-).
  exists i, j. split; [lia|]. split; [|reflexivity].
  rewrite Forall_forall in Hc. rewrite <- (Hc (nth i G [])); [exact Hj|].
  now apply nth_In.
Qed.

Lemma nlt_Fin (a b : Qc) : nlt (Fin a) (Fin b) = true <-> (a < b)%Qc.
Proof.
  unfold nlt, ncmp. split.
  - intros H. apply Qclt_alt. unfold Qccompare in *.
    destruct (a ?= b)%Q; congruence.
  - intros H. pose proof (proj1 (Qclt_alt a b) H) as Hc.
    unfold Qccompare in *. now rewrite Hc.
Qed.

(** The maximum of finite numbers is one of them. *)
Lemma fold_nmax_attained (l : list num) :
  forall a, Forall (fun v => exists r, v = Fin r) (a :: l) ->
  exists m, fold_left nmax l a = Fin m /\ In (Fin m) (a :: l).
Proof.
  induction l as [|b l IH]; intros a H.
  - apply Forall_inv in H. destruct H as [r ->]. exists r. split; [reflexivity|].
    now left.
  - apply Forall_cons_iff in H. destruct H as [[p ->] H].
    pose proof H as H'. apply Forall_inv in H'. destruct H' as [r ->].
    apply Forall_inv_tail in H. cbn [fold_left].
    assert (Hm : nmax (Fin p) (Fin r) = Fin p \/ nmax (Fin p) (Fin r) = Fin r).
    { unfold nmax. destruct (nlt (Fin p) (Fin r)); auto. }
    destruct Hm as [Hm|Hm]; rewrite Hm.
    + destruct (IH (Fin p)) as (m & H1 & H2); [constructor; eauto|].
      exists m. split; [exact H1|].
      destruct H2 as [H2|H2]; [now left | right; now right].
    + destruct (IH (Fin r)) as (m & H1 & H2); [constructor; eauto|].
      exists m. split; [exact H1|]. now right.
Qed.

(** X10. The warning of line 430 is printed exactly when every cell of the
    grid is strictly below the threshold ([np.max( Grid ) < threshold]); in
    particular never when the threshold is NaN. *)
Theorem MaxLagsEstimator_warning
  (Lagger : vec * vec -> nat * nat -> vec * matrix * list String.string)
  (Expander : matrix -> list String.string -> Z -> matrix * list String.string)
  (x y : vec) (ModelOrder : Z) (MaxLags : nat * nat) (thr : num)
  (Plot : bool) (SaveFig : option String.string) (run : MaxLags_run) :
  MaxLagsEstimator Lagger Expander x y ModelOrder MaxLags thr Plot SaveFig
  = Ok run ->
  (warned run = true <->
   forall na nb, na <= snd MaxLags -> nb <= fst MaxLags ->
     nlt (gget (Grid run) na nb) thr = true).
Proof.
  intros HR.
  destruct (MaxLagsEstimator_inv _ _ _ _ _ _ _ _ _ _ HR) as (_ & HF & _ & ->).
  pose proof (fill_grid_in_unit_interval _ _ _ _ _ _ _ _ HF) as Hunit.
  pose proof (fill_grid_shaped _ _ _ _ _ _ _ _ HF) as Hsh.
  assert (Hmem : forall na nb, na <= snd MaxLags -> nb <= fst MaxLags ->
            In (gget (Grid run) na nb) (concat (Grid run))).
  { intros na nb Hna Hnb.
    destruct (gget_in_concat (Grid run) na nb) as [HN|Hin]; [|exact Hin].
    destruct (Hunit na nb Hna Hnb) as (v & Hv & _). congruence. }
  assert (Hfin : Forall (fun v => exists r, v = Fin r) (concat (Grid run))).
  { apply Forall_forall. intros v Hv.
    destruct (in_concat_gget _ _ _ _ Hsh Hv) as (i & j & Hi & Hj & ->).
    destruct (Hunit i j) as (r & Hr & _); [lia | lia | eauto]. }
  pose proof (Hmem 0 0 (Nat.le_0_l _) (Nat.le_0_l _)) as H00.
  unfold npmax. destruct (concat (Grid run)) as [|a l] eqn:Ec; [destruct H00|].
  destruct (fold_nmax_attained l a Hfin) as (m & Hmax & Hin).
  rewrite Hmax. split.
  - intros Hw na nb Hna Hnb.
    pose proof (fold_nmax_Fin l a m Hmax) as Hle. rewrite Forall_forall in Hle.
    destruct (Hle _ (Hmem na nb Hna Hnb)) as (r & -> & Hr).
    destruct thr as [t|]; [|discriminate].
    apply nlt_Fin. apply nlt_Fin in Hw. now apply Qcle_lt_trans with m.
  - intros Hall. rewrite <- Ec in Hin.
    destruct (in_concat_gget _ _ _ _ Hsh Hin) as (i & j & Hi & Hj & Hij).
    rewrite Hij. apply Hall; lia.
Qed.

Lemma MaxLagsEstimator_warning_witness :
  exists run,
    MaxLagsEstimator Lagger_model Expander_model
      (ints [1; -2; 3; 0; 5; 1]%Z) (ints [0; 1; -1; 3; 2; 4]%Z) 1 (0, 1)
      (Fin (rat 1 2)) false None = Ok run /\
    warned run = true /\
    nlt (gget (Grid run) 1 0) (Fin (rat 1 2)) = true.
Proof.
  destruct (MaxLagsEstimator Lagger_model Expander_model
      (ints [1; -2; 3; 0; 5; 1]%Z) (ints [0; 1; -1; 3; 2; 4]%Z) 1 (0, 1)
      (Fin (rat 1 2)) false None) as [run|e] eqn:E;
    [|vm_compute in E; discriminate].
  exists run. split; [reflexivity|].
  assert (HW : warned run = true).
  { vm_compute in E. injection E as <-. reflexivity. }
  split; [exact HW|].
  apply (proj1 (MaxLagsEstimator_warning Lagger_model Expander_model
                  _ _ _ _ _ _ _ run E) HW); simpl; lia.
Defined.

(* ================================================================== *)
(** * MaxLagsEstimator: which dictionaries are built *)
(* ================================================================== *)

Lemma neqb_one (v : num) : neqb v 1%num = true <-> v = 1%num.
Proof.
  destruct v as [a|]; [|split; discriminate].
  unfold neqb, ncmp. split.
  - intros H. f_equal. apply Qceq_alt. unfold Qccompare in *.
    change (this 1%Qc) with (this (Q2Qc 1)) in *.
    destruct (a ?= Q2Qc 1)%Q; congruence.
  - intros H. injection H as ->. reflexivity.
Qed.

Lemma prev_pred (n : nat) : prev n = n - 1.
Proof. unfold prev. lia. Qed.

Lemma visited_before_asym (c d : nat * nat) :
  visited_before c d -> ~ visited_before d c.
Proof. unfold visited_before. lia. Qed.

Lemma visited_before_irrefl (c : nat * nat) : ~ visited_before c c.
Proof. unfold visited_before. lia. Qed.

(** No lag pair is handed twice to the dictionary constructor. *)
Lemma fill_steps_NoDup
  (Lagger : vec * vec -> nat * nat -> vec * matrix * list String.string)
  (Expander : matrix -> list String.string -> Z -> matrix * list String.string)
  (x y : vec) (ModelOrder : Z) (cs : list (nat * nat)) :
  forall st st',
  forM cs (fill_step Lagger Expander x y ModelOrder) st = Ok st' ->
  NoDup cs -> NoDup (snd st) ->
  (forall i j, In (i, j) cs -> ~ In (j, i) (snd st)) ->
  NoDup (snd st').
Proof.
  induction cs as [|[na nb] cs IH]; intros [G calls] st' H Hnd Hc Hfresh.
  - injection H as <-. exact Hc.
  - cbn [forM] in H.
    destruct (fill_step Lagger Expander x y ModelOrder (na, nb) (G, calls))
      as [[G1 calls1]|e] eqn:E1; cbn [bind] in H; [|discriminate].
    apply NoDup_cons_iff in Hnd. destruct Hnd as [Hnot Hnd].
    apply (IH _ _ H Hnd); cbn [snd] in *.
    + destruct (fill_step_cases _ _ _ _ _ _ _ _ _ _ _ E1)
        as [(_ & _ & ->)|(_ & v & _ & _ & ->)]; [exact Hc|].
      apply NoDup_app; [exact Hc | repeat constructor; intros [] |].
      intros c H1 [<-|[]]. revert H1. apply Hfresh. now left.
    + intros i j Hin.
      destruct (fill_step_cases _ _ _ _ _ _ _ _ _ _ _ E1)
        as [(_ & _ & ->)|(_ & v & _ & _ & ->)].
      * apply Hfresh. now right.
      * intros H1. apply in_app_or in H1. destruct H1 as [H1|[H1|[]]].
        -- revert H1. apply Hfresh. now right.
        -- injection H1 as <- <-. contradiction.
Qed.

(** X11. The dictionary constructors are called at most once per lag pair
    and only for lag pairs of the grid, and the calls can be read off the
    returned grid: the pair [(nb, na)] is built exactly when [na = 0], or
    [nb = 0], or one of the cells [(na-1, nb)] and [(na, nb-1)] of the
    returned grid is not exactly 1.0.  So the first row and the first
    column are always computed, whatever their neighbours hold. *)
Theorem MaxLagsEstimator_Lagger_calls
  (Lagger : vec * vec -> nat * nat -> vec * matrix * list String.string)
  (Expander : matrix -> list String.string -> Z -> matrix * list String.string)
  (x y : vec) (ModelOrder : Z) (MaxLags : nat * nat) (thr : num)
  (Plot : bool) (SaveFig : option String.string) (run : MaxLags_run) :
  MaxLagsEstimator Lagger Expander x y ModelOrder MaxLags thr Plot SaveFig
  = Ok run ->
  NoDup (Lagger_calls run) /\
  forall nb na,
    In (nb, na) (Lagger_calls run) <->
    na <= snd MaxLags /\ nb <= fst MaxLags /\
    (na = 0 \/ nb = 0 \/
     gget (Grid run) (na - 1) nb <> 1%num \/
     gget (Grid run) na (nb - 1) <> 1%num).
Proof.
  intros HR.
  destruct (MaxLagsEstimator_inv _ _ _ _ _ _ _ _ _ _ HR) as (_ & HF & _).
  pose proof HF as HF'. rewrite fill_grid_flat in HF'. split.
  - apply (fill_steps_NoDup _ _ _ _ _ _ _ _ HF' (NoDup_cells MaxLags));
      cbn [snd]; [constructor | intros i j _ []].
  - assert (Hrange : forall nb na, In (nb, na) (Lagger_calls run) ->
                       na <= snd MaxLags /\ nb <= fst MaxLags).
    { intros nb na Hin.
      destruct (fill_steps_frame Lagger Expander x y ModelOrder
                  (snd MaxLags + 1) (fst MaxLags + 1) _ _ _ HF')
        as (_ & _ & _ & H4); [apply full_shaped|].
      cbn [snd] in H4. destruct (H4 nb na Hin) as [[]|H].
      now apply in_cells in H. }
    assert (Hcell : forall nb na, na <= snd MaxLags -> nb <= fst MaxLags ->
              (In (nb, na) (Lagger_calls run) <->
               (na = 0 \/ nb = 0 \/
                gget (Grid run) (na - 1) nb <> 1%num \/
                gget (Grid run) na (nb - 1) <> 1%num))).
    { intros nb na Hna Hnb.
      assert (Hin : In (na, nb) (cells MaxLags)) by (apply in_cells; auto).
      apply in_split in Hin. destruct Hin as (pre & post & Hc).
      destruct (fill_grid_cell _ _ _ _ _ _ _ _ _ _ _ _ HF Hc)
        as (Gb & cb & Hpre & Hnan & Hcase).
      rewrite Hc in HF'.
      destruct (forM_prefix _ _ _ _ _ _ _ _ _ HF') as (mid & Hm1 & Hm2).
      unfold empty_grid in Hpre. rewrite Hpre in Hm1. injection Hm1 as <-.
      destruct (fill_steps_frame Lagger Expander x y ModelOrder
                  (snd MaxLags + 1) (fst MaxLags + 1) _ _ _ Hm2)
        as (_ & Hkeep & _).
      { destruct (fill_steps_frame Lagger Expander x y ModelOrder
                    (snd MaxLags + 1) (fst MaxLags + 1) _ _ _ Hpre)
          as (Hs & _); [apply full_shaped | exact Hs]. }
      cbn [fst] in Hkeep.
      pose proof (cells_sorted MaxLags) as Hsorted. rewrite Hc in Hsorted.
      apply StronglySorted_split in Hsorted. destruct Hsorted as [_ Hafter].
      rewrite Forall_forall in Hafter.
      assert (Hearlier : forall i j, visited_before (i, j) (na, nb) ->
                gget (Grid run) i j = gget Gb i j).
      { intros i j Hv. apply Hkeep. intros [E|Hp].
        - injection E as <- <-. now apply visited_before_irrefl in Hv.
        - apply Hafter in Hp. now apply visited_before_asym in Hp. }
      assert (Hdom : dominated Gb na nb = false <->
                (na = 0 \/ nb = 0 \/
                 gget (Grid run) (na - 1) nb <> 1%num \/
                 gget (Grid run) na (nb - 1) <> 1%num)).
      { unfold dominated. rewrite !prev_pred.
        destruct na as [|na']; [| destruct nb as [|nb']].
        - cbn [Nat.sub]. rewrite Hnan. cbn. tauto.
        - cbn [Nat.sub]. rewrite Hnan, andb_false_r. tauto.
        - rewrite <- (Hearlier (S na' - 1) (S nb'))
            by (left; cbn [fst]; lia).
          rewrite <- (Hearlier (S na') (S nb' - 1))
            by (right; cbn [fst snd]; lia).
          rewrite andb_false_iff. split.
          + intros [H|H]; right; right; [left|right]; intros E;
              apply neqb_one in E; congruence.
          + intros [H|[H|[H|H]]]; try discriminate; [left|right];
              destruct (neqb _ 1%num) eqn:E; auto;
              apply neqb_one in E; contradiction. }
      rewrite <- Hdom.
      destruct Hcase as [(Hd & _ & Hno)|(Hd & Hyes & _)]; rewrite Hd.
      - split; [intros H; contradiction | discriminate].
      - split; auto. }
    intros nb na. split.
    + intros Hin. destruct (Hrange nb na Hin) as [Hna Hnb].
      split; [exact Hna|]. split; [exact Hnb|]. now apply Hcell.
    + intros (Hna & Hnb & H). now apply Hcell.
Qed.

Lemma MaxLagsEstimator_Lagger_calls_witness :
  exists run,
    MaxLagsEstimator Lagger_model Expander_model
      (ints [1; -2; 3; 0; 5; 1]%Z) (ints [0; 1; -1; 3; 2; 4]%Z) 1 (2, 2)
      (Fin (rat 1 2)) false None = Ok run /\
    NoDup (Lagger_calls run) /\
    In (2, 0) (Lagger_calls run) /\ ~ In (2, 2) (Lagger_calls run).
Proof.
  destruct (MaxLagsEstimator Lagger_model Expander_model
      (ints [1; -2; 3; 0; 5; 1]%Z) (ints [0; 1; -1; 3; 2; 4]%Z) 1 (2, 2)
      (Fin (rat 1 2)) false None) as [run|e] eqn:E;
    [|vm_compute in E; discriminate].
  exists run. split; [reflexivity|].
  destruct (MaxLagsEstimator_Lagger_calls Lagger_model Expander_model
              _ _ _ _ _ _ _ run E) as [Hnd Hcalls].
  split; [exact Hnd|]. split.
  - apply Hcalls. simpl. split; [lia|]. split; [lia|]. now left.
  - intros Hin. apply Hcalls in Hin. destruct Hin as (_ & _ & H).
    assert (HG : gget (Grid run) 1 2 = 1%num /\ gget (Grid run) 2 1 = 1%num).
    { vm_compute in E. injection E as <-. split; reflexivity. }
    cbn [Nat.sub] in H. destruct HG as [H1 H2]. clear E.
    destruct H as [H|[H|[H|H]]];
      [exact (Nat.neq_succ_0 _ H) | exact (Nat.neq_succ_0 _ H)
      | exact (H H1) | exact (H H2)].
Defined.

(* ================================================================== *)
(** * The estimators: what they raise *)
(* ================================================================== *)

Lemma ComputeERR_raises (y : vec) (Ds : matrix) (e : exn) :
  ComputeERR y Ds = Raise e <-> e = IndexError /\ Ds = [].
Proof.
  split.
  - unfold ComputeERR, first_iteration.
    destruct Ds; [intros H; injection H as <-; auto | discriminate].
  - intros [-> ->]. reflexivity.
Qed.

Lemma centerCols_nil (M : matrix) : centerCols M = [] <-> M = [].
Proof. destruct M; split; intros H; try reflexivity; discriminate. Qed.

Lemma ModelErr_raises
  (Lagger : vec * vec -> nat * nat -> vec * matrix * list String.string)
  (Expander : matrix -> list String.string -> Z -> matrix * list String.string)
  (x y : vec) (lags : nat * nat) (y_cut : vec) (k : Z) (e : exn) :
  ModelErr Expander y_cut (snd (fst (Lagger (x, y) lags)))
    (snd (Lagger (x, y) lags)) k = Raise e
  <-> e = IndexError /\ dictionary Lagger Expander x y k lags = [].
Proof.
  unfold ModelErr, dictionary.
  destruct (ComputeERR y_cut _) as [E|ex] eqn:EC; cbn [bind].
  - split; [discriminate|]. intros [_ H].
    apply (proj2 (centerCols_nil _)) in H. rewrite H in EC. discriminate.
  - apply ComputeERR_raises in EC. destruct EC as [-> EC].
    apply (proj1 (centerCols_nil _)) in EC. split.
    + intros H. injection H as <-. split; [reflexivity | exact EC].
    + intros [-> _]. reflexivity.
Qed.

Lemma order_loop_raises
  (Lagger : vec * vec -> nat * nat -> vec * matrix * list String.string)
  (Expander : matrix -> list String.string -> Z -> matrix * list String.string)
  (x y : vec) (lags : nat * nat) (y_cut : vec) (thr : num) (n : nat) :
  forall (a : Z) (prev : option Z) (MEV : list num) (e : exn),
  order_loop Expander y_cut (snd (fst (Lagger (x, y) lags)))
    (snd (Lagger (x, y) lags)) thr (range a (a + Z.of_nat n)) prev MEV
  = Raise e
  <-> e = IndexError /\
      exists k, (a <= k < a + Z.of_nat n)%Z /\
        dictionary Lagger Expander x y k lags = [] /\
        forall j, (a <= j < k)%Z ->
          nge (explained_variance Expander y_cut
                 (snd (fst (Lagger (x, y) lags))) (snd (Lagger (x, y) lags)) j)
              thr = false.
Proof.
  induction n as [|n IH]; intros a prev MEV e.
  - rewrite range_nil by lia. cbn [order_loop]. split; [discriminate|].
    intros (_ & k & Hk & _). lia.
  - rewrite range_cons by lia. cbn [order_loop].
    pose proof (ModelErr_raises Lagger Expander x y lags y_cut a) as HM.
    assert (HV : explained_variance Expander y_cut
                   (snd (fst (Lagger (x, y) lags))) (snd (Lagger (x, y) lags)) a
                 = match ModelErr Expander y_cut
                           (snd (fst (Lagger (x, y) lags)))
                           (snd (Lagger (x, y) lags)) a with
                   | Ok v => v | Raise _ => NaN end) by reflexivity.
    destruct (ModelErr Expander y_cut (snd (fst (Lagger (x, y) lags)))
                (snd (Lagger (x, y) lags)) a) as [v|ex]; cbn [bind].
    + assert (Hne : dictionary Lagger Expander x y a lags <> []).
      { intros H. discriminate (proj2 (HM IndexError) (conj eq_refl H)). }
      rewrite last_last. destruct (nge v thr) eqn:Ev.
      * split; [discriminate|]. intros (_ & k & Hk & Hd & Hbelow).
        destruct (Z.eq_dec k a) as [->|Hka]; [contradiction|].
        assert (Hb := Hbelow a ltac:(lia)). rewrite HV, Ev in Hb.
        discriminate Hb.
      * replace (a + Z.of_nat (S n))%Z with (a + 1 + Z.of_nat n)%Z by lia.
        rewrite IH. split; intros (-> & k & Hk & Hd & Hbelow);
          (split; [reflexivity|]); exists k.
        -- split; [lia|]. split; [exact Hd|]. intros j Hj.
           destruct (Z.eq_dec j a) as [->|Hja]; [now rewrite HV|].
           apply Hbelow. lia.
        -- destruct (Z.eq_dec k a) as [->|Hka]; [contradiction|].
           split; [lia|]. split; [exact Hd|]. intros j Hj. apply Hbelow. lia.
    + destruct (proj1 (HM ex) eq_refl) as [-> Hd]. split.
      * intros H. injection H as <-. split; [reflexivity|]. exists a.
        split; [lia|]. split; [exact Hd|]. intros j Hj. lia.
      * intros (-> & _). reflexivity.
Qed.

Lemma explained_variance_order_ERR
  (Expander : matrix -> list String.string -> Z -> matrix * list String.string)
  (y_cut : vec) (RegMat : matrix) (RegNames : list String.string) (k : Z)
  (E : list num) :
  order_ERR Expander y_cut RegMat RegNames k = Ok E ->
  explained_variance Expander y_cut RegMat RegNames k = pymin 1%num (nsum E).
Proof.
  unfold order_ERR, explained_variance, ModelErr. intros ->. reflexivity.
Qed.

(** X12. An order whose dictionary has no column makes
    [ExpansionOrderEstimator] raise IndexError, when [x] and [y] have the
    same length, the order is in [1 .. MaxOrder], and every order before it
    gave an ERR vector whose clipped sum is below the threshold (so that the
    loop reaches it). *)
Theorem ExpansionOrderEstimator_empty_dictionary
  (Lagger : vec * vec -> nat * nat -> vec * matrix * list String.string)
  (Expander : matrix -> list String.string -> Z -> matrix * list String.string)
  (x y : vec) (MaxLags : nat * nat) (MaxOrder : Z) (thr : num) (k : Z) :
  length x = length y -> (1 <= k <= MaxOrder)%Z ->
  dictionary Lagger Expander x y k MaxLags = [] ->
  (forall j, (1 <= j < k)%Z ->
     exists E,
       order_ERR Expander (center (fst (fst (Lagger (x, y) MaxLags))))
         (snd (fst (Lagger (x, y) MaxLags))) (snd (Lagger (x, y) MaxLags)) j
       = Ok E /\
       nge (pymin 1%num (nsum E)) thr = false) ->
  ExpansionOrderEstimator Lagger Expander x y MaxLags MaxOrder thr
  = Raise IndexError.
Proof.
  intros Hlen Hk Hd Hbelow. unfold ExpansionOrderEstimator.
  rewrite Hlen, Nat.eqb_refl. cbn [negb].
  replace (MaxOrder <? 1)%Z with false by (symmetry; apply Z.ltb_ge; lia).
  pose proof (order_loop_raises Lagger Expander x y MaxLags
                (center (fst (fst (Lagger (x, y) MaxLags)))) thr
                (Z.to_nat MaxOrder) 1 None [0%num] IndexError) as HL.
  replace (1 + Z.of_nat (Z.to_nat MaxOrder))%Z with (MaxOrder + 1)%Z in HL
    by lia.
  assert (HR : order_loop Expander (center (fst (fst (Lagger (x, y) MaxLags))))
                 (snd (fst (Lagger (x, y) MaxLags)))
                 (snd (Lagger (x, y) MaxLags)) thr
                 (range 1 (MaxOrder + 1)) None [0%num] = Raise IndexError).
  { apply HL. split; [reflexivity|]. exists k. split; [lia|].
    split; [exact Hd|]. intros j Hj.
    destruct (Hbelow j Hj) as (E & HE & Hlow).
    now rewrite (explained_variance_order_ERR _ _ _ _ _ _ HE). }
  destruct (Lagger (x, y) MaxLags) as [[y0 R] N]. cbn [fst snd] in HR.
  rewrite HR. reflexivity.
Qed.

Lemma ExpansionOrderEstimator_empty_dictionary_witness :
  ExpansionOrderEstimator Lagger_model
    (fun M names order => if (order <? 2)%Z then (M, names) else ([], []))
    (ints [1; -2; 3; 0; 5; 1]%Z) (ints [0; 1; -1; 3; 2; 4]%Z) (1, 0) 3
    (Fin (rat 98 100))
  = Raise IndexError.
Proof.
  apply (ExpansionOrderEstimator_empty_dictionary Lagger_model
           (fun M names order => if (order <? 2)%Z then (M, names) else ([], []))
           (ints [1; -2; 3; 0; 5; 1]%Z) (ints [0; 1; -1; 3; 2; 4]%Z) (1, 0) 3
           (Fin (rat 98 100)) 2).
  - reflexivity.
  - lia.
  - reflexivity.
  - intros j Hj. assert (j = 1%Z) as -> by lia.
    eexists. split; [reflexivity|]. vm_compute. reflexivity.
Defined.

Lemma cell_ERR_raises
  (Lagger : vec * vec -> nat * nat -> vec * matrix * list String.string)
  (Expander : matrix -> list String.string -> Z -> matrix * list String.string)
  (x y : vec) (ModelOrder : Z) (nb na : nat) (e : exn) :
  cell_ERR Lagger Expander x y ModelOrder nb na = Raise e
  <-> e = IndexError /\
      dictionary Lagger Expander x y ModelOrder (nb, na) = [].
Proof.
  unfold cell_ERR, dictionary.
  destruct (Lagger (x, y) (nb, na)) as [[y0 R] N]. cbn [fst snd].
  destruct (Expander R N ModelOrder) as [R' N']. cbn [fst].
  rewrite ComputeERR_raises. split; intros [H1 H2]; (split; [exact H1|]).
  - now apply (proj1 (centerCols_nil _)).
  - now apply (proj2 (centerCols_nil _)).
Qed.

Lemma fill_steps_raise
  (Lagger : vec * vec -> nat * nat -> vec * matrix * list String.string)
  (Expander : matrix -> list String.string -> Z -> matrix * list String.string)
  (x y : vec) (ModelOrder : Z) (cs : list (nat * nat)) (e : exn) :
  forall st,
  forM cs (fill_step Lagger Expander x y ModelOrder) st = Raise e ->
  exists c, In c cs /\
    cell_ERR Lagger Expander x y ModelOrder (snd c) (fst c) = Raise e.
Proof.
  induction cs as [|[na nb] cs IH]; intros [G calls]; cbn [forM];
    [discriminate|].
  destruct (fill_step Lagger Expander x y ModelOrder (na, nb) (G, calls))
    as [st1|ex] eqn:E1; cbn [bind].
  - intros H. destruct (IH _ H) as (c & Hc & He). exists c. split; [now right|].
    exact He.
  - intros H. injection H as ->. exists (na, nb). split; [now left|].
    unfold fill_step, fill_cell, cell_value in E1. cbn [fst snd] in *.
    destruct (dominated G na nb); [discriminate|].
    destruct (cell_ERR Lagger Expander x y ModelOrder nb na) as [E|ex];
      cbn [bind] in E1; [discriminate|].
    now injection E1 as ->.
Qed.

Lemma checks_pass_dec (x y : vec) (ModelOrder : Z) (Plot : bool)
  (SaveFig : option String.string) :
  (negb (length x =? length y)
   || (ModelOrder <? 1)%Z
   || match SaveFig with Some _ => negb Plot | None => false end) = false
  <-> checks_pass x y ModelOrder Plot SaveFig.
Proof.
  unfold checks_pass. rewrite !orb_false_iff, negb_false_iff, Nat.eqb_eq,
    Z.ltb_ge.
  destruct SaveFig as [s|], Plot; cbn [negb]; split;
    intros [[H1 H2] H3] || intros (H1 & H2 & H3);
    repeat split; auto; try lia; try discriminate;
    destruct H3; discriminate.
Qed.

Lemma MaxLagsEstimator_raise_cases
  (Lagger : vec * vec -> nat * nat -> vec * matrix * list String.string)
  (Expander : matrix -> list String.string -> Z -> matrix * list String.string)
  (x y : vec) (ModelOrder : Z) (MaxLags : nat * nat) (thr : num)
  (Plot : bool) (SaveFig : option String.string) (e : exn) :
  MaxLagsEstimator Lagger Expander x y ModelOrder MaxLags thr Plot SaveFig
  = Raise e ->
  (e = AssertionError /\ ~ checks_pass x y ModelOrder Plot SaveFig) \/
  (e = IndexError /\ checks_pass x y ModelOrder Plot SaveFig /\
   exists na nb, na <= snd MaxLags /\ nb <= fst MaxLags /\
     dictionary Lagger Expander x y ModelOrder (nb, na) = []).
Proof.
  pose proof (checks_pass_dec x y ModelOrder Plot SaveFig) as HC.
  unfold MaxLagsEstimator.
  destruct (negb (length x =? length y)); cbn [orb] in HC.
  { intros H. injection H as <-. left. split; [reflexivity|].
    intros H. apply HC in H. discriminate. }
  destruct (ModelOrder <? 1)%Z; cbn [orb] in HC.
  { intros H. injection H as <-. left. split; [reflexivity|].
    intros H. apply HC in H. discriminate. }
  destruct (match SaveFig with Some _ => negb Plot | None => false end).
  { intros H. injection H as <-. left. split; [reflexivity|].
    intros H. apply HC in H. discriminate. }
  destruct (fill_grid Lagger Expander x y ModelOrder MaxLags) as [st|ex] eqn:EF;
    cbn [bind]; [discriminate|].
  intros H. injection H as ->. right.
  rewrite fill_grid_flat in EF.
  destruct (fill_steps_raise _ _ _ _ _ _ _ _ EF) as ([na nb] & Hc & He).
  apply in_cells in Hc. cbn [fst snd] in He.
  apply cell_ERR_raises in He. destruct He as [-> Hd].
  split; [reflexivity|]. split; [now apply HC|].
  exists na, nb. tauto.
Qed.

(** X14. The shortcut of line 393 never hides an empty dictionary on the
    first row or the first column of the grid: when the checks pass and the
    dictionary of a lag pair with [na = 0] or [nb = 0] has no column,
    [MaxLagsEstimator] raises an IndexError. *)
Theorem MaxLagsEstimator_empty_boundary_dictionary
  (Lagger : vec * vec -> nat * nat -> vec * matrix * list String.string)
  (Expander : matrix -> list String.string -> Z -> matrix * list String.string)
  (x y : vec) (ModelOrder : Z) (MaxLags : nat * nat) (thr : num)
  (Plot : bool) (SaveFig : option String.string) (na nb : nat) :
  checks_pass x y ModelOrder Plot SaveFig ->
  na <= snd MaxLags -> nb <= fst MaxLags -> na = 0 \/ nb = 0 ->
  dictionary Lagger Expander x y ModelOrder (nb, na) = [] ->
  MaxLagsEstimator Lagger Expander x y ModelOrder MaxLags thr Plot SaveFig
  = Raise IndexError.
Proof.
  intros HC Hna Hnb H0 Hd.
  destruct (MaxLagsEstimator Lagger Expander x y ModelOrder MaxLags thr Plot
              SaveFig) as [run|e] eqn:ER.
  - destruct (MaxLagsEstimator_inv _ _ _ _ _ _ _ _ _ _ ER) as (_ & HF & _).
    destruct (boundary_cells_are_computed _ _ _ _ _ _ _ _ na nb HF Hna Hnb H0)
      as (_ & E & HE & _).
    assert (HX : cell_ERR Lagger Expander x y ModelOrder nb na
                 = Raise IndexError) by (apply cell_ERR_raises; auto).
    rewrite HE in HX. discriminate HX.
  - apply MaxLagsEstimator_raise_cases in ER.
    destruct ER as [[_ H]|[-> _]]; [contradiction | reflexivity].
Qed.

Lemma MaxLagsEstimator_empty_boundary_dictionary_witness :
  MaxLagsEstimator (fun xy lags => (snd xy, [], [])) Expander_model
    (ints [1; 2; 3]%Z) (ints [2; 0; 1]%Z) 1 (1, 1) (Fin (rat 98 100))
    false None = Raise IndexError.
Proof.
  apply (MaxLagsEstimator_empty_boundary_dictionary
           (fun xy lags => (snd xy, [], [])) Expander_model
           (ints [1; 2; 3]%Z) (ints [2; 0; 1]%Z) 1 (1, 1) (Fin (rat 98 100))
           false None 0 0).
  - unfold checks_pass. simpl. split; [reflexivity|]. split; [lia | now left].
  - simpl. lia.
  - simpl. lia.
  - now left.
  - reflexivity.
Defined.

(* ================================================================== *)
(** * rFOrLSR2IIR: the names RegressorParser accepts *)
(* ================================================================== *)

Section ParserFacts.

Import Ascii String List.

Lemma string_append_assoc (a b c : string) :
  ((a ++ b) ++ c)%string = (a ++ (b ++ c))%string.
Proof. induction a as [|x a IH]; simpl; [reflexivity | now rewrite IH]. Qed.

Lemma variable_of_letter (c : ascii) (v : variable) :
  variable_of c = Some v <-> c = letter v.
Proof.
  unfold variable_of. split.
  - destruct (Ascii.eqb c "x") eqn:Ex.
    + apply Ascii.eqb_eq in Ex. intros H. injection H as <-. exact Ex.
    + destruct (Ascii.eqb c "y") eqn:Ey; [|discriminate].
      apply Ascii.eqb_eq in Ey. intros H. injection H as <-. exact Ey.
  - intros ->. now destruct v.
Qed.

Lemma strip_prefix_spec (p s r : string) :
  strip_prefix p s = Some r <-> s = (p ++ r)%string.
Proof.
  revert s. induction p as [|a p IH]; intros s; cbn [strip_prefix append].
  - split; [intros H; now injection H | intros ->; reflexivity].
  - destruct s as [|c s]; [split; discriminate|].
    destruct (Ascii.eqb a c) eqn:E.
    + apply Ascii.eqb_eq in E. subst c. rewrite IH.
      split; [intros ->; reflexivity | intros H; now injection H].
    + apply Ascii.eqb_neq in E. split; [discriminate|].
      intros H. injection H as H1 _. congruence.
Qed.

(** The digits [span_digits] takes off are the numeral it returns. *)
Lemma span_digits_sound (s : string) :
  forall u tl, span_digits s = (u, tl) ->
  s = (DecimalString.NilEmpty.string_of_uint u ++ tl)%string.
Proof.
  induction s as [|c s IH]; intros u tl; cbn [span_digits].
  - intros H. injection H as <- <-. reflexivity.
  - destruct (span_digits s) as [u0 tl0].
    destruct (DecimalString.uint_of_char c (Some u0)) as [u'|] eqn:E.
    + intros H. injection H as <- <-.
      rewrite (IH _ _ eq_refl) at 1.
      apply DecimalString.uint_of_char_spec in E.
      decompose [or and] E; subst c u'; reflexivity.
    + intros H. injection H as <- <-. reflexivity.
Qed.

(** A numeral is taken off whole when no digit follows it. *)
Lemma span_digits_numeral (u : Decimal.uint) (tl : string) :
  span_digits tl = (Decimal.Nil, tl) ->
  span_digits (DecimalString.NilEmpty.string_of_uint u ++ tl) = (u, tl).
Proof.
  intros H.
  induction u;
    cbn [DecimalString.NilEmpty.string_of_uint append span_digits];
    [exact H | rewrite IHu; reflexivity ..].
Qed.

Lemma span_digits_bracket (rest : string) :
  span_digits (String "]" rest) = (Decimal.Nil, String "]" rest).
Proof. cbn [span_digits]. destruct (span_digits rest). reflexivity. Qed.

Lemma to_uint_nonnil (j : nat) : Nat.to_uint j <> Decimal.Nil.
Proof.
  pose proof (DecimalNat.Unsigned.to_of (Nat.to_uint j)) as H.
  rewrite DecimalNat.Unsigned.of_to in H. rewrite H.
  apply DecimalFacts.unorm_nonnil.
Qed.

(** A variable, [[k-], one digit or more and [] ]: accepted, whatever
    follows. *)
Lemma RegressorParser_lagged (v : variable) (u : Decimal.uint) (rest : string) :
  u <> Decimal.Nil ->
  RegressorParser
    (lagged_name v (DecimalString.NilEmpty.string_of_uint u) ++ rest)
  = Return (v, Nat.of_uint u).
Proof.
  intros Hu. unfold RegressorParser, lagged_name. cbn [append].
  rewrite string_append_assoc. cbn [append].
  assert (E0 : forall X,
    String.eqb (String (letter v) (String "[" (String "k" (String "-" X))))
      "x[k]" = false) by (intros X; destruct v; reflexivity).
  rewrite E0. rewrite (proj2 (variable_of_letter (letter v) v) eq_refl).
  cbn [strip_prefix Ascii.eqb Bool.eqb].
  rewrite span_digits_numeral by apply span_digits_bracket.
  destruct u; [contradiction | reflexivity ..].
Qed.

(** X15. The names [RegressorParser] accepts are exactly: [x[k]], read as
    [(x, 0)]; and any text that starts with [x] or [y], [[k-], at least one
    digit and [] ], read as the variable and the decimal value of the digits
    (leading zeros allowed).  What follows the closing bracket is ignored,
    and [y[k]] is not accepted. *)
Theorem RegressorParser_accepts (term : string) (v : variable) (d : nat) :
  RegressorParser term = Return (v, d) <->
  (term = undelayed_name var_x /\ v = var_x /\ d = 0) \/
  exists u rest, u <> Decimal.Nil /\
    term = (lagged_name v (DecimalString.NilEmpty.string_of_uint u)
            ++ rest)%string /\
    d = Nat.of_uint u.
Proof.
  split.
  - unfold RegressorParser. destruct (String.eqb term "x[k]") eqn:E0.
    + apply String.eqb_eq in E0. intros H. injection H as <- <-. left. auto.
    + destruct term as [|c rest]; [discriminate|].
      destruct (variable_of c) as [v'|] eqn:Ev; [|discriminate].
      destruct (strip_prefix "[k-" rest) as [digits|] eqn:Ep; [|discriminate].
      destruct (span_digits digits) as [u tl] eqn:Es.
      apply variable_of_letter in Ev. apply strip_prefix_spec in Ep.
      apply span_digits_sound in Es. subst c rest digits.
      destruct u; [discriminate | ..];
        (destruct tl as [|b tl']; [discriminate|];
         destruct (Ascii.eqb b "]") eqn:Eb; [|discriminate];
         apply Ascii.eqb_eq in Eb; subst b;
         intros H; injection H as <- <-; right;
         match goal with
         | |- context [Nat.of_uint ?U] => exists U, tl'
         end;
         split; [discriminate|]; split; [|reflexivity];
         unfold lagged_name; cbn [append];
         rewrite string_append_assoc; reflexivity).
  - intros [(-> & -> & ->)|(u & rest & Hu & -> & ->)]; [reflexivity|].
    now apply RegressorParser_lagged.
Qed.

(** X16. Round trip with decimal numerals: for every variable and every
    delay [j], the name [v[k-j]] written with [str( j )] is read back as
    [(v, j)], also for [j = 0] and with any text after the bracket. *)
Theorem RegressorParser_decimal_names (v : variable) (j : nat) (rest : string) :
  RegressorParser (lagged_name v (decimal j) ++ rest) = Return (v, j).
Proof.
  unfold decimal. rewrite RegressorParser_lagged by apply to_uint_nonnil.
  now rewrite DecimalNat.Unsigned.of_to.
Qed.

(** X17. Names without delay: [x[k]] alone is read as [(x, 0)], but
    [x[k]] followed by anything, and [y[k]] followed by anything or
    nothing, raise ValueError: the special case of line 41 is an equality
    test on [x[k]] only. *)
Theorem RegressorParser_undelayed_names (v : variable) (rest : string) :
  RegressorParser (undelayed_name v ++ rest) =
  match v, rest with
  | var_x, EmptyString => Return (var_x, 0)
  | _, _ => Throw IIR_ValueError
  end.
Proof. destruct v, rest; reflexivity. Qed.

End ParserFacts.

(* ================================================================== *)
(** * rFOrLSR2IIR: the coefficient vectors *)
(* ================================================================== *)

Lemma fold_max_spec (rest : list nat) :
  forall d,
  (fold_left Nat.max rest d = d \/ In (fold_left Nat.max rest d) rest) /\
  d <= fold_left Nat.max rest d /\
  forall k, In k rest -> k <= fold_left Nat.max rest d.
Proof.
  induction rest as [|k rest IH]; intros d; cbn [fold_left].
  - split; [now left|]. split; [lia | intros k []].
  - destruct (IH (Nat.max d k)) as (H1 & H2 & H3). split; [|split].
    + destruct H1 as [H1|H1]; [|right; now right].
      destruct (Nat.max_dec d k) as [E|E]; rewrite E in *;
        [now left | right; left; now rewrite H1].
    + lia.
    + intros j [<-|Hj]; [lia | now apply H3].
Qed.

Lemma pymax_spec (l : list nat) (m : nat) :
  pymax l = Return m -> In m l /\ forall d, In d l -> d <= m.
Proof.
  destruct l as [|d rest]; [discriminate|]. cbn [pymax].
  intros H. injection H as <-.
  destruct (fold_max_spec rest d) as (H1 & H2 & H3). split.
  - destruct H1 as [->|H1]; [now left | now right].
  - intros k [<-|Hk]; [exact H2 | now apply H3].
Qed.

(** The second loop: every position holds the coefficient of the last
    entry stored there, and what it held before when there is none. *)
Lemma store_fold (CL : list (num * variable * nat)) :
  forall b a,
  (forall e, In e CL -> snd e < length b /\ snd e < length a) ->
  length (fst (fold_left store CL (b, a))) = length b /\
  length (snd (fold_left store CL (b, a))) = length a /\
  forall d,
    nth d (fst (fold_left store CL (b, a))) NaN
    = match last_coeff var_x d CL with
      | Some c => c
      | None => nth d b NaN
      end /\
    nth d (snd (fold_left store CL (b, a))) NaN
    = match last_coeff var_y d CL with
      | Some c => nopp c
      | None => nth d a NaN
      end.
Proof.
  induction CL as [|[[c v] k] CL IH]; intros b a H; cbn [fold_left].
  - cbn [fst snd last_coeff]. auto.
  - destruct (H (c, v, k) (or_introl eq_refl)) as [Hb Ha]. cbn [snd] in Hb, Ha.
    change (store (b, a) (c, v, k))
      with (match v with
            | var_x => (upd b k c, a)
            | var_y => (b, upd a k (nopp c))
            end).
    destruct v.
    + destruct (IH (upd b k c) a) as (H1 & H2 & H3).
      { intros e He. rewrite upd_length. apply H. now right. }
      rewrite upd_length in H1. split; [exact H1|]. split; [exact H2|].
      intros d. destruct (H3 d) as [H4 H5]. rewrite H4, H5.
      cbn [last_coeff fst snd]. split.
      * destruct (last_coeff var_x d CL); [reflexivity|].
        destruct (k =? d) eqn:E.
        -- apply Nat.eqb_eq in E. subst d. now apply nth_upd_same.
        -- apply Nat.eqb_neq in E. now apply nth_upd_other.
      * now destruct (last_coeff var_y d CL).
    + destruct (IH b (upd a k (nopp c))) as (H1 & H2 & H3).
      { intros e He. rewrite upd_length. apply H. now right. }
      rewrite upd_length in H2. split; [exact H1|]. split; [exact H2|].
      intros d. destruct (H3 d) as [H4 H5]. rewrite H4, H5.
      cbn [last_coeff fst snd]. split.
      * now destruct (last_coeff var_x d CL).
      * destruct (last_coeff var_y d CL); [reflexivity|].
        destruct (k =? d) eqn:E.
        -- apply Nat.eqb_eq in E. subst d. now apply nth_upd_same.
        -- apply Nat.eqb_neq in E. now apply nth_upd_other.
Qed.

(** The first loop, entry by entry. *)
Lemma CoeffList_from_spec (L : list Z) (RegNames : list String.string)
  (theta : list num) :
  forall i CL,
  CoeffList_from L RegNames i theta = Return CL ->
  length CL = length theta /\
  forall k, k < length theta ->
    entry_of L RegNames (i + k) (nth k theta NaN) (nth k CL (NaN, var_x, 0)).
Proof.
  induction theta as [|th rest IH]; intros i CL; cbn [CoeffList_from].
  - intros H. injection H as <-. split; [reflexivity|]. intros k Hk.
    cbn [length] in Hk. lia.
  - destruct (getitem L (Z.of_nat i)) as [Li|e] eqn:E1; cbn [and_then];
      [|discriminate].
    destruct (getitem RegNames Li) as [term|e] eqn:E2; cbn [and_then];
      [|discriminate].
    destruct (RegressorParser term) as [[v d]|e] eqn:E3; cbn [and_then];
      [|discriminate].
    destruct (CoeffList_from L RegNames (S i) rest) as [tl|e] eqn:E4;
      cbn [and_then]; [|discriminate].
    intros H. injection H as <-. destruct (IH _ _ E4) as [HL HE].
    split; [cbn [length]; now rewrite HL|].
    intros [|k] Hk; cbn [nth].
    + rewrite Nat.add_0_r. exists Li, term. cbn [fst snd]. auto.
    + replace (i + S k) with (S i + k) by lia. apply HE.
      cbn [length] in Hk. lia.
Qed.

Lemma CoeffList_from_total (L : list Z) (RegNames : list String.string)
  (theta : list num) :
  forall i,
  (forall k, k < length theta ->
     exists e, entry_of L RegNames (i + k) (nth k theta NaN) e) ->
  exists CL, CoeffList_from L RegNames i theta = Return CL.
Proof.
  induction theta as [|th rest IH]; intros i H; cbn [CoeffList_from].
  - now exists [].
  - destruct (H 0) as (e & Li & term & E1 & E2 & E3 & _);
      [cbn [length]; lia|].
    rewrite Nat.add_0_r in E1. rewrite E1. cbn [and_then].
    rewrite E2. cbn [and_then]. rewrite E3. cbn [and_then].
    destruct (IH (S i)) as [tl Htl].
    { intros k Hk. replace (S i + k) with (i + S k) by lia.
      apply (H (S k)). cbn [length]. lia. }
    rewrite Htl. cbn [and_then]. eauto.
Qed.

(** X18. What [rFOrLSR2IIR] returns: [b] and [a] both have
    [MaxLag + 1] entries, [MaxLag] being the largest delay among the selected
    names; [b[d]] is the coefficient of the last selected name [x[k-d]]
    and 0 when there is none; [a[d]] is minus the coefficient of the last
    selected name [y[k-d]] and, when there is none, 1 for [d = 0] and 0
    elsewhere.  So a selected [y[k-0]] overwrites the leading 1 of [a]. *)
Theorem rFOrLSR2IIR_coefficients (theta : list num) (L : list Z)
  (RegNames : list String.string) (b a : vec) :
  rFOrLSR2IIR theta L RegNames = Return (b, a) ->
  exists CL MaxLag,
    CoeffList theta L RegNames = Return CL /\
    length CL = length theta /\
    (forall i, i < length theta ->
       entry_of L RegNames i (nth i theta NaN) (nth i CL (NaN, var_x, 0))) /\
    In MaxLag (map snd CL) /\
    (forall e, In e CL -> snd e <= MaxLag) /\
    length b = MaxLag + 1 /\ length a = MaxLag + 1 /\
    forall d, d <= MaxLag ->
      nth d b NaN = match last_coeff var_x d CL with
                    | Some c => c
                    | None => 0%num
                    end /\
      nth d a NaN = match last_coeff var_y d CL with
                    | Some c => nopp c
                    | None => if d =? 0 then 1%num else 0%num
                    end.
Proof.
  unfold rFOrLSR2IIR.
  destruct (CoeffList theta L RegNames) as [CL|e] eqn:EC; cbn [and_then];
    [|discriminate].
  destruct (pymax (map snd CL)) as [M|e] eqn:EM; cbn [and_then];
    [|discriminate].
  intros H. injection H as H.
  destruct (CoeffList_from_spec _ _ _ _ _ EC) as [HL HE].
  destruct (pymax_spec _ _ EM) as [Hin Hmax].
  assert (Hle : forall e, In e CL -> snd e <= M).
  { intros e He. apply Hmax. now apply in_map. }
  destruct (store_fold CL (zeros (M + 1)) (upd (zeros (M + 1)) 0 1%num))
    as (H1 & H2 & H3).
  { intros e He. rewrite upd_length, zeros_length.
    specialize (Hle e He). lia. }
  unfold vec in *. rewrite H in H1, H2, H3. cbn [fst snd] in H1, H2, H3.
  rewrite zeros_length in H1. rewrite upd_length, zeros_length in H2.
  exists CL, M. split; [reflexivity|]. split; [exact HL|].
  split; [exact HE|]. split; [exact Hin|]. split; [exact Hle|].
  split; [exact H1|]. split; [exact H2|].
  intros d Hd. destruct (H3 d) as [H4 H5]. rewrite H4, H5. split.
  - destruct (last_coeff var_x d CL); [reflexivity|].
    apply nth_zeros. lia.
  - destruct (last_coeff var_y d CL); [reflexivity|].
    destruct d as [|d]; cbn [Nat.eqb].
    + apply nth_upd_same. rewrite zeros_length. lia.
    + rewrite nth_upd_other by lia. apply nth_zeros. lia.
Qed.

Lemma rFOrLSR2IIR_coefficients_witness :
  exists b a,
    rFOrLSR2IIR (ints [5; 7; 9; 11]%Z) [2; 0; -1; 1]%Z
      [undelayed_name var_x; lagged_name var_y (decimal 2);
       lagged_name var_x (decimal 3); lagged_name var_y (decimal 1)]
    = Return (b, a) /\
    length b = 4 /\ length a = 4 /\
    nth 3 b NaN = of_Z 5 /\ nth 0 a NaN = 1%num /\ nth 1 a NaN = nopp (of_Z 9).
Proof.
  destruct (rFOrLSR2IIR (ints [5; 7; 9; 11]%Z) [2; 0; -1; 1]%Z
      [undelayed_name var_x; lagged_name var_y (decimal 2);
       lagged_name var_x (decimal 3); lagged_name var_y (decimal 1)])
    as [[b a]|e] eqn:E; [|vm_compute in E; discriminate E].
  exists b, a. split; [reflexivity|].
  destruct (rFOrLSR2IIR_coefficients _ _ _ _ _ E)
    as (CL & M & HC & _ & _ & Hin & Hle & Hb & Ha & Hnth).
  clear E.
  assert (HCL : CL = [(of_Z 5, var_x, 3); (of_Z 7, var_x, 0);
                      (of_Z 9, var_y, 1); (of_Z 11, var_y, 2)]).
  { vm_compute in HC. injection HC as <-. reflexivity. }
  clear HC. subst CL.
  assert (HM : M = 3).
  { specialize (Hle (of_Z 5, var_x, 3) (or_introl eq_refl)). cbn [snd] in Hle.
    cbn [map snd In] in Hin. lia. }
  subst M. split; [exact Hb|]. split; [exact Ha|].
  split; [exact (proj1 (Hnth 3 (Nat.le_refl 3)))|].
  split; [exact (proj2 (Hnth 0 (Nat.le_0_l 3)))|].
  assert (H13 : 1 <= 3) by lia.
  exact (proj2 (Hnth 1 H13)).
Defined.

(* ================================================================== *)
(** * rFOrLSR2IIR: when it returns *)
(* ================================================================== *)

(** X19. [rFOrLSR2IIR] returns exactly when [theta] is not empty and, for
    every position [i] of [theta], [L[i]] and [RegNames[ L[i] ]] exist and
    the name is one [RegressorParser] accepts; on an empty [theta] it
    raises ValueError ([max] of an empty list). *)
Theorem rFOrLSR2IIR_returns (theta : list num) (L : list Z)
  (RegNames : list String.string) :
  ((exists b a, rFOrLSR2IIR theta L RegNames = Return (b, a)) <->
   theta <> [] /\
   forall i, i < length theta ->
     exists e, entry_of L RegNames i (nth i theta NaN) e) /\
  rFOrLSR2IIR [] L RegNames = Throw IIR_ValueError.
Proof.
  split; [|reflexivity]. unfold rFOrLSR2IIR, CoeffList. split.
  - intros (b & a & H).
    destruct (CoeffList_from L RegNames 0 theta) as [CL|e] eqn:EC;
      cbn [and_then] in H; [|discriminate].
    destruct (CoeffList_from_spec _ _ _ _ _ EC) as [HL HE].
    destruct CL as [|e CL]; [discriminate|]. split.
    + intros ->. discriminate.
    + intros i Hi. eexists. exact (HE i Hi).
  - intros [Hne H].
    destruct (CoeffList_from_total L RegNames theta 0 H) as [CL EC].
    rewrite EC. cbn [and_then].
    destruct (CoeffList_from_spec _ _ _ _ _ EC) as [HL _].
    destruct CL as [|e CL].
    + destruct theta; [contradiction | discriminate].
    + cbn [map pymax and_then].
      destruct (fold_left store (e :: CL) _) as [b a]. eauto.
Qed.

Lemma getitem_app {A : Type} (l extra : list A) (i : nat) :
  i < length l -> getitem (l ++ extra) (Z.of_nat i) = getitem l (Z.of_nat i).
Proof.
  intros Hi. unfold getitem. rewrite length_app.
  assert (E0 : (Z.of_nat i <? 0)%Z = false) by (apply Z.ltb_ge; lia).
  rewrite E0.
  assert (E1 : ((0 <=? Z.of_nat i) && (Z.of_nat i <? Z.of_nat (length l)))%Z
               = true).
  { apply andb_true_iff. split; [apply Z.leb_le | apply Z.ltb_lt]; lia. }
  assert (E2 : ((0 <=? Z.of_nat i)
                && (Z.of_nat i <? Z.of_nat (length l + length extra)))%Z
               = true).
  { apply andb_true_iff. split; [apply Z.leb_le | apply Z.ltb_lt]; lia. }
  rewrite E1, E2, Nat2Z.id. now rewrite nth_error_app1.
Qed.

Lemma CoeffList_from_app (L extra : list Z) (RegNames : list String.string)
  (theta : list num) :
  forall i, i + length theta <= length L ->
  CoeffList_from (L ++ extra) RegNames i theta
  = CoeffList_from L RegNames i theta.
Proof.
  induction theta as [|th rest IH]; intros i Hi; cbn [CoeffList_from];
    [reflexivity|].
  cbn [length] in Hi. rewrite getitem_app by lia.
  destruct (getitem L (Z.of_nat i)) as [Li|e]; cbn [and_then]; [|reflexivity].
  destruct (getitem RegNames Li) as [term|e]; cbn [and_then]; [|reflexivity].
  destruct (RegressorParser term) as [vd|e]; cbn [and_then]; [|reflexivity].
  rewrite IH by lia. reflexivity.
Qed.

(** X20. Only the first [len( theta )] entries of [L] are read: whatever
    follows them in [L] changes neither the result nor the exception. *)
Theorem rFOrLSR2IIR_reads_a_prefix_of_L (theta : list num) (L extra : list Z)
  (RegNames : list String.string) :
  length theta <= length L ->
  rFOrLSR2IIR theta (L ++ extra) RegNames = rFOrLSR2IIR theta L RegNames.
Proof.
  intros H. unfold rFOrLSR2IIR, CoeffList.
  now rewrite CoeffList_from_app by (cbn [Nat.add]; exact H).
Qed.

Lemma rFOrLSR2IIR_reads_a_prefix_of_L_witness :
  rFOrLSR2IIR (ints [5; 7]%Z) ([1; 0] ++ [42; -7])%Z
    [undelayed_name var_x; lagged_name var_y (decimal 2)]
  = rFOrLSR2IIR (ints [5; 7]%Z) [1; 0]%Z
      [undelayed_name var_x; lagged_name var_y (decimal 2)].
Proof.
  apply (rFOrLSR2IIR_reads_a_prefix_of_L (ints [5; 7]%Z) [1; 0]%Z [42; -7]%Z).
  simpl. lia.
Defined.

(* ================================================================== *)
(** * ExpansionOrderEstimator: lowering the threshold *)
(* ================================================================== *)

Lemma nge_Fin_iff (a b : Qc) : nge (Fin a) (Fin b) = true <-> (b <= a)%Qc.
Proof.
  split; [apply nge_Fin_true|].
  intros H. unfold nge, ncmp. pose proof (proj1 (Qcle_alt b a) H) as Hc.
  unfold Qccompare in *. rewrite <- Qcompare_antisym in Hc.
  destruct (a ?= b)%Q; simpl in *; congruence.
Qed.

Lemma nge_lower_threshold (v : num) (t1 t2 : Qc) :
  (t1 <= t2)%Qc -> nge v (Fin t2) = true -> nge v (Fin t1) = true.
Proof.
  intros Ht. destruct v as [q|]; [|discriminate].
  rewrite !nge_Fin_iff. intros H. now apply Qcle_trans with t2.
Qed.

(** With a lower threshold the loop stops no later, and what it has
    evaluated is the start of what the loop with the higher threshold
    evaluates. *)
Lemma order_loop_lower_threshold
  (Expander : matrix -> list String.string -> Z -> matrix * list String.string)
  (y_cut : vec) (RegMat : matrix) (RegNames : list String.string)
  (t1 t2 : Qc) (n : nat) :
  (t1 <= t2)%Qc ->
  forall (a : Z) (prev : option Z) (MEV : list num) (o2 : option Z)
         (M2 : list num),
  order_loop Expander y_cut RegMat RegNames (Fin t2)
    (range a (a + Z.of_nat n)) prev MEV = Ok (o2, M2) ->
  exists o1 M1 tail,
    order_loop Expander y_cut RegMat RegNames (Fin t1)
      (range a (a + Z.of_nat n)) prev MEV = Ok (o1, M1) /\
    M2 = M1 ++ tail /\
    match o1, o2 with
    | Some k1, Some k2 => (k1 <= k2)%Z
    | None, None => True
    | _, _ => False
    end.
Proof.
  intros Ht. induction n as [|n IH]; intros a prev MEV o2 M2 H.
  - rewrite range_nil in * by lia. cbn [order_loop] in *.
    injection H as <- <-. exists prev, MEV, []. split; [reflexivity|].
    split; [now rewrite app_nil_r|]. destruct prev; [apply Z.le_refl | exact I].
  - rewrite range_cons in * by lia. cbn [order_loop] in *.
    destruct (ModelErr Expander y_cut RegMat RegNames a) as [v|ex];
      cbn [bind] in *; [|discriminate].
    rewrite last_last in *.
    replace (a + Z.of_nat (S n))%Z with (a + 1 + Z.of_nat n)%Z in * by lia.
    destruct (nge v (Fin t1)) eqn:E1.
    + destruct (nge v (Fin t2)) eqn:E2.
      * injection H as <- <-. exists (Some a), (MEV ++ [v]), [].
        split; [reflexivity|]. split; [now rewrite app_nil_r | apply Z.le_refl].
      * destruct (order_loop_returns _ _ _ _ _ _ _ _ _ _ _ H)
          as [(_ & -> & ->)|(k & tail & -> & Hk & -> & _)].
        -- exists (Some a), (MEV ++ [v]), []. split; [reflexivity|].
           split; [now rewrite app_nil_r | apply Z.le_refl].
        -- exists (Some a), (MEV ++ [v]), tail. split; [reflexivity|].
           split; [reflexivity | lia].
    + assert (E2 : nge v (Fin t2) = false).
      { destruct (nge v (Fin t2)) eqn:E2; [|reflexivity].
        rewrite (nge_lower_threshold v t1 t2 Ht E2) in E1. discriminate E1. }
      rewrite E2 in H. exact (IH _ _ _ _ _ H).
Qed.

(** X21. Lowering the threshold never costs more: when
    [ExpansionOrderEstimator] returns for the threshold [t2], it returns
    for every threshold [t1 <= t2] as well, with an order that is not
    larger and a variance sequence that is the start of the one for [t2]. *)
Theorem ExpansionOrderEstimator_lower_threshold
  (Lagger : vec * vec -> nat * nat -> vec * matrix * list String.string)
  (Expander : matrix -> list String.string -> Z -> matrix * list String.string)
  (x y : vec) (MaxLags : nat * nat) (MaxOrder : Z) (t1 t2 : Qc)
  (o2 : Z) (M2 : list num) :
  (t1 <= t2)%Qc ->
  ExpansionOrderEstimator Lagger Expander x y MaxLags MaxOrder (Fin t2)
  = Ok (o2, M2) ->
  exists o1 M1 tail,
    ExpansionOrderEstimator Lagger Expander x y MaxLags MaxOrder (Fin t1)
    = Ok (o1, M1) /\
    (o1 <= o2)%Z /\ M2 = M1 ++ tail.
Proof.
  intros Ht. unfold ExpansionOrderEstimator.
  destruct (negb (length x =? length y)); [discriminate|].
  destruct (MaxOrder <? 1)%Z eqn:Em; [discriminate|].
  apply Z.ltb_ge in Em.
  destruct (Lagger (x, y) MaxLags) as [[y0 R] N].
  destruct (order_loop Expander (center y0) R N (Fin t2)
              (range 1 (MaxOrder + 1)) None [0%num]) as [[o M]|e] eqn:EL;
    cbn [bind fst snd]; [|discriminate].
  destruct o as [k2|]; [|discriminate].
  intros H. injection H as <- <-.
  replace (MaxOrder + 1)%Z with (1 + Z.of_nat (Z.to_nat MaxOrder))%Z in * by lia.
  destruct (order_loop_lower_threshold _ _ _ _ t1 t2 _ Ht _ _ _ _ _ EL)
    as (o1 & M1 & tail & H1 & HM & Ho).
  rewrite H1. cbn [bind fst snd].
  destruct o1 as [k1|]; [|contradiction].
  exists k1, M1, tail. auto.
Qed.

Lemma ExpansionOrderEstimator_lower_threshold_witness :
  exists o2 M2 o1 M1 tail,
    ExpansionOrderEstimator Lagger_model Expander_model
      (ints [1; -2; 3; 0; 5; 1]%Z) (ints [0; 1; -1; 3; 2; 4]%Z) (1, 0) 3
      (Fin (rat 98 100)) = Ok (o2, M2) /\
    ExpansionOrderEstimator Lagger_model Expander_model
      (ints [1; -2; 3; 0; 5; 1]%Z) (ints [0; 1; -1; 3; 2; 4]%Z) (1, 0) 3
      (Fin (rat 1 2)) = Ok (o1, M1) /\
    (o1 <= o2)%Z /\ M2 = M1 ++ tail.
Proof.
  destruct (ExpansionOrderEstimator Lagger_model Expander_model
      (ints [1; -2; 3; 0; 5; 1]%Z) (ints [0; 1; -1; 3; 2; 4]%Z) (1, 0) 3
      (Fin (rat 98 100))) as [[o2 M2]|e] eqn:E;
    [|vm_compute in E; discriminate E].
  assert (Ht : (rat 1 2 <= rat 98 100)%Qc) by (vm_compute; discriminate).
  destruct (ExpansionOrderEstimator_lower_threshold Lagger_model Expander_model
              _ _ _ _ _ _ _ _ Ht E) as (o1 & M1 & tail & H1 & H2 & H3).
  exists o2, M2, o1, M1, tail. auto.
Defined.

(* ================================================================== *)
(** * MaxLagsEstimator: the warning and the recommendations *)
(* ================================================================== *)

Lemma gget_outside (rows cols : nat) (G : grid) (na nb : nat) :
  shaped rows cols G -> rows <= na \/ cols <= nb -> gget G na nb = NaN.
Proof.
  intros [Hr Hc] H. unfold gget.
  destruct (Nat.lt_ge_cases na (length G)) as [Hna|Hna].
  - apply nth_overflow. rewrite Forall_forall in Hc.
    rewrite (Hc (nth na G [])) by now apply nth_In. lia.
  - rewrite (nth_overflow G [] Hna). now destruct nb.
Qed.

(** X22. When the warning is printed, the three recommendations are the
    corner [(MaxLags[0], MaxLags[1])] the dictionary starts with: no scan
    has found a cell above the threshold. *)
Theorem MaxLagsEstimator_warning_means_defaults
  (Lagger : vec * vec -> nat * nat -> vec * matrix * list String.string)
  (Expander : matrix -> list String.string -> Z -> matrix * list String.string)
  (x y : vec) (ModelOrder : Z) (MaxLags : nat * nat) (thr : num)
  (Plot : bool) (SaveFig : option String.string) (run : MaxLags_run) :
  MaxLagsEstimator Lagger Expander x y ModelOrder MaxLags thr Plot SaveFig
  = Ok run ->
  warned run = true ->
  Recs run = {| Min_XY := (fst MaxLags, snd MaxLags);
                Min_X := (fst MaxLags, snd MaxLags);
                Min_Y := (fst MaxLags, snd MaxLags) |}.
Proof.
  intros HR HW.
  apply (recommendations_default_to_corner _ _ _ _ _ _ _ _ _ _ HR).
  destruct (MaxLagsEstimator_inv _ _ _ _ _ _ _ _ _ _ HR) as (_ & HF & _ & Hw).
  rewrite Hw in HW. clear Hw.
  pose proof (fill_grid_in_unit_interval _ _ _ _ _ _ _ _ HF) as Hunit.
  pose proof (fill_grid_shaped _ _ _ _ _ _ _ _ HF) as Hsh.
  intros na nb.
  destruct (Nat.le_gt_cases na (snd MaxLags)) as [Hna|Hna];
    [destruct (Nat.le_gt_cases nb (fst MaxLags)) as [Hnb|Hnb]|].
  - destruct (Hunit na nb Hna Hnb) as (r & Hr & _).
    destruct (gget_in_concat (Grid run) na nb) as [HN|Hin]; [congruence|].
    unfold npmax in HW.
    destruct (concat (Grid run)) as [|a l]; [destruct Hin|].
    destruct (fold_left nmax l a) as [m|] eqn:Hmax; [|discriminate].
    pose proof (fold_nmax_Fin l a m Hmax) as Hle. rewrite Forall_forall in Hle.
    destruct (Hle _ Hin) as (r' & Hr' & Hrm). rewrite Hr'.
    destruct thr as [t|]; [|discriminate].
    apply nlt_Fin in HW. unfold ngt, ncmp.
    assert (Hlt : (r' < t)%Qc) by now apply Qcle_lt_trans with m.
    pose proof (proj1 (Qclt_alt r' t) Hlt) as Hc.
    unfold Qccompare in *. now rewrite Hc.
  - rewrite (gget_outside _ _ _ _ _ Hsh); [reflexivity | right; lia].
  - rewrite (gget_outside _ _ _ _ _ Hsh); [reflexivity | left; lia].
Qed.

Lemma MaxLagsEstimator_warning_means_defaults_witness :
  exists run,
    MaxLagsEstimator Lagger_model Expander_model
      (ints [1; -2; 3; 0; 5; 1]%Z) (ints [0; 1; -1; 3; 2; 4]%Z) 1 (0, 1)
      (Fin (rat 1 2)) false None = Ok run /\
    warned run = true /\
    Recs run = {| Min_XY := (0, 1); Min_X := (0, 1); Min_Y := (0, 1) |}.
Proof.
  destruct (MaxLagsEstimator Lagger_model Expander_model
      (ints [1; -2; 3; 0; 5; 1]%Z) (ints [0; 1; -1; 3; 2; 4]%Z) 1 (0, 1)
      (Fin (rat 1 2)) false None) as [run|e] eqn:E;
    [|vm_compute in E; discriminate E].
  exists run. split; [reflexivity|].
  assert (HW : warned run = true).
  { vm_compute in E. injection E as <-. reflexivity. }
  split; [exact HW|].
  exact (MaxLagsEstimator_warning_means_defaults Lagger_model Expander_model
           _ _ _ _ _ _ _ run E HW).
Defined.
